(** * Ember service (api/services/Ember.js): a shallow embedding

    The service turns Waterline query results into the document shape
    expected by Ember Data's RESTAdapter.  JavaScript objects live in a heap
    and are referred to by location, so that the in-place mutations of the
    source ([record.links = ...], [delete record[alias]]) and the sharing of
    nested records are visible.  Arrays are never mutated in place by the
    service ([concat], [_.map], [_.reduce], [_.uniq] all build new arrays),
    so they are modelled as immutable lists.  Failures that JavaScript would
    raise (property access on [undefined] or [null], a missing model in
    [sails.models], [undefined.concat]) make the computation fail. *)

From Stdlib Require Import String Ascii List ZArith Bool Lia.
Import ListNotations.
#[local] Set Warnings "-register-all".
Open Scope string_scope.
Open Scope list_scope.

(** ** JavaScript values and the heap *)

Definition loc := N.

Inductive value : Type :=
| VUndef
| VNull
| VBool (b : bool)
| VNum (n : Z)
| VStr (s : string)
| VArr (vs : list value)
| VObj (l : loc)
(** a fresh plain object that is never shared nor mutated after creation:
    the [links] maps built by the service *)
| VDict (d : list (string * value)).

(** An object: its own enumerable properties, in insertion order. *)
Definition obj := list (string * value).

(** Ordered string-keyed maps (JS objects / the response document). *)
Fixpoint assoc_get {A} (k : string) (d : list (string * A)) : option A :=
  match d with
  | [] => None
  | (k', v) :: d' => if String.eqb k k' then Some v else assoc_get k d'
  end.

(** [o[k] = v]: an existing key keeps its position, a new key goes last. *)
Fixpoint assoc_set {A} (k : string) (v : A) (d : list (string * A))
  : list (string * A) :=
  match d with
  | [] => [(k, v)]
  | (k', v') :: d' =>
      if String.eqb k k' then (k', v) :: d' else (k', v') :: assoc_set k v d'
  end.

(** [delete o[k]] *)
Fixpoint assoc_del {A} (k : string) (d : list (string * A))
  : list (string * A) :=
  match d with
  | [] => []
  | (k', v') :: d' =>
      if String.eqb k k' then assoc_del k d' else (k', v') :: assoc_del k d'
  end.

Definition has_key {A} (k : string) (d : list (string * A)) : bool :=
  match assoc_get k d with Some _ => true | None => false end.

Definition heap := loc -> option obj.

Definition heap_upd (h : heap) (l : loc) (o : obj) : heap :=
  fun l' => if N.eqb l l' then Some o else h l'.

(** JavaScript truthiness. *)
Definition truthy (v : value) : bool :=
  match v with
  | VUndef | VNull => false
  | VBool b => b
  | VNum n => negb (Z.eqb n 0)
  | VStr s => negb (String.eqb s "")
  | VArr _ | VObj _ | VDict _ => true
  end.

Definition truthy_str (o : option string) : bool :=
  match o with Some s => negb (String.eqb s "") | None => false end.

Definition opt_is (o : option string) (s : string) : bool :=
  match o with Some s' => String.eqb s' s | None => false end.

(** [===] on the values the service compares (identifiers).  Two arrays or
    two link maps are distinct objects. *)
Definition strict_eq (v w : value) : bool :=
  match v, w with
  | VUndef, VUndef | VNull, VNull => true
  | VBool a, VBool b => Bool.eqb a b
  | VNum a, VNum b => Z.eqb a b
  | VStr a, VStr b => String.eqb a b
  | VObj a, VObj b => N.eqb a b
  | _, _ => false
  end.

(** [v > 0], as used on a [length] property. *)
Definition gt0 (v : value) : bool :=
  match v with
  | VNum n => Z.ltb 0 n
  | VBool b => b
  | _ => false
  end.

(** Decimal rendering of integers ([String(n)]). *)
Fixpoint digits_of (fuel : nat) (n : N) (acc : list ascii) : list ascii :=
  match fuel with
  | O => acc
  | S f =>
      let acc' := ascii_of_nat (48 + N.to_nat (N.modulo n 10)) :: acc in
      if N.eqb (N.div n 10) 0 then acc' else digits_of f (N.div n 10) acc'
  end.

Definition Z_to_dec (z : Z) : string :=
  match z with
  | Z0 => "0"
  | Zpos p => string_of_list_ascii (digits_of (Pos.size_nat p) (Npos p) [])
  | Zneg p =>
      String.append "-"
        (string_of_list_ascii (digits_of (Pos.size_nat p) (Npos p) []))
  end.

(** [String(v)], as used when an id is concatenated into a URL. *)
Fixpoint to_js_string (v : value) : string :=
  match v with
  | VUndef => "undefined"
  | VNull => "null"
  | VBool true => "true"
  | VBool false => "false"
  | VNum n => Z_to_dec n
  | VStr s => s
  | VArr vs =>
      String.concat ","
        (map (fun x => match x with
                       | VUndef | VNull => ""
                       | _ => to_js_string x
                       end) vs)
  | VObj _ | VDict _ => "[object Object]"
  end.

(** Property read [v[k]] in heap [h]; [None] is a TypeError. *)
Definition get_prop (h : heap) (v : value) (k : string) : option value :=
  match v with
  | VUndef | VNull => None
  | VObj l =>
      match h l with
      | Some o => Some (match assoc_get k o with Some x => x | None => VUndef end)
      | None => None
      end
  | VDict d => Some (match assoc_get k d with Some x => x | None => VUndef end)
  | VArr vs =>
      Some (if String.eqb k "length" then VNum (Z.of_nat (List.length vs))
            else VUndef)
  | VStr s =>
      Some (if String.eqb k "length" then VNum (Z.of_nat (String.length s))
            else VUndef)
  | VBool _ | VNum _ => Some VUndef
  end.

(** The elements lodash's collection functions ([_.reduce]) visit: the
    items of an array, the characters of a string, the own values of an
    object, nothing for other primitives. *)
Definition lodash_values (h : heap) (v : value) : list value :=
  match v with
  | VArr vs => vs
  | VStr s => map (fun c => VStr (String c EmptyString)) (list_ascii_of_string s)
  | VObj l => match h l with Some o => map snd o | None => [] end
  | VDict d => map snd d
  | _ => []
  end.

(** ** lodash 3 case conversion ([_.kebabCase], [_.camelCase])

    lodash 3 splits a string into words with the pattern
    [upper+(?=upper lower+) | upper? lower+ | upper+ | [0-9]+] and then
    joins them.  The function below scans the characters once and yields
    the same words on ASCII input: a run of capitals followed by a small
    letter gives its last capital to the next word. *)

Definition is_upper (c : ascii) : bool :=
  (Nat.leb 65 (nat_of_ascii c) && Nat.leb (nat_of_ascii c) 90)%bool.
Definition is_lower (c : ascii) : bool :=
  (Nat.leb 97 (nat_of_ascii c) && Nat.leb (nat_of_ascii c) 122)%bool.
Definition is_digit (c : ascii) : bool :=
  (Nat.leb 48 (nat_of_ascii c) && Nat.leb (nat_of_ascii c) 57)%bool.

(** [String.prototype.toLowerCase] / [toUpperCase] on ASCII letters. *)
Definition lower_char (c : ascii) : ascii :=
  if is_upper c then ascii_of_nat (nat_of_ascii c + 32) else c.
Definition upper_char (c : ascii) : ascii :=
  if is_lower c then ascii_of_nat (nat_of_ascii c - 32) else c.

Definition toLowerCase (s : string) : string :=
  string_of_list_ascii (map lower_char (list_ascii_of_string s)).

Inductive wmode := WNone | WUpper | WLower | WDigit.

Definition emit (cur : list ascii) (rest : list (list ascii)) :=
  match cur with [] => rest | _ => cur :: rest end.

Fixpoint words_go (mode : wmode) (cur : list ascii) (l : list ascii)
  : list (list ascii) :=
  match l with
  | [] => emit cur []
  | c :: l' =>
      if is_upper c then
        match mode with
        | WUpper => words_go WUpper (cur ++ [c]) l'
        | _ => emit cur (words_go WUpper [c] l')
        end
      else if is_lower c then
        match mode with
        | WLower => words_go WLower (cur ++ [c]) l'
        | WUpper =>
            match cur with
            | [u] => words_go WLower [u; c] l'
            | _ => emit (removelast cur) (words_go WLower [last cur c; c] l')
            end
        | _ => emit cur (words_go WLower [c] l')
        end
      else if is_digit c then
        match mode with
        | WDigit => words_go WDigit (cur ++ [c]) l'
        | _ => emit cur (words_go WDigit [c] l')
        end
      else emit cur (words_go WNone [] l')
  end.

Definition words (s : string) : list (list ascii) :=
  words_go WNone [] (list_ascii_of_string s).

Definition kebabCase (s : string) : string :=
  String.concat "-"
    (map (fun w => string_of_list_ascii (map lower_char w)) (words s)).

(** [word.charAt(0).toUpperCase() + word.slice(1)] after lowering. *)
Definition camel_word (w : list ascii) : list ascii :=
  match map lower_char w with
  | [] => []
  | c :: r => upper_char c :: r
  end.

Definition camelCase (s : string) : string :=
  match words s with
  | [] => ""
  | w :: ws =>
      string_of_list_ascii (map lower_char w ++ concat (map camel_word ws))
  end.

(** ** The environment: [sails] and the [pluralize] library *)

(** An entry of [req.options.associations] / [model.associations]. *)
Record Assoc := {
  alias : string;
  type : string;
  collection : option string;
  model : option string;
  via : option string;
  through : option string;
  include : option string
}.

(** A Waterline collection as the service uses it. *)
Record Model := {
  identity : string;
  globalId : string;
  associations : list Assoc
}.

(** The parts of the [sails] global that the service reads. *)
Record Sails := {
  models : string -> option Model;
  blueprints_prefix : string;
  ember_convertModelName : option (string -> bool -> string);
  ember_reverseModelName : option (string -> bool -> string)
}.

(** The third-party [pluralize] module: [pluralize(w)] is [plural w] and
    [pluralize(w, 1)] is [singular w]. *)
Record Pluralize := {
  plural : string -> string;
  singular : string -> string
}.

(** ** A state and error monad

    The state is the heap, the next free location and the response
    document [json] that [buildResponse] builds. *)

Definition document := list (string * list value).

Record St := {
  st_heap : heap;
  st_next : loc;
  st_json : document
}.

Definition M (A : Type) := St -> option (A * St).

Definition ret {A} (a : A) : M A := fun s => Some (a, s).
Definition bind {A B} (m : M A) (k : A -> M B) : M B :=
  fun s => match m s with Some (a, s') => k a s' | None => None end.
Definition throw {A} : M A := fun _ => None.

Notation "x <- m ;; k" := (bind m (fun x => k))
  (at level 61, m at next level, right associativity).
Notation "m ;;; k" := (bind m (fun _ => k))
  (at level 61, right associativity).

Definition with_heap (s : St) (h : heap) : St :=
  {| st_heap := h; st_next := st_next s; st_json := st_json s |}.
Definition with_json (s : St) (j : document) : St :=
  {| st_heap := st_heap s; st_next := st_next s; st_json := j |}.

(** [v[k]] *)
Definition getM (v : value) (k : string) : M value :=
  fun s => match get_prop (st_heap s) v k with
           | Some x => Some (x, s)
           | None => None
           end.

(** [v[k] = x]; assignments to primitives are silently dropped
    (sloppy mode), to [null]/[undefined] they throw. *)
Definition setM (v : value) (k : string) (x : value) : M unit :=
  fun s => match v with
           | VObj l =>
               match st_heap s l with
               | Some o => Some (tt, with_heap s (heap_upd (st_heap s) l (assoc_set k x o)))
               | None => None
               end
           | VUndef | VNull => None
           | _ => Some (tt, s)
           end.

(** [delete v[k]] *)
Definition delM (v : value) (k : string) : M unit :=
  fun s => match v with
           | VObj l =>
               match st_heap s l with
               | Some o => Some (tt, with_heap s (heap_upd (st_heap s) l (assoc_del k o)))
               | None => None
               end
           | VUndef | VNull => None
           | _ => Some (tt, s)
           end.

(** A new object with the given own properties. *)
Definition alloc (o : obj) : M value :=
  fun s => Some (VObj (st_next s),
                 {| st_heap := heap_upd (st_heap s) (st_next s) o;
                    st_next := N.succ (st_next s);
                    st_json := st_json s |}).

Definition values_of (v : value) : M (list value) :=
  fun s => Some (lodash_values (st_heap s) v, s).

(** [json[k]]; reading an absent key and calling [.concat] on it throws. *)
Definition json_get (k : string) : M (list value) :=
  fun s => match assoc_get k (st_json s) with
           | Some a => Some (a, s)
           | None => None
           end.
Definition json_set (k : string) (a : list value) : M unit :=
  fun s => Some (tt, with_json s (assoc_set k a (st_json s))).
Definition json_del (k : string) : M unit :=
  fun s => Some (tt, with_json s (assoc_del k (st_json s))).
Definition json_keys : M (list string) :=
  fun s => Some (map fst (st_json s), s).
Definition json_has (k : string) : M bool :=
  fun s => Some (has_key k (st_json s), s).

Fixpoint mapM {A B} (f : A -> M B) (l : list A) : M (list B) :=
  match l with
  | [] => ret []
  | x :: l' => y <- f x ;; ys <- mapM f l' ;; ret (y :: ys)
  end.

Fixpoint foldM {A B} (f : B -> A -> M B) (l : list A) (acc : B) : M B :=
  match l with
  | [] => ret acc
  | x :: l' => acc' <- f acc x ;; foldM f l' acc'
  end.

(** [_.each] *)
Fixpoint iterM {A} (f : A -> M unit) (l : list A) : M unit :=
  match l with
  | [] => ret tt
  | x :: l' => f x ;;; iterM f l'
  end.

(** [array.concat(v)]: an array argument is spread, anything else appended. *)
Definition js_concat (a : list value) (v : value) : list value :=
  match v with VArr vs => a ++ vs | _ => a ++ [v] end.

(** ** The service *)

Section Ember.

Variable pl : Pluralize.
Variable sails : Sails.

(** [pluralize(word)] / [pluralize(word, 1)] *)
Definition pluralize (word : string) (one : bool) : string :=
  if one then singular pl word else plural pl word.

(** [convertModelName(modelName, convertToPlural)]; the one-argument call
    of the source is [convertToPlural = true]. *)
Definition convertModelName (modelName : string) (convertToPlural : bool)
  : string :=
  match ember_convertModelName sails with
  | Some f => f modelName convertToPlural
  | None =>
      let modelName := kebabCase modelName in
      if convertToPlural then pluralize modelName false else modelName
  end.

(** [reverseModelName(transformedModelName, convertToSingular)] *)
Definition reverseModelName (transformedModelName : string)
  (convertToSingular : bool) : string :=
  match ember_reverseModelName sails with
  | Some f => f transformedModelName convertToSingular
  | None =>
      let transformedModelName := toLowerCase (camelCase transformedModelName) in
      if convertToSingular then pluralize transformedModelName true
      else transformedModelName
  end.

(** [sails.models[key]] followed by a property read: a missing model
    throws. *)
Definition models_get (key : string) : M Model :=
  match models sails key with Some m => ret m | None => throw end.

(** [assoc.collection || assoc.model] as a property key. *)
Definition target_key (a : Assoc) : string :=
  match collection a with
  | Some c => if truthy_str (collection a) then c
              else match model a with Some m => m | None => "undefined" end
  | None => match model a with Some m => m | None => "undefined" end
  end.

Definition opt_key (o : option string) : string :=
  match o with Some s => s | None => "undefined" end.

Definition url (parts : list string) : string := String.concat "" parts.

(** The links of one record for the collection associations of [mdl]. *)
Definition record_links (modelPlural : string) (mdl : Model) (record : value)
  : M (list (string * value)) :=
  foldM (fun links a =>
           if String.eqb (type a) "collection" then
             rid <- getM record "id" ;;
             ret (assoc_set (alias a)
                    (VStr (url [blueprints_prefix sails; "/"; modelPlural; "/";
                                to_js_string rid; "/"; alias a])) links)
           else ret links)
        (associations mdl) [].

(** [linkAssociations(model, records)] *)
Definition linkAssociations (mdl : Model) (records : value) : M (list value) :=
  let records := match records with VArr vs => vs | _ => [records] end in
  let modelPlural := convertModelName (identity mdl) true in
  mapM (fun record =>
          links <- record_links modelPlural mdl record ;;
          (if Nat.ltb 0 (List.length links)
           then setM record "links" (VDict links) else ret tt) ;;;
          ret record)
       records.

(** [record.toJSON()]: the ORM serializer, which hands back the record's
    own properties; nested records are the same objects. *)
Definition toJSON (record : value) : M obj :=
  fun s => match record with
           | VObj l => match st_heap s l with
                       | Some o => Some (o, s)
                       | None => None
                       end
           | _ => None
           end.

(** The inverse key (lines 111-115): the root model's kebab-case
    identity, unless the singular of [assoc.via] differs from it;
    [pluralize(undefined, 1)] throws. *)
Definition via_key (emberModelIdentity : string) (a : Assoc) : M string :=
  let via0 := kebabCase emberModelIdentity in
  via1 <- (match via a with
           | Some v => ret (pluralize v true)
           | None => throw
           end) ;;
  ret (if String.eqb via0 via1 then via0 else via1).

(** Lines 116-124: sideload the embedded records of a collection and
    reduce the field to their ids.  The condition is evaluated left to
    right with short-circuiting. *)
Definition sideload_collection (sideload : bool) (assocModelIdentifier : string)
  (assocModel : option Model) (record : value) (a : Assoc) : M unit :=
  go <- (if (sideload && opt_is (include a) "record")%bool then
           f <- getM record (alias a) ;;
           if truthy f then len <- getM f "length" ;; ret (gt0 len)
           else ret false
         else ret false) ;;
  if go then
    am <- (match assocModel with Some am => ret am | None => throw end) ;;
    bucket <- json_get assocModelIdentifier ;;
    f <- getM record (alias a) ;;
    linked <- linkAssociations am f ;;
    json_set assocModelIdentifier (bucket ++ linked) ;;;
    f <- getM record (alias a) ;;
    recs <- values_of f ;;
    ids <- mapM (fun rec => getM rec "id") recs ;;
    setM record (alias a) (VArr ids)
  else ret tt.

(** The reducer of lines 127-135: keep the rows whose inverse key is the
    record's id, collecting [rec[assoc.collection]] (through) or
    [rec.id]. *)
Definition index_row (record : value) (via : string) (a : Assoc)
  (filtered : list value) (rec : value) : M (list value) :=
  x <- getM rec via ;;
  rid <- getM record "id" ;;
  if strict_eq x rid then
    y <- (if truthy_str (through a)
          then getM rec (opt_key (collection a))
          else getM rec "id") ;;
    ret (filtered ++ [y])
  else ret filtered.

(** Lines 125-137: the id list from [associatedRecords]. *)
Definition index_collection (associatedRecords record : value) (via : string)
  (a : Assoc) : M unit :=
  if opt_is (include a) "index" then
    ar <- getM associatedRecords (alias a) ;;
    if truthy ar then
      rows <- values_of ar ;;
      picked <- foldM (index_row record via a) rows [] ;;
      setM record (alias a) (VArr picked)
    else ret tt
  else ret tt.

(** Lines 139-142: a link instead of the field. *)
Definition link_collection (documentIdentifier : string) (record : value)
  (links : list (string * value)) (a : Assoc) : M (list (string * value)) :=
  if opt_is (include a) "link" then
    rid <- getM record "id" ;;
    let links := assoc_set (alias a)
                   (VStr (url [blueprints_prefix sails; "/";
                               documentIdentifier; "/"; to_js_string rid;
                               "/"; alias a])) links in
    delM record (alias a) ;;;
    ret links
  else ret links.

(** Lines 145-151: sideload the record of a single-valued association. *)
Definition sideload_model (sideload : bool) (assocModelIdentifier : string)
  (record : value) (a : Assoc) : M unit :=
  f <- getM record (alias a) ;;
  if truthy f then
    if (sideload && opt_is (include a) "record")%bool then
      am <- models_get (opt_key (model a)) ;;
      linkedRecords <- linkAssociations am f ;;
      bucket <- json_get assocModelIdentifier ;;
      f <- getM record (alias a) ;;
      json_set assocModelIdentifier (js_concat bucket f) ;;;
      first <- (match linkedRecords with x :: _ => ret x | [] => throw end) ;;
      i <- getM first "id" ;;
      setM record (alias a) i
    else ret tt
  else ret tt.

(** The body of [buildResponse] for one association of one record
    ([prepareOneRecord], lines 106-158). *)
Definition prepare_assoc (emberModelIdentity documentIdentifier : string)
  (sideload : bool) (associatedRecords : value) (record : value)
  (links : list (string * value)) (a : Assoc) : M (list (string * value)) :=
  m <- models_get (target_key a) ;;
  let assocModelIdentifier := convertModelName (globalId m) true in
  links <-
    (if String.eqb (type a) "collection" then
       let assocModel := models sails (opt_key (collection a)) in
       via <- via_key emberModelIdentity a ;;
       sideload_collection sideload assocModelIdentifier assocModel record a ;;;
       index_collection associatedRecords record via a ;;;
       link_collection documentIdentifier record links a
     else ret links) ;;
  (if String.eqb (type a) "model"
   then sideload_model sideload assocModelIdentifier record a
   else ret tt) ;;;
  ret links.

(** [prepareOneRecord(record)] *)
Definition prepareOneRecord (emberModelIdentity documentIdentifier : string)
  (associations : list Assoc) (sideload : bool) (associatedRecords : value)
  (record : value) : M value :=
  props <- toJSON record ;;
  record <- alloc props ;;
  links <- foldM (prepare_assoc emberModelIdentity documentIdentifier sideload
                    associatedRecords record) associations [] ;;
  (if Nat.ltb 0 (List.length links)
   then setM record "links" (VDict links) else ret tt) ;;;
  ret record.

(** Lines 87-99: one empty bucket per sideloaded association. *)
Definition prepare_sideload (associations : list Assoc) : M unit :=
  iterM (fun a =>
           if opt_is (include a) "record" then
             m <- models_get (target_key a) ;;
             let assocModelIdentifier := convertModelName (globalId m) true in
             present <- json_has (alias a) ;;
             if present then ret tt else json_set assocModelIdentifier []
           else ret tt) associations.

(** [_.uniq(array, function (record) { return record.id; })] *)
Definition uniq_by_id (array : list value) : M (list value) :=
  kept <- foldM (fun acc record =>
                   let '(seen, out) := acc in
                   k <- getM record "id" ;;
                   if existsb (strict_eq k) seen then ret acc
                   else ret (seen ++ [k], out ++ [record]))
                array ([], []) ;;
  ret (snd kept).

(** Lines 177-186: drop empty buckets, deduplicate the others. *)
Definition prune_buckets (documentIdentifier : string) : M unit :=
  keys <- json_keys ;;
  iterM (fun key =>
           if String.eqb key documentIdentifier then ret tt
           else
             array <- json_get key ;;
             match array with
             | [] => json_del key
             | _ => u <- uniq_by_id array ;; json_set key u
             end) keys.

Definition is_number_or_string (v : value) : bool :=
  match v with VNum _ | VStr _ => true | _ => false end.

(** Lines 189-197: links on the sideloaded records. *)
Definition link_buckets (documentIdentifier : string) : M unit :=
  keys <- json_keys ;;
  iterM (fun key =>
           if String.eqb key documentIdentifier then ret tt
           else
             array <- json_get key ;;
             match array with
             | x :: _ =>
                 if is_number_or_string x then ret tt
                 else
                   m <- models_get (reverseModelName key true) ;;
                   linkAssociations m (VArr array) ;;; ret tt
             | [] => ret tt
             end) keys.

(** Lines 83-99: the document with an empty primary bucket and, when
    sideloading, the pre-registered buckets. *)
Definition init_document (documentIdentifier : string)
  (associations : list Assoc) (sideload : bool) : M unit :=
  (fun s => Some (tt, with_json s [(documentIdentifier, [])])) ;;;
  (if sideload then prepare_sideload associations else ret tt).

(** Lines 78-172: the document with the primary records (and the
    sideloaded ones, before pruning). *)
Definition build_records (mdl : Model) (records : value)
  (associations : list Assoc) (sideload : bool) (associatedRecords : value)
  : M unit :=
  let emberModelIdentity := globalId mdl in
  let documentIdentifier := convertModelName emberModelIdentity true in
  init_document documentIdentifier associations sideload ;;;
  let prepare := prepareOneRecord emberModelIdentity documentIdentifier
                   associations sideload associatedRecords in
  match records with
  | VArr rs =>
      iterM (fun record =>
               old <- json_get documentIdentifier ;;
               r <- prepare record ;;
               json_set documentIdentifier (js_concat old r)) rs
  | _ => r <- prepare records ;; json_set documentIdentifier [r]
  end.

(** Lines 174-198 *)
Definition finish_sideload (documentIdentifier : string) : M unit :=
  prune_buckets documentIdentifier ;;; link_buckets documentIdentifier.

(** [buildResponse(model, records, associations, sideload, associatedRecords)] *)
Definition buildResponse (mdl : Model) (records : value)
  (associations : list Assoc) (sideload : bool) (associatedRecords : value)
  : M document :=
  build_records mdl records associations sideload associatedRecords ;;;
  (if sideload then finish_sideload (convertModelName (globalId mdl) true)
   else ret tt) ;;;
  (fun s => Some (st_json s, s)).

End Ember.

(** ** A partial transcription of [pluralize]

    Only what the concrete instances below need: the pronoun rows at the
    head of the library's irregular table (registered in this order, so a
    later row wins for a shared key) and the two catch-all suffix rules
    ([/s?$/i -> 's'] for plurals, [/s$/i -> ''] for singulars).  The
    word-specific suffix rules and the uncountable list are not
    transcribed. *)
Module PluralizeLib.

Definition irregular : list (string * string) :=
  [("i", "we"); ("me", "us"); ("he", "they"); ("she", "they");
   ("them", "them")].

(** [irregularSingles] and [irregularPlurals]: the last row wins. *)
Definition irregularSingles := map (fun '(s, p) => (s, p)) (rev irregular).
Definition irregularPlurals := map (fun '(s, p) => (p, s)) (rev irregular).

Definition toUpperCase (s : string) : string :=
  string_of_list_ascii (map upper_char (list_ascii_of_string s)).

Definition restoreCase (word token : string) : string :=
  if String.eqb word token then token
  else if String.eqb word (toUpperCase word) then toUpperCase token
  else match list_ascii_of_string word, list_ascii_of_string token with
       | c :: _, t :: ts =>
           if Ascii.eqb c (upper_char c)
           then string_of_list_ascii (upper_char t :: map lower_char ts)
           else toLowerCase token
       | _, _ => toLowerCase token
       end.

Definition ends_with_s (l : list ascii) : bool :=
  match rev l with c :: _ => Ascii.eqb (lower_char c) "s"%char | [] => false end.

Definition plural_rule (word : string) : string :=
  let l := list_ascii_of_string word in
  if ends_with_s l then string_of_list_ascii (removelast l ++ ["s"%char])
  else string_of_list_ascii (l ++ ["s"%char]).

Definition singular_rule (word : string) : string :=
  let l := list_ascii_of_string word in
  if ends_with_s l then string_of_list_ascii (removelast l) else word.

(** [replaceWord(replaceMap, keepMap, rules)] *)
Definition replaceWord (replaceMap keepMap : list (string * string))
  (rule : string -> string) (word : string) : string :=
  let token := toLowerCase word in
  match assoc_get token keepMap with
  | Some _ => restoreCase word token
  | None =>
      match assoc_get token replaceMap with
      | Some r => restoreCase word r
      | None => if String.eqb token "" then word else rule word
      end
  end.

Definition lib : Pluralize := {|
  plural := replaceWord irregularSingles irregularPlurals plural_rule;
  singular := replaceWord irregularPlurals irregularSingles singular_rule
|}.

End PluralizeLib.

(** A [sails] global without naming hooks. *)
Definition plain_sails (models : string -> option Model) (prefix : string)
  : Sails := {|
  models := models;
  blueprints_prefix := prefix;
  ember_convertModelName := None;
  ember_reverseModelName := None
|}.

Definition no_models : string -> option Model := fun _ => None.

(** ** A concrete application

    A [user] has many [posts] (sideloaded records, inverse [author]); a
    [post] has many [comments] (hyperlinked).  User 1 owns posts 10 and
    11. *)

Definition postsA : Assoc := {|
  alias := "posts"; type := "collection"; collection := Some "post";
  model := None; via := Some "author"; through := None; include := Some "record" |}.

Definition commentsA : Assoc := {|
  alias := "comments"; type := "collection"; collection := Some "comment";
  model := None; via := Some "post"; through := None; include := Some "link" |}.

Definition userM : Model := {|
  identity := "user"; globalId := "User"; associations := [postsA] |}.

Definition postM : Model := {|
  identity := "post"; globalId := "Post"; associations := [commentsA] |}.

Definition commentM : Model := {|
  identity := "comment"; globalId := "Comment"; associations := [] |}.

Definition ex_models (k : string) : option Model :=
  if String.eqb k "user" then Some userM
  else if String.eqb k "post" then Some postM
  else if String.eqb k "comment" then Some commentM
  else None.

Definition ex_sails : Sails := plain_sails ex_models "/api".

(** Location 1: the user; 2 and 3: the posts. *)
Definition ex_heap : heap := fun l =>
  match l with
  | 1%N => Some [("id", VNum 1); ("name", VStr "ann");
                 ("posts", VArr [VObj 2%N; VObj 3%N])]
  | 2%N => Some [("id", VNum 10); ("title", VStr "a")]
  | 3%N => Some [("id", VNum 11); ("title", VStr "b")]
  | _ => None
  end.

Definition ex_s0 : St := {| st_heap := ex_heap; st_next := 4%N; st_json := [] |}.

(** The document and the final state of a run. *)
Definition run_doc (r : option (document * St)) : document :=
  match r with Some (d, _) => d | None => [] end.

Definition run_final (r : option (document * St)) (dflt : St) : St :=
  match r with Some (_, s) => s | None => dflt end.

(** [buildResponse(User, user1, [posts], true)]. *)
Definition ex_run : option (document * St) :=
  buildResponse PluralizeLib.lib ex_sails userM (VObj 1%N) [postsA] true VUndef ex_s0.

Definition ex_doc : document := run_doc ex_run.
Definition ex_final : St := run_final ex_run ex_s0.

(** [buildResponse(Post, post10, [comments], false)]: a hyperlinked
    collection. *)
Definition link_run : option (document * St) :=
  buildResponse PluralizeLib.lib ex_sails postM (VObj 2%N) [commentsA] false VUndef ex_s0.

Definition link_doc : document := run_doc link_run.
Definition link_final : St := run_final link_run ex_s0.

(** A user whose [posts] field is an empty array. *)
Definition empty_heap : heap := fun l =>
  match l with
  | 1%N => Some [("id", VNum 1); ("name", VStr "ann"); ("posts", VArr [])]
  | _ => None
  end.

Definition empty_s0 : St := {| st_heap := empty_heap; st_next := 2%N; st_json := [] |}.

Definition empty_run : option (document * St) :=
  buildResponse PluralizeLib.lib ex_sails userM (VObj 1%N) [postsA] true VUndef empty_s0.

Definition empty_doc : document := run_doc empty_run.
Definition empty_final : St := run_final empty_run empty_s0.

(** An index association through a join model: the join rows
    [{fromId: 1, toId: 9}, {fromId: 1, toId: 10}, {fromId: 2, toId: 9}]
    are given in [associatedRecords.tags]. *)
Definition tagsA : Assoc := {|
  alias := "tags"; type := "collection"; collection := Some "toId";
  model := None; via := Some "fromId"; through := Some "usertag";
  include := Some "index" |}.

Definition tagM : Model := {|
  identity := "tag"; globalId := "Tag"; associations := [] |}.

Definition ix_models (k : string) : option Model :=
  if String.eqb k "toId" then Some tagM else ex_models k.

Definition ix_sails : Sails := plain_sails ix_models "/api".

Definition ix_row (from to : Z) : value :=
  VDict [("fromId", VNum from); ("toId", VNum to)].

Definition ix_rows : list value := [ix_row 1 9; ix_row 1 10; ix_row 2 9].

Definition ix_ar : value := VDict [("tags", VArr ix_rows)].

Definition ix_run : option (document * St) :=
  buildResponse PluralizeLib.lib ix_sails userM (VObj 1%N) [tagsA] false ix_ar ex_s0.

Definition ix_doc : document := run_doc ix_run.
Definition ix_final : St := run_final ix_run ex_s0.

(** A [post] belongs to its [author] (a sideloaded record).  Post 2's
    field holds the user object 1; post 3's field holds the bare id 1. *)
Definition authorA : Assoc := {|
  alias := "author"; type := "model"; collection := None;
  model := Some "user"; via := None; through := None; include := Some "record" |}.

Definition au_heap : heap := fun l =>
  match l with
  | 1%N => Some [("id", VNum 1); ("name", VStr "ann")]
  | 2%N => Some [("id", VNum 10); ("author", VObj 1%N)]
  | 3%N => Some [("id", VNum 11); ("author", VNum 1)]
  | _ => None
  end.

Definition au_s0 : St := {| st_heap := au_heap; st_next := 4%N; st_json := [] |}.

Definition au_run : option (document * St) :=
  buildResponse PluralizeLib.lib ex_sails postM (VObj 2%N) [authorA] true VUndef au_s0.

Definition bare_run : option (document * St) :=
  buildResponse PluralizeLib.lib ex_sails postM (VObj 3%N) [authorA] true VUndef au_s0.

(** A [post] record whose embedded collection is aliased [posts], the
    response key of the [Post] model itself. *)
Definition shadowA : Assoc := {|
  alias := "posts"; type := "collection"; collection := Some "comment";
  model := None; via := Some "post"; through := None; include := Some "record" |}.

(** ** Helpers for the statements *)

(** The [id] a record object carries. *)
Definition id_of (o : obj) : value :=
  match assoc_get "id" o with Some v => v | None => VUndef end.

(** [record.id] read in heap [h] (undefined where the read would throw). *)
Definition id_in (h : heap) (v : value) : value :=
  match get_prop h v "id" with Some x => x | None => VUndef end.

Definition has_collection (mdl : Model) : bool :=
  existsb (fun a => String.eqb (type a) "collection") (associations mdl).

Definition is_obj_at (l : loc) (v : value) : bool :=
  match v with VObj l' => N.eqb l l' | _ => false end.

(** An object is left as it was or only its [links] property is (re)set
    to a map of strings. *)
Definition all_strings (d : list (string * value)) : Prop :=
  Forall (fun kv => exists s, snd kv = VStr s) d.

Definition links_step (o o' : obj) : Prop :=
  o' = o \/ exists L, all_strings L /\ o' = assoc_set "links" (VDict L) o.

Definition opt_links_step (x y : option obj) : Prop :=
  match x, y with
  | Some o, Some o' => links_step o o'
  | None, None => True
  | _, _ => False
  end.

(** One step of the links loop of [linkAssociations]. *)
Definition add_link (prefix modelPlural : string) (rid : value)
  (links : list (string * value)) (a : Assoc) : list (string * value) :=
  if String.eqb (type a) "collection" then
    assoc_set (alias a)
      (VStr (url [prefix; "/"; modelPlural; "/"; to_js_string rid; "/"; alias a]))
      links
  else links.

(** The links [linkAssociations] computes for a record with id [rid]. *)
Definition links_of (prefix modelPlural : string) (assocs : list Assoc)
  (rid : value) : list (string * value) :=
  fold_left (add_link prefix modelPlural rid) assocs [].

Definition is_collection_alias (k : string) (a : Assoc) : bool :=
  (String.eqb (type a) "collection" && String.eqb (alias a) k)%bool.

Definition linkify (prefix modelPlural : string) (assocs : list Assoc) (o : obj)
  : obj :=
  assoc_set "links" (VDict (links_of prefix modelPlural assocs (id_of o))) o.

(** Letters and the words of a kebab-case key. *)
Definition is_letter (c : ascii) : bool := (is_upper c || is_lower c)%bool.

(** A word as [words] cuts it: a non-empty run of letters or of digits. *)
Definition word_ok (w : list ascii) : Prop :=
  w <> [] /\ (Forall (fun c => is_letter c = true) w \/
              Forall (fun c => is_digit c = true) w).

(** The same, after lowering: small letters or digits. *)
Definition lword_ok (w : list ascii) : Prop :=
  w <> [] /\ (Forall (fun c => is_lower c = true) w \/
              Forall (fun c => is_digit c = true) w).

(** What [words_go] keeps in [cur] in each mode. *)
Definition mode_inv (m : wmode) (cur : list ascii) : Prop :=
  match m with
  | WNone => cur = []
  | WUpper | WLower => Forall (fun c => is_letter c = true) cur
  | WDigit => Forall (fun c => is_digit c = true) cur
  end.

(** [String.concat "-"] on character lists. *)
Fixpoint join_dash (ws : list (list ascii)) : list ascii :=
  match ws with
  | [] => []
  | w :: ws' =>
      match ws' with
      | [] => w
      | _ => w ++ "-"%char :: join_dash ws'
      end
  end.

(** Every object a value refers to lies below [n]. *)
Fixpoint below (n : loc) (v : value) : bool :=
  match v with
  | VObj l => N.ltb l n
  | VArr vs => forallb (below n) vs
  | VDict d => forallb (fun kv => below n (snd kv)) d
  | _ => true
  end.

Definition obj_below (n : loc) (o : obj) : bool :=
  forallb (fun kv => below n (snd kv)) o.

(** A heap whose objects only refer to locations below [n]. *)
Definition closed_heap (n : loc) (h : heap) : Prop :=
  forall l o, h l = Some o -> obj_below n o = true.

(** The same for the document, the primary key [docId] apart. *)
Definition closed_json (n : loc) (docId : string) (j : document) : Prop :=
  Forall (fun kb => fst kb <> docId -> forallb (below n) (snd kb) = true) j.

Definition closed (n : loc) (docId : string) (s : St) : Prop :=
  closed_heap n (st_heap s) /\ closed_json n docId (st_json s).

(** The effect of one step of [prepareOneRecord] on the heap, for the
    clone [c]: objects below [n0] at most get a [links] map, the other
    objects above [n0] stay, and the clone changes at most at the keys
    [ks]; the state stays closed. *)
Definition eff (n0 : loc) (docId : string) (c : loc) (ks : list string)
  (s s' : St) : Prop :=
  closed n0 docId s ->
  st_next s' = st_next s /\
  (forall l, (l < n0)%N -> opt_links_step (st_heap s l) (st_heap s' l)) /\
  (forall l, (n0 <= l)%N -> l <> c -> st_heap s' l = st_heap s l) /\
  (forall o, st_heap s c = Some o ->
     exists o', st_heap s' c = Some o' /\
       forall k, ~ In k ks -> assoc_get k o' = assoc_get k o) /\
  closed n0 docId s'.

(** [v[k]] read in heap [h] (undefined where the read would throw). *)
Definition field_in (h : heap) (v : value) (k : string) : value :=
  match get_prop h v k with Some x => x | None => VUndef end.

(** The ids an index association collects (lines 127-135), as a filter
    and a map: the [pick] field of the rows whose [via] field is
    [rid]. *)
Definition index_pick (h : heap) (rows : list value) (via pick : string)
  (rid : value) : list value :=
  map (fun r => field_in h r pick)
      (filter (fun r => strict_eq (field_in h r via) rid) rows).

(** The key the index reducer collects. *)
Definition pick_key (a : Assoc) : string :=
  if truthy_str (through a) then opt_key (collection a) else "id".

(** The elements of [l] whose [idf] differs from that of every earlier
    element. *)
Fixpoint keep_first_from (idf : value -> value) (prev : list value)
  (l : list value) : list value :=
  match l with
  | [] => []
  | x :: l' =>
      (if existsb (fun y => strict_eq (idf y) (idf x)) prev then [] else [x])
      ++ keep_first_from idf (prev ++ [x]) l'
  end.

Definition keep_first (idf : value -> value) (l : list value) : list value :=
  keep_first_from idf [] l.

(** The records [buildResponse] processes: the items of an array, or the
    single record. *)
Definition records_list (v : value) : list value :=
  match v with VArr vs => vs | _ => [v] end.

(** A field the sideloading condition of lines 116 skips: absent,
    [undefined], [null] or an empty array. *)
Definition empty_field (x : option value) : bool :=
  match x with
  | None | Some VUndef | Some VNull | Some (VArr []) => true
  | _ => false
  end.

(** The document key of an association's target model, when the model is
    registered. *)
Definition assoc_key (pl : Pluralize) (sails : Sails) (a : Assoc) : option string :=
  match models sails (target_key a) with
  | Some m => Some (convertModelName pl sails (globalId m) true)
  | None => None
  end.

(** A record object after [linkAssociations] for [mdl] (lines 55-62). *)
Definition link_obj (pl : Pluralize) (sails : Sails) (mdl : Model) (o : obj) : obj :=
  if has_collection mdl
  then linkify (blueprints_prefix sails) (convertModelName pl sails (identity mdl) true)
         (associations mdl) o
  else o.

(** [m] preserves the invariant [P] of the state. *)
Definition pres (P : St -> Prop) {A} (m : M A) : Prop :=
  forall s a s', P s -> m s = Some (a, s') -> P s'.

(** The keys of the document are distinct. *)
Definition json_nodup (s : St) : Prop := NoDup (map fst (st_json s)).


(** An association that rewrites its field on the record when nothing is
    sideloaded: a collection included as an id list or as a link
    (lines 125-142). *)
Definition rewrites_field (a : Assoc) : bool :=
  (String.eqb (type a) "collection" &&
   (opt_is (include a) "index" || opt_is (include a) "link"))%bool.

(** A step that touches the heap only at the clone [c], and the clone only
    at the keys [ks]; the document and the allocator stay. *)
Definition cstep (c : loc) (ks : list string) (s s' : St) : Prop :=
  st_json s' = st_json s /\ st_next s' = st_next s /\
  (forall l, l <> c -> st_heap s' l = st_heap s l) /\
  (forall o, st_heap s c = Some o ->
     exists o', st_heap s' c = Some o' /\
       forall k, ~ In k ks -> assoc_get k o' = assoc_get k o).

(** The next free location is [n]. *)
Definition next_is (n : loc) (s : St) : Prop := st_next s = n.

(** The [k] locations allocated from [n] on, as values. *)
Definition fresh_from (n : loc) (k : nat) : list value :=
  map (fun i => VObj (N.add n (N.of_nat i))) (seq 0 k).

(** A document whose buckets are all empty. *)
Definition all_empty (j : document) : Prop := Forall (fun kb => snd kb = []) j.

(** ** Reasoning about the monad *)

Lemma bind_some {A B} (m : M A) (k : A -> M B) s b s' :
  bind m k s = Some (b, s') ->
  exists a s1, m s = Some (a, s1) /\ k a s1 = Some (b, s').
Proof.
  unfold bind. destruct (m s) as [[a s1]|]; [eauto | discriminate].
Qed.

Ltac step H :=
  apply bind_some in H;
  let a := fresh "a" in let s := fresh "s" in let E := fresh "E" in
  destruct H as (a & s & E & H).

Ltac stepn H a s E := apply bind_some in H; destruct H as (a & s & E & H).

Lemma ret_some {A} (x : A) s a s' : ret x s = Some (a, s') -> a = x /\ s' = s.
Proof. unfold ret. intros H. inversion H. auto. Qed.

Lemma throw_some {A} s (a : A) s' : throw s = Some (a, s') -> False.
Proof. discriminate. Qed.

Lemma getM_some v k s x s' :
  getM v k s = Some (x, s') -> s' = s /\ get_prop (st_heap s) v k = Some x.
Proof.
  unfold getM. destruct (get_prop (st_heap s) v k) eqn:E; intros H;
    inversion H; subst; auto.
Qed.

Lemma setM_some v k x s u s' :
  setM v k x s = Some (u, s') ->
  (exists l o, v = VObj l /\ st_heap s l = Some o /\
     s' = with_heap s (heap_upd (st_heap s) l (assoc_set k x o))) \/
  (s' = s /\ v <> VUndef /\ v <> VNull /\ forall l, v <> VObj l).
Proof.
  unfold setM. destruct v; intros H; try discriminate;
    try (right; inversion H; repeat split; congruence).
  destruct (st_heap s l) eqn:E; inversion H. left; eauto.
Qed.

Lemma delM_some v k s u s' :
  delM v k s = Some (u, s') ->
  (exists l o, v = VObj l /\ st_heap s l = Some o /\
     s' = with_heap s (heap_upd (st_heap s) l (assoc_del k o))) \/
  (s' = s /\ v <> VUndef /\ v <> VNull /\ forall l, v <> VObj l).
Proof.
  unfold delM. destruct v; intros H; try discriminate;
    try (right; inversion H; repeat split; congruence).
  destruct (st_heap s l) eqn:E; inversion H. left; eauto.
Qed.

Lemma alloc_some o s v s' :
  alloc o s = Some (v, s') ->
  v = VObj (st_next s) /\
  s' = {| st_heap := heap_upd (st_heap s) (st_next s) o;
          st_next := N.succ (st_next s); st_json := st_json s |}.
Proof. unfold alloc. intros H. inversion H. auto. Qed.

Lemma values_of_some v s vs s' :
  values_of v s = Some (vs, s') -> s' = s /\ vs = lodash_values (st_heap s) v.
Proof. unfold values_of. intros H. inversion H. auto. Qed.

Lemma json_get_some k s a s' :
  json_get k s = Some (a, s') -> s' = s /\ assoc_get k (st_json s) = Some a.
Proof.
  unfold json_get. destruct (assoc_get k (st_json s)) eqn:E; intros H;
    inversion H; subst; auto.
Qed.

Lemma json_set_some k a s u s' :
  json_set k a s = Some (u, s') -> s' = with_json s (assoc_set k a (st_json s)).
Proof. unfold json_set. intros H. inversion H. auto. Qed.

Lemma json_del_some k s u s' :
  json_del k s = Some (u, s') -> s' = with_json s (assoc_del k (st_json s)).
Proof. unfold json_del. intros H. inversion H. auto. Qed.

Lemma json_keys_some s ks s' :
  json_keys s = Some (ks, s') -> s' = s /\ ks = map fst (st_json s).
Proof. unfold json_keys. intros H. inversion H. auto. Qed.

Lemma json_has_some k s b s' :
  json_has k s = Some (b, s') -> s' = s /\ b = has_key k (st_json s).
Proof. unfold json_has. intros H. inversion H. auto. Qed.

(** ** Ordered maps *)

Lemma assoc_get_set_eq {A} k (v : A) d : assoc_get k (assoc_set k v d) = Some v.
Proof.
  induction d as [|[k' v'] d IH]; simpl.
  - rewrite String.eqb_refl. reflexivity.
  - destruct (String.eqb k k') eqn:E; simpl; rewrite ?E; auto.
Qed.

Lemma assoc_get_set_neq {A} k k' (v : A) d :
  k <> k' -> assoc_get k' (assoc_set k v d) = assoc_get k' d.
Proof.
  intros Hne. induction d as [|[k0 v0] d IH]; simpl.
  - destruct (String.eqb k' k) eqn:E; auto.
    apply String.eqb_eq in E. congruence.
  - destruct (String.eqb k k0) eqn:E; simpl.
    + apply String.eqb_eq in E. subst k0.
      destruct (String.eqb k' k) eqn:E'; auto.
      apply String.eqb_eq in E'. congruence.
    + destruct (String.eqb k' k0); auto.
Qed.

Lemma assoc_set_set {A} k (v w : A) d :
  assoc_set k v (assoc_set k w d) = assoc_set k v d.
Proof.
  induction d as [|[k0 v0] d IH]; simpl.
  - rewrite String.eqb_refl. reflexivity.
  - destruct (String.eqb k k0) eqn:E; simpl; rewrite E; congruence.
Qed.

Lemma assoc_get_del_eq {A} k (d : list (string * A)) : assoc_get k (assoc_del k d) = None.
Proof.
  induction d as [|[k0 v0] d IH]; simpl; auto.
  destruct (String.eqb k k0) eqn:E; simpl; auto. rewrite E. auto.
Qed.

Lemma assoc_get_del_neq {A} k k' (d : list (string * A)) :
  k <> k' -> assoc_get k' (assoc_del k d) = assoc_get k' d.
Proof.
  intros Hne. induction d as [|[k0 v0] d IH]; simpl; auto.
  destruct (String.eqb k k0) eqn:E; simpl.
  - apply String.eqb_eq in E. subst k0.
    destruct (String.eqb k' k) eqn:E'; auto.
    apply String.eqb_eq in E'. congruence.
  - destruct (String.eqb k' k0); auto.
Qed.

Lemma id_of_set_links o v : id_of (assoc_set "links" v o) = id_of o.
Proof. unfold id_of. rewrite assoc_get_set_neq; [reflexivity | discriminate]. Qed.

Lemma heap_upd_eq h l o : heap_upd h l o l = Some o.
Proof. unfold heap_upd. rewrite N.eqb_refl. reflexivity. Qed.

Lemma heap_upd_neq h l l' o : l <> l' -> heap_upd h l o l' = h l'.
Proof.
  unfold heap_upd. intros Hne. destruct (N.eqb l l') eqn:E; auto.
  apply N.eqb_eq in E. congruence.
Qed.

(** ** [linkAssociations] *)

Lemma fold_add_link_get prefix mp rid assocs acc k :
  assoc_get k (fold_left (add_link prefix mp rid) assocs acc) =
  if existsb (is_collection_alias k) assocs
  then Some (VStr (url [prefix; "/"; mp; "/"; to_js_string rid; "/"; k]))
  else assoc_get k acc.
Proof.
  revert acc. induction assocs as [|b assocs IH]; intros acc; simpl; auto.
  rewrite IH. unfold add_link, is_collection_alias.
  destruct (existsb _ assocs); [destruct (_ && _)%bool; reflexivity|].
  destruct (String.eqb (type b) "collection") eqn:Ht; simpl; auto.
  destruct (String.eqb (alias b) k) eqn:Ha.
  - apply String.eqb_eq in Ha. subst k. apply assoc_get_set_eq.
  - apply assoc_get_set_neq. intros Heq. rewrite Heq, String.eqb_refl in Ha. discriminate.
Qed.

Lemma fold_add_link_strings prefix mp rid assocs acc :
  all_strings acc -> all_strings (fold_left (add_link prefix mp rid) assocs acc).
Proof.
  revert acc. induction assocs as [|b assocs IH]; intros acc Hacc; simpl; auto.
  apply IH. unfold add_link. destruct (String.eqb (type b) "collection"); auto.
  clear IH. induction acc as [|[k v] acc IHa]; simpl.
  - constructor; [eexists; reflexivity | constructor].
  - inversion Hacc; subst. destruct (String.eqb (alias b) k).
    + constructor; [eexists; reflexivity | auto].
    + constructor; [exact H1 | apply IHa; exact H2].
Qed.

Lemma links_of_get prefix mp assocs rid k :
  assoc_get k (links_of prefix mp assocs rid) =
  if existsb (is_collection_alias k) assocs
  then Some (VStr (url [prefix; "/"; mp; "/"; to_js_string rid; "/"; k]))
  else None.
Proof. unfold links_of. rewrite fold_add_link_get. reflexivity. Qed.

Lemma links_of_strings prefix mp assocs rid :
  all_strings (links_of prefix mp assocs rid).
Proof. apply fold_add_link_strings. constructor. Qed.

Lemma fold_add_link_nil prefix mp rid assocs :
  existsb (fun a => String.eqb (type a) "collection") assocs = false ->
  fold_left (add_link prefix mp rid) assocs [] = [].
Proof.
  induction assocs as [|b assocs IH]; simpl; auto.
  unfold add_link. destruct (String.eqb (type b) "collection"); simpl; auto.
  discriminate.
Qed.

Lemma links_of_length prefix mp assocs rid :
  Nat.ltb 0 (List.length (links_of prefix mp assocs rid)) =
  existsb (fun a => String.eqb (type a) "collection") assocs.
Proof.
  destruct (existsb (fun a => String.eqb (type a) "collection") assocs) eqn:E.
  - apply existsb_exists in E. destruct E as (a & Hin & Ha).
    assert (Hg : assoc_get (alias a) (links_of prefix mp assocs rid) <> None).
    { rewrite links_of_get.
      replace (existsb (is_collection_alias (alias a)) assocs) with true; [discriminate|].
      symmetry. apply existsb_exists. exists a. split; auto.
      unfold is_collection_alias. rewrite Ha, String.eqb_refl. reflexivity. }
    destruct (links_of prefix mp assocs rid); [simpl in Hg; congruence | reflexivity].
  - unfold links_of. rewrite fold_add_link_nil; auto.
Qed.

Lemma linkify_idem prefix mp assocs o :
  linkify prefix mp assocs (linkify prefix mp assocs o) = linkify prefix mp assocs o.
Proof.
  unfold linkify. rewrite id_of_set_links. apply assoc_set_set.
Qed.

Section Links.

Variable pl : Pluralize.
Variable sails : Sails.

Lemma record_links_some mp mdl v s L s' :
  record_links sails mp mdl v s = Some (L, s') ->
  s' = s /\
  L = links_of (blueprints_prefix sails) mp (associations mdl) (id_in (st_heap s) v).
Proof.
  unfold record_links, links_of.
  generalize (@nil (string * value)) as acc.
  generalize (associations mdl) as assocs.
  induction assocs as [|b assocs IH]; intros acc H; simpl in H.
  - apply ret_some in H. destruct H as [-> ->]. auto.
  - step H. simpl. unfold add_link at 2.
    destruct (String.eqb (type b) "collection").
    + step E. apply getM_some in E0. destruct E0 as [-> Hg].
      apply ret_some in E. destruct E as [-> ->].
      assert (Hid : id_in (st_heap s) v = a0) by (unfold id_in; rewrite Hg; reflexivity).
      rewrite <- Hid in H. apply IH. exact H.
    + apply ret_some in E. destruct E as [-> ->]. apply IH. exact H.
Qed.

Lemma id_in_obj h l o : h l = Some o -> id_in h (VObj l) = id_of o.
Proof. intros Hl. unfold id_in, id_of. simpl. rewrite Hl. reflexivity. Qed.

(** The effect of the body of [linkAssociations] on a list of records. *)
Lemma link_records_some mdl rs s out s' :
  let mp := convertModelName pl sails (identity mdl) true in
  mapM (fun record =>
          links <- record_links sails mp mdl record ;;
          (if Nat.ltb 0 (List.length links)
           then setM record "links" (VDict links) else ret tt) ;;;
          ret record) rs s = Some (out, s') ->
  out = rs /\ st_json s' = st_json s /\ st_next s' = st_next s /\
  forall l, st_heap s' l =
    if (has_collection mdl && existsb (is_obj_at l) rs)%bool
    then option_map (linkify (blueprints_prefix sails) mp (associations mdl))
                    (st_heap s l)
    else st_heap s l.
Proof.
  intros mp. revert s out.
  induction rs as [|v rs IH]; intros s out H; simpl in H.
  - apply ret_some in H. destruct H as [-> ->]. repeat split; auto.
    intros l. simpl. destruct (has_collection mdl); reflexivity.
  - stepn H y s1 Ef. stepn Ef L s2 Erl. stepn Ef u s3 E1.
    apply record_links_some in Erl. destruct Erl as [-> ->].
    apply ret_some in Ef. destruct Ef as [-> ->].
    stepn H ys s4 E. apply ret_some in H. destruct H as [-> ->].
    apply IH in E. destruct E as (-> & Hj & Hn & Hh).
    rewrite links_of_length in E1. fold (has_collection mdl) in E1.
    destruct (has_collection mdl) eqn:Hc.
    + apply setM_some in E1.
      destruct E1 as [(l0 & o & -> & Hl0 & ->) | (-> & Hu & Hnl & Hno)].
      * repeat split; auto. intros l. rewrite Hh. simpl.
        rewrite (id_in_obj _ _ _ Hl0).
        destruct (N.eqb l l0) eqn:El; simpl.
        -- apply N.eqb_eq in El. subst l.
           rewrite heap_upd_eq, Hl0.
           destruct (existsb (is_obj_at l0) rs); simpl; [|reflexivity].
           fold (linkify (blueprints_prefix sails) mp (associations mdl) o).
           rewrite linkify_idem. reflexivity.
        -- rewrite heap_upd_neq; [reflexivity|].
           intros ->. rewrite N.eqb_refl in El. discriminate.
      * repeat split; auto. intros l. rewrite Hh. simpl.
        assert (is_obj_at l v = false) as ->.
        { destruct v; try reflexivity. exfalso. eapply Hno. reflexivity. }
        reflexivity.
    + apply ret_some in E1. destruct E1 as [_ ->].
      repeat split; auto.
Qed.

End Links.

Lemma existsb_is_obj_at_In l vs : In (VObj l) vs -> existsb (is_obj_at l) vs = true.
Proof.
  intros Hin. apply existsb_exists. exists (VObj l). split; auto.
  simpl. apply N.eqb_refl.
Qed.

Lemma existsb_collection_alias a assocs :
  In a assocs -> type a = "collection" ->
  existsb (is_collection_alias (alias a)) assocs = true.
Proof.
  intros Hin Ht. apply existsb_exists. exists a. split; auto.
  unfold is_collection_alias. rewrite Ht, !String.eqb_refl. reflexivity.
Qed.

Lemma existsb_collection_alias_inv k assocs :
  existsb (is_collection_alias k) assocs = true ->
  exists a, In a assocs /\ type a = "collection" /\ alias a = k.
Proof.
  intros H. apply existsb_exists in H. destruct H as (a & Hin & H).
  unfold is_collection_alias in H. apply andb_prop in H.
  destruct H as [H1 H2]. apply String.eqb_eq in H1, H2. eauto.
Qed.

(** C7: [linkAssociations(model, records)] returns a sequence (the given
    array, or the single record wrapped in one); every object record in
    it gets a [links] map with, for each collection association of the
    model, the entry [alias -> prefix/modelPlural/id/alias] and nothing
    else; when the model has no collection association no record is
    touched.  Nothing else in the heap or the document changes. *)
Theorem linkAssociations_spec pl sails mdl records s out s' :
  linkAssociations pl sails mdl records s = Some (out, s') ->
  let mp := convertModelName pl sails (identity mdl) true in
  out = (match records with VArr vs => vs | _ => [records] end) /\
  st_json s' = st_json s /\ st_next s' = st_next s /\
  (forall l, existsb (is_obj_at l) out = false -> st_heap s' l = st_heap s l) /\
  (has_collection mdl = false -> forall l, st_heap s' l = st_heap s l) /\
  (forall l o, In (VObj l) out -> st_heap s l = Some o ->
     has_collection mdl = true ->
     exists L, st_heap s' l = Some (assoc_set "links" (VDict L) o) /\
       (forall a, In a (associations mdl) -> type a = "collection" ->
          assoc_get (alias a) L =
          Some (VStr (url [blueprints_prefix sails; "/"; mp; "/";
                           to_js_string (id_of o); "/"; alias a]))) /\
       (forall k v, assoc_get k L = Some v ->
          exists a, In a (associations mdl) /\ type a = "collection" /\
                    alias a = k)).
Proof.
  intros H mp. unfold linkAssociations in H.
  apply link_records_some in H. fold mp in H.
  destruct H as (Hout & Hj & Hn & Hh). rewrite <- Hout in Hh.
  repeat split; auto.
  - intros l Hl. rewrite Hh, Hl. destruct (has_collection mdl); reflexivity.
  - intros Hc l. rewrite Hh, Hc. reflexivity.
  - intros l o Hin Hl Hc.
    exists (links_of (blueprints_prefix sails) mp (associations mdl) (id_of o)).
    split; [|split].
    + rewrite Hh, Hc, (existsb_is_obj_at_In _ _ Hin), Hl. reflexivity.
    + intros a Ha Ht. rewrite links_of_get, (existsb_collection_alias _ _ Ha Ht).
      reflexivity.
    + intros k v Hk. rewrite links_of_get in Hk.
      destruct (existsb (is_collection_alias k) (associations mdl)) eqn:E;
        [|discriminate].
      apply existsb_collection_alias_inv. exact E.
Qed.

(** Instance: the collection association [comments] of a [post] record
    with id 10 yields the link [/api/posts/10/comments]. *)
Lemma linkAssociations_spec_witness :
  exists out s',
    linkAssociations PluralizeLib.lib ex_sails postM (VObj 2%N) ex_s0 = Some (out, s') /\
    let mp := convertModelName PluralizeLib.lib ex_sails (identity postM) true in
    out = [VObj 2%N] /\
    st_json s' = st_json ex_s0 /\ st_next s' = st_next ex_s0 /\
    (forall l, existsb (is_obj_at l) out = false -> st_heap s' l = st_heap ex_s0 l) /\
    (has_collection postM = false -> forall l, st_heap s' l = st_heap ex_s0 l) /\
    (forall l o, In (VObj l) out -> st_heap ex_s0 l = Some o ->
       has_collection postM = true ->
       exists L, st_heap s' l = Some (assoc_set "links" (VDict L) o) /\
         (forall a, In a (associations postM) -> type a = "collection" ->
            assoc_get (alias a) L =
            Some (VStr (url [blueprints_prefix ex_sails; "/"; mp; "/";
                             to_js_string (id_of o); "/"; alias a]))) /\
         (forall k v, assoc_get k L = Some v ->
            exists a, In a (associations postM) /\ type a = "collection" /\
                      alias a = k)).
Proof.
  destruct (linkAssociations PluralizeLib.lib ex_sails postM (VObj 2%N) ex_s0)
    as [[out s']|] eqn:E.
  - exists out, s'. split; [reflexivity|].
    exact (linkAssociations_spec _ _ _ _ _ _ _ E).
  - vm_compute in E. discriminate.
Defined.

(** ** Case conversion *)

Lemma is_upper_bounds c :
  is_upper c = true <-> 65 <= nat_of_ascii c <= 90.
Proof.
  unfold is_upper. rewrite andb_true_iff, !Nat.leb_le. tauto.
Qed.

Lemma is_lower_bounds c :
  is_lower c = true <-> 97 <= nat_of_ascii c <= 122.
Proof.
  unfold is_lower. rewrite andb_true_iff, !Nat.leb_le. tauto.
Qed.

Lemma is_digit_bounds c :
  is_digit c = true <-> 48 <= nat_of_ascii c <= 57.
Proof.
  unfold is_digit. rewrite andb_true_iff, !Nat.leb_le. tauto.
Qed.

Lemma not_true_false b : ~ b = true -> b = false.
Proof. destruct b; tauto. Qed.

Ltac char_bounds :=
  repeat match goal with
  | H : is_upper _ = true |- _ => apply is_upper_bounds in H
  | H : is_lower _ = true |- _ => apply is_lower_bounds in H
  | H : is_digit _ = true |- _ => apply is_digit_bounds in H
  | |- is_upper _ = false => apply not_true_false; rewrite is_upper_bounds
  | |- is_lower _ = false => apply not_true_false; rewrite is_lower_bounds
  | |- is_digit _ = false => apply not_true_false; rewrite is_digit_bounds
  | |- is_upper _ = true => apply is_upper_bounds
  | |- is_lower _ = true => apply is_lower_bounds
  | |- is_digit _ = true => apply is_digit_bounds
  end.

Lemma lower_not_upper c : is_lower c = true -> is_upper c = false.
Proof. intros H. char_bounds. lia. Qed.

Lemma digit_not_upper c : is_digit c = true -> is_upper c = false.
Proof. intros H. char_bounds. lia. Qed.

Lemma digit_not_lower c : is_digit c = true -> is_lower c = false.
Proof. intros H. char_bounds. lia. Qed.

Lemma lower_char_nat c :
  nat_of_ascii (lower_char c) =
  if is_upper c then nat_of_ascii c + 32 else nat_of_ascii c.
Proof.
  unfold lower_char. destruct (is_upper c) eqn:E; auto.
  char_bounds. apply nat_ascii_embedding. lia.
Qed.

Lemma lower_char_not_upper c : is_upper c = false -> lower_char c = c.
Proof. unfold lower_char. intros ->. reflexivity. Qed.

Lemma lower_char_letter c : is_letter c = true -> is_lower (lower_char c) = true.
Proof.
  unfold is_letter. intros H. apply orb_true_iff in H.
  apply is_lower_bounds. rewrite lower_char_nat.
  destruct H as [H|H].
  - rewrite H. char_bounds. lia.
  - rewrite (lower_not_upper c H). char_bounds. lia.
Qed.

Lemma lower_char_digit c : is_digit c = true -> lower_char c = c.
Proof. intros H. apply lower_char_not_upper, digit_not_upper, H. Qed.

Lemma lower_char_idem c : lower_char (lower_char c) = lower_char c.
Proof.
  destruct (is_upper c) eqn:E.
  - apply lower_char_not_upper, not_true_false.
    rewrite is_upper_bounds, lower_char_nat, E.
    apply is_upper_bounds in E. lia.
  - rewrite (lower_char_not_upper c E). apply lower_char_not_upper, E.
Qed.

Lemma lower_upper_char c : lower_char (upper_char c) = lower_char c.
Proof.
  unfold upper_char. destruct (is_lower c) eqn:E; auto.
  rewrite (lower_char_not_upper c (lower_not_upper c E)).
  pose proof E as B. char_bounds.
  unfold lower_char.
  assert (Hn : nat_of_ascii (ascii_of_nat (nat_of_ascii c - 32)) = nat_of_ascii c - 32)
    by (apply nat_ascii_embedding; lia).
  assert (is_upper (ascii_of_nat (nat_of_ascii c - 32)) = true) as ->
    by (char_bounds; rewrite Hn; lia).
  rewrite Hn. replace (nat_of_ascii c - 32 + 32) with (nat_of_ascii c) by lia.
  apply ascii_nat_embedding.
Qed.

Lemma map_lower_idem w : map lower_char (map lower_char w) = map lower_char w.
Proof.
  rewrite map_map. apply map_ext. apply lower_char_idem.
Qed.

Lemma In_removelast {A} (x : A) l : In x (removelast l) -> In x l.
Proof.
  induction l as [|a l IH]; simpl; auto.
  destruct l as [|b l]; simpl in *; [tauto|].
  intros [H|H]; auto.
Qed.

Lemma In_last {A} (d : A) l : In (last l d) (d :: l).
Proof.
  induction l as [|a l IH]; simpl; auto.
  destruct l as [|b l]; simpl; auto.
  simpl in IH. destruct IH as [H|H]; auto.
Qed.

Lemma emit_ok cur rest :
  (cur <> [] -> word_ok cur) -> Forall word_ok rest -> Forall word_ok (emit cur rest).
Proof.
  destruct cur as [|c cur]; simpl; auto. intros H1 H2.
  constructor; auto. apply H1. discriminate.
Qed.

Lemma letter_of_upper c : is_upper c = true -> is_letter c = true.
Proof. unfold is_letter. intros ->. reflexivity. Qed.

Lemma letter_of_lower c : is_lower c = true -> is_letter c = true.
Proof. unfold is_letter. intros ->. apply orb_true_r. Qed.

Lemma words_go_ok l : forall mode cur,
  mode_inv mode cur -> Forall word_ok (words_go mode cur l).
Proof.
  induction l as [|c l IH]; intros mode cur Hinv; simpl.
  - apply emit_ok; [|constructor].
    intros Hne. split; auto. destruct mode; simpl in Hinv; auto; congruence.
  - assert (Hemit : forall rest, Forall word_ok rest ->
                    Forall word_ok (emit cur rest)).
    { intros rest Hr. apply emit_ok; auto. intros Hne. split; auto.
      destruct mode; simpl in Hinv; auto; congruence. }
    destruct (is_upper c) eqn:Hu.
    + destruct mode; try (apply Hemit, IH; simpl; constructor;
                          [apply letter_of_upper; auto | constructor]).
      apply IH. simpl in *. apply Forall_app. split; auto.
      constructor; [apply letter_of_upper; auto | constructor].
    + destruct (is_lower c) eqn:Hl.
      * destruct mode; try (apply Hemit, IH; simpl; constructor;
                            [apply letter_of_lower; auto | constructor]).
        -- simpl in Hinv.
           destruct cur as [|u [|u' r]].
           ++ simpl. apply IH. simpl.
              repeat constructor; apply letter_of_lower; auto.
           ++ apply IH. simpl. inversion Hinv; subst.
              constructor; auto. constructor; [apply letter_of_lower; auto|constructor].
           ++ apply emit_ok.
              ** intros Hne. split; auto. left.
                 apply Forall_forall. intros x Hx.
                 rewrite Forall_forall in Hinv. apply Hinv, In_removelast, Hx.
              ** apply IH. unfold mode_inv. constructor.
                 --- destruct (In_last c (u :: u' :: r)) as [<-|Hx];
                       [apply letter_of_lower; auto|].
                     rewrite Forall_forall in Hinv. apply Hinv, Hx.
                 --- constructor; [apply letter_of_lower; auto | constructor].
        -- apply IH. simpl in *. apply Forall_app. split; auto.
           constructor; [apply letter_of_lower; auto | constructor].
      * destruct (is_digit c) eqn:Hd.
        -- destruct mode; try (apply Hemit, IH; simpl; constructor; auto).
           apply IH. simpl in *. apply Forall_app. split; auto.
        -- apply Hemit, IH. reflexivity.
Qed.

Lemma words_ok s : Forall word_ok (words s).
Proof. apply words_go_ok. reflexivity. Qed.

Lemma lword_of_word w : word_ok w -> lword_ok (map lower_char w).
Proof.
  intros [Hne [H|H]]; split.
  - destruct w; simpl; congruence.
  - left. apply Forall_map. eapply Forall_impl; [|exact H].
    intros c Hc. apply lower_char_letter, Hc.
  - destruct w; simpl; congruence.
  - right. apply Forall_map. eapply Forall_impl; [|exact H].
    intros c Hc. rewrite lower_char_digit; auto.
Qed.

Lemma words_go_lower_run w : forall cur l,
  Forall (fun c => is_lower c = true) w ->
  words_go WLower cur (w ++ l) = words_go WLower (cur ++ w) l.
Proof.
  induction w as [|c w IH]; intros cur l H; simpl.
  - rewrite app_nil_r. reflexivity.
  - inversion H; subst.
    rewrite (lower_not_upper c H2), H2, IH by auto.
    rewrite <- app_assoc. reflexivity.
Qed.

Lemma words_go_digit_run w : forall cur l,
  Forall (fun c => is_digit c = true) w ->
  words_go WDigit cur (w ++ l) = words_go WDigit (cur ++ w) l.
Proof.
  induction w as [|c w IH]; intros cur l H; simpl.
  - rewrite app_nil_r. reflexivity.
  - inversion H; subst.
    rewrite (digit_not_upper c H2), (digit_not_lower c H2), H2, IH by auto.
    rewrite <- app_assoc. reflexivity.
Qed.

Lemma words_go_dash mode cur l :
  words_go mode cur ("-"%char :: l) = emit cur (words_go WNone [] l).
Proof. reflexivity. Qed.

Lemma join_dash_cons w ws :
  join_dash (w :: ws) =
  w ++ match ws with [] => [] | _ => "-"%char :: join_dash ws end.
Proof. destruct ws; simpl; [rewrite app_nil_r|]; reflexivity. Qed.

Lemma words_go_join ws :
  Forall lword_ok ws -> words_go WNone [] (join_dash ws) = ws.
Proof.
  induction ws as [|w ws IH]; intros H; [reflexivity|].
  inversion H as [|? ? [Hne Hw] Hws]; subst.
  rewrite join_dash_cons.
  destruct w as [|c w']; [congruence|].
  destruct Hw as [Hw|Hw]; inversion Hw; subst.
  - simpl. rewrite (lower_not_upper c H2), H2.
    rewrite words_go_lower_run by auto.
    destruct ws as [|w2 ws2]; [reflexivity|].
    rewrite words_go_dash, (IH Hws). reflexivity.
  - simpl. rewrite (digit_not_upper c H2), (digit_not_lower c H2), H2.
    rewrite words_go_digit_run by auto.
    destruct ws as [|w2 ws2]; [reflexivity|].
    rewrite words_go_dash, (IH Hws). reflexivity.
Qed.

Lemma list_ascii_of_string_append a b :
  list_ascii_of_string (String.append a b) =
  list_ascii_of_string a ++ list_ascii_of_string b.
Proof. induction a as [|c a IH]; simpl; [reflexivity | rewrite IH; reflexivity]. Qed.

Lemma list_ascii_of_concat_dash ws :
  list_ascii_of_string (String.concat "-" (map string_of_list_ascii ws)) =
  join_dash ws.
Proof.
  induction ws as [|w ws IH]; [reflexivity|].
  rewrite join_dash_cons.
  destruct ws as [|w2 ws2].
  - simpl. rewrite list_ascii_of_string_of_list_ascii, app_nil_r. reflexivity.
  - change (String.concat "-" (map string_of_list_ascii (w :: w2 :: ws2))) with
      (String.append (string_of_list_ascii w)
         (String.append "-" (String.concat "-" (map string_of_list_ascii (w2 :: ws2))))).
    rewrite !list_ascii_of_string_append, list_ascii_of_string_of_list_ascii, IH.
    reflexivity.
Qed.

(** [_.kebabCase] keeps the words and lowers them. *)
Lemma words_kebabCase s : words (kebabCase s) = map (map lower_char) (words s).
Proof.
  unfold words at 1, kebabCase.
  rewrite <- (map_map (map lower_char) string_of_list_ascii).
  rewrite list_ascii_of_concat_dash.
  apply words_go_join. apply Forall_map.
  eapply Forall_impl; [|apply words_ok]. apply lword_of_word.
Qed.

Lemma map_lower_camel_word w : map lower_char (camel_word w) = map lower_char w.
Proof.
  unfold camel_word. rewrite <- (map_lower_idem w) at 2.
  destruct (map lower_char w) as [|c r]; [reflexivity|].
  simpl. rewrite lower_upper_char. reflexivity.
Qed.

(** [_.camelCase(s).toLowerCase()] is the lowered words run together. *)
Lemma toLowerCase_camelCase s :
  toLowerCase (camelCase s) =
  string_of_list_ascii (concat (map (map lower_char) (words s))).
Proof.
  unfold camelCase. destruct (words s) as [|w ws]; [reflexivity|].
  unfold toLowerCase. rewrite list_ascii_of_string_of_list_ascii.
  simpl. f_equal. rewrite map_app, map_lower_idem. f_equal.
  rewrite concat_map, map_map. f_equal. apply map_ext.
  apply map_lower_camel_word.
Qed.

Lemma toLowerCase_camelCase_kebabCase s :
  toLowerCase (camelCase (kebabCase s)) = toLowerCase (camelCase s).
Proof.
  rewrite !toLowerCase_camelCase, words_kebabCase, map_map.
  f_equal. f_equal. apply map_ext. apply map_lower_idem.
Qed.

(** C6: without a [convertModelName] hook the document key is the
    kebab-case identity, pluralized when [convertToPlural] holds (the
    default of the one-argument call).  For [blogPost] this gives
    [blog-posts], and [blog-post] without pluralization, given that
    [pluralize] turns [blog-post] into [blog-posts]. *)
Theorem convertModelName_default pl sails m :
  ember_convertModelName sails = None ->
  plural pl "blog-post" = "blog-posts" ->
  convertModelName pl sails m true = plural pl (kebabCase m) /\
  convertModelName pl sails m false = kebabCase m /\
  convertModelName pl sails "blogPost" true = "blog-posts" /\
  convertModelName pl sails "blogPost" false = "blog-post".
Proof.
  intros Hnone Hpl. unfold convertModelName, pluralize. rewrite Hnone.
  assert (Hk : kebabCase "blogPost" = "blog-post") by reflexivity.
  rewrite Hk, Hpl. repeat split.
Qed.

(** Instance: with the [pluralize] library and no hooks, [userProfile]
    gives [user-profiles] and [user-profile]. *)
Lemma convertModelName_default_witness :
  ember_convertModelName (plain_sails no_models "/api") = None /\
  plural PluralizeLib.lib "blog-post" = "blog-posts" /\
  convertModelName PluralizeLib.lib (plain_sails no_models "/api") "userProfile" true =
    plural PluralizeLib.lib (kebabCase "userProfile") /\
  convertModelName PluralizeLib.lib (plain_sails no_models "/api") "userProfile" false =
    kebabCase "userProfile" /\
  convertModelName PluralizeLib.lib (plain_sails no_models "/api") "blogPost" true =
    "blog-posts" /\
  convertModelName PluralizeLib.lib (plain_sails no_models "/api") "blogPost" false =
    "blog-post".
Proof.
  split; [reflexivity|]. split; [vm_compute; reflexivity|].
  apply convertModelName_default; [reflexivity | vm_compute; reflexivity].
Defined.

(** C5 fails: the identity [he] is keyed [they] ([pluralize]'s pronoun
    table), and [they] goes back to [she], the later row of the table,
    while the singular of [he] is [he]. *)
Lemma round_trip_counterexample :
  let sl := plain_sails no_models "/api" in
  convertModelName PluralizeLib.lib sl "he" true = "they" /\
  reverseModelName PluralizeLib.lib sl
    (convertModelName PluralizeLib.lib sl "he" true) true = "she" /\
  singular PluralizeLib.lib (toLowerCase (camelCase "he")) = "he".
Proof. vm_compute. repeat split. Qed.

(** C5, corrected: without hooks, [reverseModelName] undoes the case
    conversion of [convertModelName] exactly: the key of [m] goes back
    to the camelCase-then-lowercased form of [m].  With inflection the
    round trip is [singular] of that normalization applied to the plural
    key, which is the singular canonical form of [m] whenever [plural]
    commutes with the normalization and [singular] undoes [plural] on
    the canonical form. *)
Theorem convert_reverse_round_trip pl sails m :
  ember_convertModelName sails = None ->
  ember_reverseModelName sails = None ->
  reverseModelName pl sails (convertModelName pl sails m false) false =
    toLowerCase (camelCase m) /\
  reverseModelName pl sails (convertModelName pl sails m true) true =
    singular pl (toLowerCase (camelCase (plural pl (kebabCase m)))) /\
  (toLowerCase (camelCase (plural pl (kebabCase m))) =
     plural pl (toLowerCase (camelCase m)) ->
   singular pl (plural pl (toLowerCase (camelCase m))) =
     singular pl (toLowerCase (camelCase m)) ->
   reverseModelName pl sails (convertModelName pl sails m true) true =
     singular pl (toLowerCase (camelCase m))).
Proof.
  intros Hc Hr. unfold reverseModelName, convertModelName, pluralize.
  rewrite Hc, Hr. split; [|split].
  - apply toLowerCase_camelCase_kebabCase.
  - reflexivity.
  - intros H1 H2. rewrite H1. exact H2.
Qed.

(** Instance: [blogPost] without hooks: [blog-posts] goes back to
    [blogpost]. *)
Lemma convert_reverse_round_trip_witness :
  let sl := plain_sails no_models "/api" in
  ember_convertModelName sl = None /\ ember_reverseModelName sl = None /\
  reverseModelName PluralizeLib.lib sl (convertModelName PluralizeLib.lib sl "blogPost" false) false =
    toLowerCase (camelCase "blogPost") /\
  reverseModelName PluralizeLib.lib sl (convertModelName PluralizeLib.lib sl "blogPost" true) true =
    singular PluralizeLib.lib
      (toLowerCase (camelCase (plural PluralizeLib.lib (kebabCase "blogPost")))) /\
  (toLowerCase (camelCase (plural PluralizeLib.lib (kebabCase "blogPost"))) =
     plural PluralizeLib.lib (toLowerCase (camelCase "blogPost")) ->
   singular PluralizeLib.lib (plural PluralizeLib.lib (toLowerCase (camelCase "blogPost"))) =
     singular PluralizeLib.lib (toLowerCase (camelCase "blogPost")) ->
   reverseModelName PluralizeLib.lib sl (convertModelName PluralizeLib.lib sl "blogPost" true) true =
     singular PluralizeLib.lib (toLowerCase (camelCase "blogPost"))).
Proof.
  intros sl. split; [reflexivity|]. split; [reflexivity|].
  apply convert_reverse_round_trip; reflexivity.
Defined.

(** ** Frames and closed states *)

Lemma links_step_refl o : links_step o o.
Proof. left. reflexivity. Qed.

Lemma links_step_trans o1 o2 o3 :
  links_step o1 o2 -> links_step o2 o3 -> links_step o1 o3.
Proof.
  intros [->|(L1 & H1 & ->)] [->|(L2 & H2 & ->)].
  - left. reflexivity.
  - right. eauto.
  - right. eauto.
  - right. exists L2. split; auto. apply assoc_set_set.
Qed.

Lemma opt_links_step_refl x : opt_links_step x x.
Proof. destruct x; simpl; auto using links_step_refl. Qed.

Lemma opt_links_step_trans x y z :
  opt_links_step x y -> opt_links_step y z -> opt_links_step x z.
Proof.
  destruct x, y, z; simpl; try tauto. apply links_step_trans.
Qed.

Lemma links_step_get o o' k : links_step o o' -> k <> "links" ->
  assoc_get k o' = assoc_get k o.
Proof.
  intros [->|(L & _ & ->)] Hk; auto.
  apply assoc_get_set_neq. congruence.
Qed.

Lemma assoc_get_forallb {A} (P : A -> bool) d k x :
  forallb (fun kv => P (snd kv)) d = true -> assoc_get k d = Some x -> P x = true.
Proof.
  induction d as [|[k' v] d IH]; simpl; [discriminate|].
  intros H. apply andb_prop in H. destruct H as [H1 H2].
  destruct (String.eqb k k'); [intros E; inversion E; subst; auto | auto].
Qed.

Lemma forallb_assoc_set {A} (P : A -> bool) d k x :
  forallb (fun kv => P (snd kv)) d = true -> P x = true ->
  forallb (fun kv => P (snd kv)) (assoc_set k x d) = true.
Proof.
  induction d as [|[k' v] d IH]; simpl; intros H Hx.
  - rewrite Hx. reflexivity.
  - apply andb_prop in H. destruct H as [H1 H2].
    destruct (String.eqb k k'); simpl; rewrite ?Hx, ?H1, ?H2, ?IH; auto.
Qed.

Lemma forallb_assoc_del {A} (P : A -> bool) d k :
  forallb (fun kv => P (snd kv)) d = true ->
  forallb (fun kv => P (snd kv)) (assoc_del k d) = true.
Proof.
  induction d as [|[k' v] d IH]; simpl; intros H; auto.
  apply andb_prop in H. destruct H as [H1 H2].
  destruct (String.eqb k k'); simpl; rewrite ?H1, ?IH; auto.
Qed.

Lemma get_prop_below n h v k x :
  closed_heap n h -> below n v = true -> get_prop h v k = Some x -> below n x = true.
Proof.
  intros Hh Hv. destruct v; simpl; intros E; inversion E; subst; auto.
  - destruct (String.eqb k "length"); reflexivity.
  - destruct (String.eqb k "length"); reflexivity.
  - destruct (h l) as [o|] eqn:Hl; inversion E; subst.
    destruct (assoc_get k o) eqn:Hk; auto.
    eapply assoc_get_forallb; [apply (Hh l o Hl) | exact Hk].
  - destruct (assoc_get k d) eqn:Hk; auto.
    eapply assoc_get_forallb; [exact Hv | exact Hk].
Qed.

Lemma lodash_values_below n h v :
  closed_heap n h -> below n v = true -> forallb (below n) (lodash_values h v) = true.
Proof.
  intros Hh Hv. destruct v; simpl in *; auto.
  - apply forallb_forall. intros x Hx. apply in_map_iff in Hx.
    destruct Hx as (c & <- & _). reflexivity.
  - destruct (h l) as [o|] eqn:Hl; auto.
    specialize (Hh l o Hl). unfold obj_below in Hh.
    apply forallb_forall. intros x Hx. apply in_map_iff in Hx.
    destruct Hx as (kv & <- & Hin). rewrite forallb_forall in Hh. apply Hh, Hin.
  - apply forallb_forall. intros x Hx. apply in_map_iff in Hx.
    destruct Hx as (kv & <- & Hin). rewrite forallb_forall in Hv. apply Hv, Hin.
Qed.

Lemma closed_heap_upd n h l o :
  closed_heap n h -> obj_below n o = true -> closed_heap n (heap_upd h l o).
Proof.
  intros Hh Ho l' o'. unfold heap_upd. destruct (N.eqb l l').
  - intros E. inversion E. subst. exact Ho.
  - apply Hh.
Qed.

Lemma closed_json_set n d j k b :
  closed_json n d j -> (k <> d -> forallb (below n) b = true) ->
  closed_json n d (assoc_set k b j).
Proof.
  unfold closed_json. induction j as [|[k' b'] j IH]; simpl; intros Hj Hb.
  - constructor; auto.
  - inversion Hj; subst. destruct (String.eqb k k') eqn:E.
    + apply String.eqb_eq in E. subst k'. constructor; auto.
    + constructor; auto.
Qed.

Lemma closed_json_del n d j k :
  closed_json n d j -> closed_json n d (assoc_del k j).
Proof.
  unfold closed_json. induction j as [|[k' b'] j IH]; simpl; intros Hj; auto.
  inversion Hj; subst. destruct (String.eqb k k'); auto.
Qed.

Lemma closed_json_get n d j k b :
  closed_json n d j -> k <> d -> assoc_get k j = Some b -> forallb (below n) b = true.
Proof.
  unfold closed_json. induction j as [|[k' b'] j IH]; simpl; intros Hj Hk; [discriminate|].
  inversion Hj; subst. destruct (String.eqb k k') eqn:E.
  - apply String.eqb_eq in E. subst k'. intros E'. inversion E'. subst. auto.
  - auto.
Qed.

Lemma all_strings_below n L : all_strings L -> forallb (fun kv => below n (snd kv)) L = true.
Proof.
  unfold all_strings. induction 1 as [|[k v] L (x & Hx) _ IH]; simpl; auto.
  simpl in Hx. subst v. exact IH.
Qed.

Lemma not_in_below_existsb n l vs :
  forallb (below n) vs = true -> (n <= l)%N -> existsb (is_obj_at l) vs = false.
Proof.
  induction vs as [|v vs IH]; simpl; auto. intros H Hl.
  apply andb_prop in H. destruct H as [H1 H2]. rewrite IH; auto.
  destruct v; simpl in *; auto. rewrite orb_false_r.
  apply N.ltb_lt in H1. apply N.eqb_neq. lia.
Qed.

Lemma eff_refl n0 d c ks s : eff n0 d c ks s s.
Proof.
  intros Hc. repeat split; auto.
  - intros l _. apply opt_links_step_refl.
  - intros o Ho. exists o. auto.
  - apply Hc.
  - apply Hc.
Qed.

Lemma eff_trans n0 d c ks1 ks2 s1 s2 s3 :
  eff n0 d c ks1 s1 s2 -> eff n0 d c ks2 s2 s3 -> eff n0 d c (ks1 ++ ks2) s1 s3.
Proof.
  intros E1 E2 Hc.
  destruct (E1 Hc) as (N1 & F1 & G1 & C1 & Hc2).
  destruct (E2 Hc2) as (N2 & F2 & G2 & C2 & Hc3).
  repeat split.
  - congruence.
  - intros l Hl. eapply opt_links_step_trans; eauto.
  - intros l Hl Hne. rewrite G2, G1; auto.
  - intros o Ho. destruct (C1 o Ho) as (o2 & Ho2 & K1).
    destruct (C2 o2 Ho2) as (o3 & Ho3 & K2).
    exists o3. split; auto. intros k Hk.
    rewrite K2, K1; auto; intros Hin; apply Hk, in_or_app; auto.
  - apply Hc3.
  - apply Hc3.
Qed.

Lemma eff_weaken n0 d c ks ks' s s' :
  incl ks ks' -> eff n0 d c ks s s' -> eff n0 d c ks' s s'.
Proof.
  intros Hi E Hc. destruct (E Hc) as (N1 & F1 & G1 & C1 & Hc2).
  repeat split; auto; try apply Hc2.
  intros o Ho. destruct (C1 o Ho) as (o' & Ho' & K).
  exists o'. split; auto.
Qed.

Lemma eff_same n0 d c ks s s' : s' = s -> eff n0 d c ks s s'.
Proof. intros ->. apply eff_refl. Qed.

(** Setting or deleting a field of the clone. *)
Lemma eff_set_clone n0 d c k x s o :
  st_heap s c = Some o -> (n0 <= c)%N ->
  (closed n0 d s -> below n0 x = true) ->
  eff n0 d c [k] s (with_heap s (heap_upd (st_heap s) c (assoc_set k x o))).
Proof.
  intros Hc Hn Hx Hcl. simpl. repeat split; auto.
  - intros l Hl. rewrite heap_upd_neq by (intros ->; lia). apply opt_links_step_refl.
  - intros l _ Hne. apply heap_upd_neq. congruence.
  - intros o0 Ho0. rewrite Hc in Ho0. inversion Ho0; subst.
    exists (assoc_set k x o0). rewrite heap_upd_eq. split; auto.
    intros k' Hk'. apply assoc_get_set_neq. intros ->. apply Hk'. left. reflexivity.
  - apply closed_heap_upd; [apply Hcl|]. apply forallb_assoc_set; auto.
    apply (proj1 Hcl c o Hc).
  - apply Hcl.
Qed.

Lemma eff_del_clone n0 d c k s o :
  st_heap s c = Some o -> (n0 <= c)%N ->
  eff n0 d c [k] s (with_heap s (heap_upd (st_heap s) c (assoc_del k o))).
Proof.
  intros Hc Hn Hcl. simpl. repeat split; auto.
  - intros l Hl. rewrite heap_upd_neq by (intros ->; lia). apply opt_links_step_refl.
  - intros l _ Hne. apply heap_upd_neq. congruence.
  - intros o0 Ho0. rewrite Hc in Ho0. inversion Ho0; subst.
    exists (assoc_del k o0). rewrite heap_upd_eq. split; auto.
    intros k' Hk'. apply assoc_get_del_neq. intros ->. apply Hk'. left. reflexivity.
  - apply closed_heap_upd; [apply Hcl|]. apply forallb_assoc_del.
    apply (proj1 Hcl c o Hc).
  - apply Hcl.
Qed.

Lemma eff_json n0 d c ks s j :
  (closed n0 d s -> closed_json n0 d j) -> eff n0 d c ks s (with_json s j).
Proof.
  intros Hj Hcl. simpl. repeat split; auto.
  - intros l _. apply opt_links_step_refl.
  - intros o Ho. exists o. auto.
  - apply Hcl.
Qed.

Lemma linkify_below n prefix mp assocs o :
  obj_below n o = true -> obj_below n (linkify prefix mp assocs o) = true.
Proof.
  intros Ho. unfold linkify, obj_below. apply forallb_assoc_set; auto.
  simpl. apply all_strings_below, links_of_strings.
Qed.

Section Effects.

Variable pl : Pluralize.
Variable sails : Sails.

Lemma linkAssociations_heap mdl records s out s' :
  linkAssociations pl sails mdl records s = Some (out, s') ->
  out = (match records with VArr vs => vs | _ => [records] end) /\
  st_json s' = st_json s /\ st_next s' = st_next s /\
  forall l, st_heap s' l =
    if (has_collection mdl && existsb (is_obj_at l) out)%bool
    then option_map (linkify (blueprints_prefix sails)
                       (convertModelName pl sails (identity mdl) true)
                       (associations mdl)) (st_heap s l)
    else st_heap s l.
Proof.
  intros H. unfold linkAssociations in H. apply link_records_some in H.
  destruct H as (Hout & Hj & Hn & Hh). rewrite <- Hout in Hh. auto.
Qed.

(** [linkAssociations] on values below [n0] leaves the clone alone. *)
Lemma linkAssociations_eff n0 d c mdl f s out s' :
  linkAssociations pl sails mdl f s = Some (out, s') ->
  (n0 <= c)%N ->
  (closed n0 d s -> below n0 f = true) ->
  eff n0 d c [] s s' /\ out = (match f with VArr vs => vs | _ => [f] end).
Proof.
  intros H Hc Hf. apply linkAssociations_heap in H.
  destruct H as (Hout & Hj & Hn & Hh). split; [|exact Hout].
  intros Hcl. specialize (Hf Hcl).
  assert (Hb : forallb (below n0) out = true).
  { rewrite Hout. destruct f; simpl in *; auto; rewrite Hf; reflexivity. }
  repeat split; auto.
  - intros l Hl. rewrite Hh.
    destruct (_ && _)%bool; [|apply opt_links_step_refl].
    destruct (st_heap s l); simpl; [|auto]. right. eexists. split; [|reflexivity].
    apply links_of_strings.
  - intros l Hl _. rewrite Hh, (not_in_below_existsb n0 l out Hb Hl), andb_false_r.
    reflexivity.
  - intros o Ho. exists o. split; [|auto].
    rewrite Hh, (not_in_below_existsb n0 c out Hb Hc), andb_false_r. exact Ho.
  - intros l o Hl. rewrite Hh in Hl.
    destruct (_ && _)%bool.
    + destruct (st_heap s l) as [o0|] eqn:E; simpl in Hl; inversion Hl; subst.
      apply linkify_below. apply (proj1 Hcl l o0 E).
    + apply (proj1 Hcl l o Hl).
  - rewrite Hj. apply Hcl.
Qed.

End Effects.

Lemma get_prop_obj_below n h l k x :
  closed_heap n h -> get_prop h (VObj l) k = Some x -> below n x = true.
Proof.
  intros Hh E. simpl in E. destruct (h l) as [o|] eqn:Hl; inversion E; subst.
  destruct (assoc_get k o) eqn:Hk; auto.
  eapply assoc_get_forallb; [apply (Hh l o Hl) | exact Hk].
Qed.

Lemma mapM_getM_some vs k s xs s' :
  mapM (fun v => getM v k) vs s = Some (xs, s') ->
  s' = s /\ Forall2 (fun v x => get_prop (st_heap s) v k = Some x) vs xs.
Proof.
  revert s xs. induction vs as [|v vs IH]; intros s xs H; simpl in H.
  - apply ret_some in H. destruct H as [-> ->]. auto.
  - stepn H x s1 E1. stepn H ys s2 E2. apply ret_some in H. destruct H as [-> ->].
    apply getM_some in E1. destruct E1 as [-> Hx].
    apply IH in E2. destruct E2 as [-> Hys]. auto.
Qed.

Lemma Forall2_get_below n h vs k xs :
  closed_heap n h -> forallb (below n) vs = true ->
  Forall2 (fun v x => get_prop h v k = Some x) vs xs -> forallb (below n) xs = true.
Proof.
  intros Hh Hvs H. induction H as [|v x vs xs Hx _ IH]; simpl in *; auto.
  apply andb_prop in Hvs. destruct Hvs as [H1 H2].
  rewrite (get_prop_below n h v k x Hh H1 Hx). apply IH, H2.
Qed.

Lemma getM_clone_below n0 d c k s x s' :
  getM (VObj c) k s = Some (x, s') -> closed n0 d s -> s' = s /\ below n0 x = true.
Proof.
  intros E Hcl. apply getM_some in E. destruct E as [-> E]. split; auto.
  eapply get_prop_obj_below; [apply Hcl | exact E].
Qed.

Lemma js_concat_below n b f :
  forallb (below n) b = true -> below n f = true ->
  forallb (below n) (js_concat b f) = true.
Proof.
  intros Hb Hf. unfold js_concat. destruct f; rewrite forallb_app, Hb; simpl in *;
    rewrite ?Hf; reflexivity.
Qed.

Lemma all_strings_set L k x :
  all_strings L -> all_strings (assoc_set k (VStr x) L).
Proof.
  unfold all_strings. induction 1 as [|[k' v] L Hv HL IH]; simpl.
  - constructor; [eexists; reflexivity | constructor].
  - destruct (String.eqb k k').
    + constructor; [eexists; reflexivity | exact HL].
    + constructor; auto.
Qed.

Lemma toJSON_some v s o s' :
  toJSON v s = Some (o, s') -> s' = s /\ exists l, v = VObj l /\ st_heap s l = Some o.
Proof.
  unfold toJSON. destruct v; try discriminate.
  destruct (st_heap s l) eqn:E; intros H; inversion H; subst; eauto.
Qed.

Lemma models_get_some sails key s m s' :
  models_get sails key s = Some (m, s') -> s' = s /\ models sails key = Some m.
Proof.
  unfold models_get. destruct (models sails key); intros H;
    [apply ret_some in H; destruct H as [-> ->]; auto | discriminate].
Qed.

Lemma via_key_some pl emi a s v s' :
  via_key pl emi a s = Some (v, s') ->
  s' = s /\ exists w, via a = Some w /\ v = singular pl w.
Proof.
  unfold via_key. intros H. stepn H v1 s1 E1.
  destruct (via a) as [w|] eqn:Hv; [|discriminate].
  apply ret_some in E1. destruct E1 as [-> ->].
  apply ret_some in H. destruct H as [-> ->].
  split; auto. exists w. split; auto. unfold pluralize.
  destruct (String.eqb _ _) eqn:E; auto. apply String.eqb_eq in E. auto.
Qed.

Lemma incl_three (k : string) : incl ([k] ++ [k] ++ [k]) [k].
Proof. intros x Hx. simpl in *. tauto. Qed.

Lemma incl_two (k : string) : incl ([k] ++ [k]) [k].
Proof. intros x Hx. simpl in *. tauto. Qed.

Ltac eff_chain :=
  match goal with
  | |- eff ?n0 ?d ?c ?ks ?s ?s => apply eff_refl
  end.

Section Blocks.

Variable pl : Pluralize.
Variable sails : Sails.
Variable n0 : loc.
Variable docId : string.

Lemma setM_clone_eff c k x s u s' :
  setM (VObj c) k x s = Some (u, s') -> (n0 <= c)%N ->
  (closed n0 docId s -> below n0 x = true) ->
  eff n0 docId c [k] s s'.
Proof.
  intros E Hc Hx. apply setM_some in E.
  destruct E as [(l & o & El & Hl & ->) | (_ & _ & _ & Hno)].
  - inversion El; subst l. apply eff_set_clone; auto.
  - exfalso. eapply Hno. reflexivity.
Qed.

Lemma delM_clone_eff c k s u s' :
  delM (VObj c) k s = Some (u, s') -> (n0 <= c)%N -> eff n0 docId c [k] s s'.
Proof.
  intros E Hc. apply delM_some in E.
  destruct E as [(l & o & El & Hl & ->) | (_ & _ & _ & Hno)].
  - inversion El; subst l. apply eff_del_clone; auto.
  - exfalso. eapply Hno. reflexivity.
Qed.

Lemma as_list_below n f :
  below n f = true ->
  forallb (below n) (match f with VArr vs => vs | _ => [f] end) = true.
Proof. destruct f; simpl; intros H; rewrite ?H; auto. Qed.

Lemma sideload_collection_eff sideload K am c a s u s' :
  sideload_collection pl sails sideload K am (VObj c) a s = Some (u, s') ->
  (n0 <= c)%N -> closed n0 docId s -> eff n0 docId c [alias a] s s'.
Proof.
  intros H Hc Hcl. unfold sideload_collection in H.
  stepn H go s1 E1.
  assert (s1 = s) as ->.
  { destruct (_ && _)%bool.
    - stepn E1 f s2 E2. apply getM_some in E2. destruct E2 as [-> _].
      destruct (truthy f).
      + stepn E1 len s3 E3. apply getM_some in E3. destruct E3 as [-> _].
        apply ret_some in E1. apply E1.
      + apply ret_some in E1. apply E1.
    - apply ret_some in E1. apply E1. }
  destruct go; [|apply ret_some in H; destruct H as [_ ->]; apply eff_refl].
  stepn H am' s2 E2.
  assert (s2 = s) as ->.
  { destruct am; [apply ret_some in E2; apply E2 | discriminate]. }
  stepn H bucket s3 E3. apply json_get_some in E3. destruct E3 as [-> Hb].
  stepn H f s4 E4. apply getM_some in E4. destruct E4 as [-> Hf].
  assert (Hfb : below n0 f = true) by (eapply get_prop_obj_below; [apply Hcl | exact Hf]).
  stepn H linked s5 E5.
  pose proof E5 as E5'. apply linkAssociations_heap in E5'.
  destruct E5' as (_ & Hj5 & _ & _).
  apply (linkAssociations_eff pl sails n0 docId c) in E5; auto.
  destruct E5 as [Eff5 Hlinked].
  stepn H u6 s6 E6. apply json_set_some in E6. subst s6.
  stepn H f' s7 E7. apply getM_some in E7. destruct E7 as [-> Hf'].
  stepn H recs s8 E8. apply values_of_some in E8. destruct E8 as [-> Hrecs].
  stepn H ids s9 E9. apply mapM_getM_some in E9. destruct E9 as [-> Hids].
  apply setM_clone_eff in H; auto.
  - change [alias a] with ([] ++ [] ++ [alias a]).
    apply (eff_trans _ _ _ _ _ _ s5); [exact Eff5|].
    eapply eff_trans; [|exact H].
    apply eff_json. intros _. rewrite Hj5. apply closed_json_set; [apply Hcl|].
    intros HK. rewrite forallb_app. apply andb_true_intro. split.
    + eapply closed_json_get; [apply Hcl | exact HK | exact Hb].
    + rewrite Hlinked. apply as_list_below, Hfb.
  - intros Hcl9. simpl. eapply Forall2_get_below; [apply Hcl9 | | exact Hids].
    subst recs. apply lodash_values_below; [apply Hcl9|].
    eapply get_prop_obj_below; [apply Hcl9 | exact Hf'].
Qed.

Lemma field_in_some h v k x : get_prop h v k = Some x -> field_in h v k = x.
Proof. unfold field_in. intros ->. reflexivity. Qed.

Lemma index_rows_some record via a rows acc s res s' :
  foldM (index_row record via a) rows acc s = Some (res, s') ->
  s' = s /\
  res = acc ++ index_pick (st_heap s) rows via (pick_key a)
                 (field_in (st_heap s) record "id").
Proof.
  revert acc s. induction rows as [|r rows IH]; intros acc s H; simpl in H.
  - apply ret_some in H. destruct H as [-> ->]. rewrite app_nil_r. auto.
  - stepn H acc' s1 E1. unfold index_row in E1.
    stepn E1 x s2 E2. apply getM_some in E2. destruct E2 as [-> Hx].
    stepn E1 rid s3 E3. apply getM_some in E3. destruct E3 as [-> Hrid].
    apply field_in_some in Hx. apply field_in_some in Hrid. subst x rid.
    assert (Hacc : s1 = s /\
      acc' = acc ++ (if strict_eq (field_in (st_heap s) r via)
                                  (field_in (st_heap s) record "id")
                     then [field_in (st_heap s) r (pick_key a)] else [])).
    { destruct (strict_eq _ _).
      - stepn E1 y s4 E4. apply ret_some in E1. destruct E1 as [-> ->].
        unfold pick_key. destruct (truthy_str (through a));
          apply getM_some in E4; destruct E4 as [-> Hy];
          apply field_in_some in Hy; subst y; auto.
      - apply ret_some in E1. destruct E1 as [-> ->]. rewrite app_nil_r. auto. }
    destruct Hacc as [-> ->]. apply IH in H. destruct H as [-> ->]. split; auto.
    unfold index_pick. simpl.
    destruct (strict_eq _ _); simpl; rewrite <- app_assoc; reflexivity.
Qed.

Lemma field_in_below n h v k :
  closed_heap n h -> below n v = true -> below n (field_in h v k) = true.
Proof.
  intros Hh Hv. unfold field_in. destruct (get_prop h v k) eqn:E; auto.
  eapply get_prop_below; eauto.
Qed.

Lemma index_pick_below n h rows via pick rid :
  closed_heap n h -> forallb (below n) rows = true ->
  forallb (below n) (index_pick h rows via pick rid) = true.
Proof.
  intros Hh Hr. unfold index_pick. apply forallb_forall. intros x Hx.
  apply in_map_iff in Hx. destruct Hx as (r & <- & Hin).
  apply filter_In in Hin. destruct Hin as [Hin _].
  apply field_in_below; auto. rewrite forallb_forall in Hr. apply Hr, Hin.
Qed.

(** Lines 125-137: the field becomes the picked ids, and nothing else
    changes. *)
Lemma index_collection_spec ar c via a s u s' :
  index_collection ar (VObj c) via a s = Some (u, s') ->
  (n0 <= c)%N -> closed n0 docId s -> below n0 ar = true ->
  eff n0 docId c [alias a] s s' /\
  (opt_is (include a) "index" = true ->
   forall arv, get_prop (st_heap s) ar (alias a) = Some arv -> truthy arv = true ->
   exists o', st_heap s' c = Some o' /\
     assoc_get (alias a) o' =
       Some (VArr (index_pick (st_heap s) (lodash_values (st_heap s) arv) via
                     (pick_key a) (field_in (st_heap s) (VObj c) "id")))).
Proof.
  intros H Hc Hcl Har. unfold index_collection in H.
  destruct (opt_is (include a) "index") eqn:Hi;
    [|apply ret_some in H; destruct H as [_ ->]; split; [apply eff_refl | discriminate]].
  stepn H arv s1 E1. apply getM_some in E1. destruct E1 as [-> Harv].
  destruct (truthy arv) eqn:Ht;
    [|apply ret_some in H; destruct H as [_ ->]; split; [apply eff_refl|];
      intros _ arv' E; rewrite Harv in E; inversion E; subst; congruence].
  stepn H rows s2 E2. apply values_of_some in E2. destruct E2 as [-> Hrows].
  stepn H picked s3 E3. apply index_rows_some in E3. destruct E3 as [-> Hp].
  simpl in Hp. subst picked.
  pose proof H as Hset. apply setM_some in Hset.
  destruct Hset as [(l & o & El & Hl & Hs') | (_ & _ & _ & Hno)];
    [|exfalso; eapply Hno; reflexivity].
  inversion El; subst l.
  split.
  - eapply setM_clone_eff; [exact H | exact Hc |]. intros _. simpl.
    apply index_pick_below; [apply Hcl|]. subst rows.
    apply lodash_values_below; [apply Hcl|].
    eapply get_prop_below; [apply Hcl | exact Har | exact Harv].
  - intros _ arv' E _. rewrite Harv in E. inversion E; subst arv'.
    exists (assoc_set (alias a) (VArr (index_pick (st_heap s) rows via (pick_key a)
                                   (field_in (st_heap s) (VObj c) "id"))) o).
    subst s' rows. simpl. rewrite heap_upd_eq. split; auto.
    apply assoc_get_set_eq.
Qed.

(** Lines 139-142: the link replaces the field. *)
Lemma link_collection_spec c L a s L' s' :
  link_collection sails docId (VObj c) L a s = Some (L', s') ->
  (n0 <= c)%N ->
  eff n0 docId c [alias a] s s' /\
  L' = (if opt_is (include a) "link"
        then assoc_set (alias a)
               (VStr (url [blueprints_prefix sails; "/"; docId; "/";
                           to_js_string (field_in (st_heap s) (VObj c) "id");
                           "/"; alias a])) L
        else L) /\
  (opt_is (include a) "link" = true ->
   exists o', st_heap s' c = Some o' /\ assoc_get (alias a) o' = None).
Proof.
  intros H Hc. unfold link_collection in H.
  destruct (opt_is (include a) "link") eqn:Hi;
    [|apply ret_some in H; destruct H as [-> ->]; split; [apply eff_refl|split; [auto|discriminate]]].
  stepn H rid s1 E1. apply getM_some in E1. destruct E1 as [-> Hrid].
  apply field_in_some in Hrid.
  stepn H u s2 E2. apply ret_some in H. destruct H as [-> ->].
  pose proof E2 as Hdel. apply delM_some in Hdel.
  destruct Hdel as [(l & o & El & Hl & Hs') | (_ & _ & _ & Hno)];
    [|exfalso; eapply Hno; reflexivity].
  inversion El; subst l.
  split; [eapply delM_clone_eff; eauto|]. split.
  - rewrite Hrid. reflexivity.
  - intros _. exists (assoc_del (alias a) o). subst s2. simpl.
    rewrite heap_upd_eq. split; auto. apply assoc_get_del_eq.
Qed.

Lemma sideload_model_eff sideload K c a s u s' :
  sideload_model pl sails sideload K (VObj c) a s = Some (u, s') ->
  (n0 <= c)%N -> closed n0 docId s -> eff n0 docId c [alias a] s s'.
Proof.
  intros H Hc Hcl. unfold sideload_model in H.
  stepn H f s1 E1. apply (getM_clone_below n0 docId) in E1; [|exact Hcl].
  destruct E1 as [-> Hfb].
  destruct (truthy f); [|apply ret_some in H; destruct H as [_ ->]; apply eff_refl].
  destruct (_ && _)%bool; [|apply ret_some in H; destruct H as [_ ->]; apply eff_refl].
  stepn H am s2 E2. apply models_get_some in E2. destruct E2 as [-> _].
  stepn H linked s3 E3.
  pose proof E3 as E3'. apply linkAssociations_heap in E3'.
  destruct E3' as (_ & Hj3 & _ & _).
  apply (linkAssociations_eff pl sails n0 docId c) in E3; auto.
  destruct E3 as [Eff3 Hlinked].
  destruct (Eff3 Hcl) as (_ & _ & _ & _ & Hcl3).
  stepn H bucket s4 E4. apply json_get_some in E4. destruct E4 as [-> Hb].
  stepn H f' s5 E5. apply (getM_clone_below n0 docId) in E5; [|exact Hcl3].
  destruct E5 as [-> Hf'b].
  stepn H u6 s6 E6. apply json_set_some in E6. subst s6.
  set (sJ := with_json s3 (assoc_set K (js_concat bucket f') (st_json s3))) in *.
  assert (HclJ : closed n0 docId sJ).
  { split; [apply Hcl3|]. simpl. apply closed_json_set; [apply Hcl3|].
    intros HK. apply js_concat_below; auto.
    eapply closed_json_get; [apply Hcl3 | exact HK | exact Hb]. }
  stepn H y0 s7 E7.
  assert (Hhd : s7 = sJ /\ below n0 y0 = true).
  { destruct linked as [|x xs]; [discriminate|].
    apply ret_some in E7. destruct E7 as [-> ->]. split; auto.
    pose proof (as_list_below n0 f Hfb) as HH. rewrite <- Hlinked in HH.
    simpl in HH. apply andb_prop in HH. apply HH. }
  destruct Hhd as [-> Hhdb].
  stepn H i s8 E8. apply getM_some in E8. destruct E8 as [-> Hi].
  assert (Hib : below n0 i = true)
    by (eapply get_prop_below; [apply HclJ | exact Hhdb | exact Hi]).
  apply setM_clone_eff in H; auto.
  change [alias a] with ([] ++ [] ++ [alias a]).
  eapply eff_trans; [exact Eff3|]. eapply eff_trans; [|exact H].
  apply eff_json. intros _. apply HclJ.
Qed.

(** One association of [prepareOneRecord] changes the clone at most at
    its alias and the links at most at its alias. *)
Lemma prepare_assoc_eff emi sideload ar c L a s L' s' :
  prepare_assoc pl sails emi docId sideload ar (VObj c) L a s = Some (L', s') ->
  (n0 <= c)%N -> closed n0 docId s -> below n0 ar = true ->
  eff n0 docId c [alias a] s s' /\
  (forall k, k <> alias a -> assoc_get k L' = assoc_get k L) /\
  (all_strings L -> all_strings L').
Proof.
  intros H Hc Hcl Har. unfold prepare_assoc in H.
  stepn H m s1 E1. apply models_get_some in E1. destruct E1 as [-> _].
  stepn H L1 s2 E2.
  assert (HA : eff n0 docId c [alias a] s s2 /\
               (forall k, k <> alias a -> assoc_get k L1 = assoc_get k L) /\
               (all_strings L -> all_strings L1)).
  { destruct (String.eqb (type a) "collection").
    - stepn E2 v s3 E3. apply via_key_some in E3. destruct E3 as [-> _].
      stepn E2 u4 s4 E4. apply sideload_collection_eff in E4; auto.
      destruct (E4 Hcl) as (_ & _ & _ & _ & Hcl4).
      stepn E2 u5 s5 E5. apply index_collection_spec in E5; auto.
      destruct E5 as [E5 _].
      destruct (E5 Hcl4) as (_ & _ & _ & _ & Hcl5).
      apply link_collection_spec in E2; auto. destruct E2 as (E6 & HL & _).
      split; [|split].
      + eapply eff_weaken; [apply incl_three|].
        eapply eff_trans; [exact E4|]. eapply eff_trans; [exact E5|exact E6].
      + intros k Hk. rewrite HL. destruct (opt_is _ _); auto.
        apply assoc_get_set_neq. intros E. apply Hk. auto.
      + intros HLs. rewrite HL. destruct (opt_is _ _); auto.
        apply all_strings_set. exact HLs.
    - apply ret_some in E2. destruct E2 as [-> ->]. split; [apply eff_refl|auto]. }
  destruct HA as (Eff2 & HL1 & HS1).
  destruct (Eff2 Hcl) as (_ & _ & _ & _ & Hcl2).
  stepn H u3 s3 E3. apply ret_some in H. destruct H as [-> ->].
  split; auto.
  destruct (String.eqb (type a) "model").
  - apply sideload_model_eff in E3; auto.
    eapply eff_weaken; [apply incl_two|]. eapply eff_trans; eauto.
  - apply ret_some in E3. destruct E3 as [_ ->]. exact Eff2.
Qed.

Lemma prep_fold_eff emi sideload ar c assocs L s L' s' :
  foldM (prepare_assoc pl sails emi docId sideload ar (VObj c)) assocs L s
    = Some (L', s') ->
  (n0 <= c)%N -> closed n0 docId s -> below n0 ar = true ->
  eff n0 docId c (map alias assocs) s s' /\
  (forall k, ~ In k (map alias assocs) -> assoc_get k L' = assoc_get k L) /\
  (all_strings L -> all_strings L').
Proof.
  revert L s. induction assocs as [|a assocs IH]; intros L s H Hc Hcl Har;
    simpl in H.
  - apply ret_some in H. destruct H as [-> ->]. split; [apply eff_refl|auto].
  - stepn H L1 s1 E1. apply prepare_assoc_eff in E1; auto.
    destruct E1 as (Eff1 & HL1 & HS1).
    destruct (Eff1 Hcl) as (_ & _ & _ & _ & Hcl1).
    apply IH in H; auto. destruct H as (Eff2 & HL2 & HS2).
    split; [|split].
    + change (map alias (a :: assocs)) with ([alias a] ++ map alias assocs).
      eapply eff_trans; eauto.
    + intros k Hk. simpl in Hk. rewrite HL2 by tauto. apply HL1.
      intros ->. apply Hk. left. reflexivity.
    + auto.
Qed.

(** The step of one association inside the fold, framed by the steps of
    the others. *)
Lemma prep_fold_at emi sideload ar c assocs L s L' s' a :
  foldM (prepare_assoc pl sails emi docId sideload ar (VObj c)) assocs L s
    = Some (L', s') ->
  (n0 <= c)%N -> closed n0 docId s -> below n0 ar = true ->
  NoDup (map alias assocs) -> In a assocs ->
  exists ks1 ks2 L1 s1 L2 s2,
    ~ In (alias a) ks1 /\ ~ In (alias a) ks2 /\ incl ks1 (map alias assocs) /\
    eff n0 docId c ks1 s s1 /\
    prepare_assoc pl sails emi docId sideload ar (VObj c) L1 a s1 = Some (L2, s2) /\
    eff n0 docId c ks2 s2 s' /\
    assoc_get (alias a) L' = assoc_get (alias a) L2.
Proof.
  revert L s. induction assocs as [|b assocs IH];
    intros L s H Hc Hcl Har Hnd Hin; [destruct Hin|].
  simpl in H. stepn H L1 s1 E1. simpl in Hnd.
  inversion Hnd as [|? ? Hnb Hnd']; subst.
  pose proof E1 as E1'. apply prepare_assoc_eff in E1'; auto.
  destruct E1' as (Eff1 & HL1 & HS1).
  destruct (Eff1 Hcl) as (_ & _ & _ & _ & Hcl1).
  destruct Hin as [<- | Hin].
  - pose proof H as H'. apply prep_fold_eff in H'; auto.
    destruct H' as (Eff2 & HL2 & _).
    exists [], (map alias assocs), L, s, L1, s1.
    split; [intros []|]. split; [exact Hnb|]. split; [intros x []|].
    split; [apply eff_refl|].
    split; [exact E1|]. split; [exact Eff2|]. apply HL2. exact Hnb.
  - destruct (IH L1 s1 H Hc Hcl1 Har Hnd' Hin)
      as (ks1 & ks2 & L2 & s2 & L3 & s3 & N1 & N2 & I1 & Ea & Eb & Ec & Ed).
    exists ([alias b] ++ ks1), ks2, L2, s2, L3, s3.
    split; [|split; [exact N2|split; [|split; [eapply eff_trans; eauto|auto]]]].
    2:{ intros x Hx. simpl. apply in_app_or in Hx.
        destruct Hx as [[<-|[]]|Hx]; [left; reflexivity | right; apply I1; exact Hx]. }
    intros Hx. apply in_app_or in Hx. destruct Hx as [[Hx|[]]|Hx]; auto.
    apply Hnb. rewrite Hx. apply in_map. exact Hin.
Qed.

(** [prepareOneRecord]: the clone is a fresh object at [st_next s],
    built by the fold over the associations and given the links; the
    objects below [n0] at most get a [links] map and the earlier clones
    stay. *)
Lemma prepareOneRecord_spec emi assocs sideload ar v s r s' :
  prepareOneRecord pl sails emi docId assocs sideload ar v s = Some (r, s') ->
  closed n0 docId s -> (n0 <= st_next s)%N -> below n0 v = true ->
  below n0 ar = true ->
  exists l o L sB oB,
    v = VObj l /\ st_heap s l = Some o /\ r = VObj (st_next s) /\
    foldM (prepare_assoc pl sails emi docId sideload ar (VObj (st_next s)))
      assocs []
      {| st_heap := heap_upd (st_heap s) (st_next s) o;
         st_next := N.succ (st_next s); st_json := st_json s |}
      = Some (L, sB) /\
    st_heap sB (st_next s) = Some oB /\
    st_heap s' (st_next s) =
      Some (if Nat.ltb 0 (List.length L)
            then assoc_set "links" (VDict L) oB else oB) /\
    all_strings L /\
    (forall k, ~ In k (map alias assocs) -> assoc_get k oB = assoc_get k o) /\
    st_next s' = N.succ (st_next s) /\
    (forall l', (l' < n0)%N -> opt_links_step (st_heap s l') (st_heap s' l')) /\
    (forall l', (n0 <= l')%N -> (l' < st_next s)%N -> st_heap s' l' = st_heap s l') /\
    closed n0 docId s'.
Proof.
  intros H Hcl Hn Hv Har. unfold prepareOneRecord in H.
  stepn H props s1 E1. apply toJSON_some in E1. destruct E1 as [-> (l & -> & Hl)].
  stepn H rec s2 E2. apply alloc_some in E2. destruct E2 as [-> ->].
  set (c := st_next s) in *.
  set (sA := {| st_heap := heap_upd (st_heap s) c props; st_next := N.succ c;
                st_json := st_json s |}) in *.
  assert (HclA : closed n0 docId sA).
  { split; [|apply Hcl]. apply closed_heap_upd; [apply Hcl|].
    apply (proj1 Hcl l props Hl). }
  stepn H L s3 E3. pose proof E3 as E3'.
  apply prep_fold_eff in E3'; auto.
  destruct E3' as (Eff3 & HL3 & HS3).
  destruct (Eff3 HclA) as (N3 & F3 & G3 & C3 & Hcl3).
  destruct (C3 props) as (oB & HoB & KB); [simpl; apply heap_upd_eq|].
  assert (HLs : all_strings L) by (apply HS3; constructor).
  stepn H u4 s4 E4. apply ret_some in H. destruct H as [-> ->].
  assert (Hlow : forall l', (l' < n0)%N -> st_heap sA l' = st_heap s l').
  { intros l' Hl'. simpl. apply heap_upd_neq. unfold c. lia. }
  assert (Hmid : forall l', (n0 <= l')%N -> (l' < c)%N -> st_heap s3 l' = st_heap s l').
  { intros l' H1 H2. rewrite G3 by (auto; unfold c in *; lia). simpl.
    apply heap_upd_neq. unfold c in *. lia. }
  exists l, props, L, s3, oB.
  do 5 (split; [first [reflexivity | eassumption] |]).
  destruct (Nat.ltb 0 (List.length L)).
  - apply setM_some in E4.
    destruct E4 as [(l0 & o0 & E0 & Hl0 & ->) | (_ & _ & _ & Hno)];
      [|exfalso; eapply Hno; reflexivity].
    inversion E0; subst l0. rewrite HoB in Hl0. inversion Hl0; subst o0.
    split; [simpl; apply heap_upd_eq|].
    split; [exact HLs|]. split; [exact KB|]. split; [simpl; rewrite N3; reflexivity|].
    split; [|split].
    + intros l' Hl'. simpl. rewrite heap_upd_neq by (unfold c in *; lia).
      rewrite <- (Hlow l' Hl'). apply F3. exact Hl'.
    + intros l' H1 H2. simpl. rewrite heap_upd_neq by (unfold c in *; lia). auto.
    + split; [|apply Hcl3]. simpl. apply closed_heap_upd; [apply Hcl3|].
      unfold obj_below. apply forallb_assoc_set; [apply (proj1 Hcl3 c oB HoB)|].
      simpl. apply all_strings_below. exact HLs.
  - apply ret_some in E4. destruct E4 as [_ ->].
    split; [exact HoB|]. split; [exact HLs|]. split; [exact KB|].
    split; [rewrite N3; reflexivity|].
    split; [|split; [|exact Hcl3]].
    + intros l' Hl'. rewrite <- (Hlow l' Hl'). apply F3. exact Hl'.
    + exact Hmid.
Qed.

End Blocks.

(** ** Distinct document keys *)

Lemma pres_ret P {A} (x : A) : pres P (ret x).
Proof. intros s a s' Hs E. apply ret_some in E. destruct E as [_ ->]. exact Hs. Qed.

Lemma pres_throw P {A} : pres P (@throw A).
Proof. intros s a s' _ E. discriminate. Qed.

Lemma pres_bind P {A B} (m : M A) (k : A -> M B) :
  pres P m -> (forall a, pres P (k a)) -> pres P (bind m k).
Proof.
  intros Hm Hk s b s' Hs E. apply bind_some in E.
  destruct E as (a & s1 & E1 & E2). eapply Hk; [eapply Hm; eauto | exact E2].
Qed.

Lemma pres_foldM P {A B} (f : B -> A -> M B) l acc :
  (forall acc x, pres P (f acc x)) -> pres P (foldM f l acc).
Proof.
  intros Hf. revert acc. induction l as [|x l IH]; intros acc; simpl;
    [apply pres_ret | apply pres_bind; auto].
Qed.

Lemma pres_mapM P {A B} (f : A -> M B) l :
  (forall x, pres P (f x)) -> pres P (mapM f l).
Proof.
  intros Hf. induction l as [|x l IH]; simpl; [apply pres_ret|].
  apply pres_bind; auto. intros y. apply pres_bind; auto. intros ys. apply pres_ret.
Qed.

Lemma pres_iterM P {A} (f : A -> M unit) l :
  (forall x, pres P (f x)) -> pres P (iterM f l).
Proof.
  intros Hf. induction l as [|x l IH]; simpl; [apply pres_ret|].
  apply pres_bind; auto.
Qed.

Lemma pres_json_same {A} (m : M A) :
  (forall s a s', m s = Some (a, s') -> st_json s' = st_json s) -> pres json_nodup m.
Proof. intros H s a s' Hs E. unfold json_nodup. rewrite (H _ _ _ E). exact Hs. Qed.

Lemma NoDup_snoc (l : list string) k : NoDup l -> ~ In k l -> NoDup (l ++ [k]).
Proof.
  induction l as [|x l IH]; simpl; intros Hn Hk.
  - constructor; [intros []|constructor].
  - inversion Hn; subst. constructor.
    + intros Hx. apply in_app_or in Hx. destruct Hx as [Hx|[Hx|[]]]; auto.
    + apply IH; auto.
Qed.

Lemma assoc_set_keys {A} k (v : A) d :
  map fst (assoc_set k v d) = map fst d \/
  (map fst (assoc_set k v d) = map fst d ++ [k] /\ ~ In k (map fst d)).
Proof.
  induction d as [|[k' v'] d IH]; simpl.
  - right. split; [reflexivity | intros []].
  - destruct (String.eqb k k') eqn:E; simpl; [left; reflexivity|].
    destruct IH as [-> | [-> Hn]]; [left; reflexivity|].
    right. split; [reflexivity|]. intros [Hk|Hk]; [|auto].
    subst k'. rewrite String.eqb_refl in E. discriminate.
Qed.

Lemma In_keys_del {A} k x (d : list (string * A)) :
  In x (map fst (assoc_del k d)) -> In x (map fst d).
Proof.
  induction d as [|[k' v'] d IH]; simpl; auto.
  destruct (String.eqb k k'); simpl; intros H; [right; auto|].
  destruct H; auto.
Qed.

Lemma NoDup_keys_set {A} k (v : A) d :
  NoDup (map fst d) -> NoDup (map fst (assoc_set k v d)).
Proof.
  intros Hn. destruct (assoc_set_keys k v d) as [-> | [-> Hk]]; auto.
  apply NoDup_snoc; auto.
Qed.

Lemma NoDup_keys_del {A} k (d : list (string * A)) :
  NoDup (map fst d) -> NoDup (map fst (assoc_del k d)).
Proof.
  induction d as [|[k' v'] d IH]; simpl; intros Hn; auto.
  inversion Hn; subst. destruct (String.eqb k k'); simpl; auto.
  constructor; auto. intros Hx. apply In_keys_del in Hx. auto.
Qed.

Lemma getM_nodup v k : pres json_nodup (getM v k).
Proof. apply pres_json_same. intros s a s' E. apply getM_some in E. destruct E as [-> _]. auto. Qed.

Lemma setM_nodup v k x : pres json_nodup (setM v k x).
Proof.
  apply pres_json_same. intros s a s' E. apply setM_some in E.
  destruct E as [(l & o & _ & _ & ->) | (-> & _)]; reflexivity.
Qed.

Lemma delM_nodup v k : pres json_nodup (delM v k).
Proof.
  apply pres_json_same. intros s a s' E. apply delM_some in E.
  destruct E as [(l & o & _ & _ & ->) | (-> & _)]; reflexivity.
Qed.

Lemma alloc_nodup o : pres json_nodup (alloc o).
Proof. apply pres_json_same. intros s a s' E. apply alloc_some in E. destruct E as [_ ->]. reflexivity. Qed.

Lemma values_of_nodup v : pres json_nodup (values_of v).
Proof. apply pres_json_same. intros s a s' E. apply values_of_some in E. destruct E as [-> _]. reflexivity. Qed.

Lemma json_get_nodup k : pres json_nodup (json_get k).
Proof. apply pres_json_same. intros s a s' E. apply json_get_some in E. destruct E as [-> _]. reflexivity. Qed.

Lemma json_has_nodup k : pres json_nodup (json_has k).
Proof. apply pres_json_same. intros s a s' E. apply json_has_some in E. destruct E as [-> _]. reflexivity. Qed.

Lemma json_keys_nodup : pres json_nodup json_keys.
Proof. apply pres_json_same. intros s a s' E. apply json_keys_some in E. destruct E as [-> _]. reflexivity. Qed.

Lemma toJSON_nodup v : pres json_nodup (toJSON v).
Proof. apply pres_json_same. intros s a s' E. apply toJSON_some in E. destruct E as [-> _]. reflexivity. Qed.

Lemma models_get_nodup sails k : pres json_nodup (models_get sails k).
Proof. apply pres_json_same. intros s a s' E. apply models_get_some in E. destruct E as [-> _]. reflexivity. Qed.

Lemma json_set_nodup k b : pres json_nodup (json_set k b).
Proof.
  intros s a s' Hs E. apply json_set_some in E. subst s'.
  apply NoDup_keys_set. exact Hs.
Qed.

Lemma json_del_nodup k : pres json_nodup (json_del k).
Proof.
  intros s a s' Hs E. apply json_del_some in E. subst s'.
  apply NoDup_keys_del. exact Hs.
Qed.

Lemma linkAssociations_nodup pl sails mdl v : pres json_nodup (linkAssociations pl sails mdl v).
Proof.
  apply pres_json_same. intros s a s' E. apply linkAssociations_heap in E. apply E.
Qed.

Lemma init_json_nodup d : pres json_nodup (fun s => Some (tt, with_json s [(d, [])])).
Proof.
  intros s a s' _ E. inversion E; subst. unfold json_nodup. simpl.
  constructor; [intros []|constructor].
Qed.

Lemma final_json_nodup : pres json_nodup (fun s => Some (st_json s, s)).
Proof. intros s a s' Hs E. inversion E; subst. exact Hs. Qed.

Create HintDb nodup.

#[local] Hint Resolve getM_nodup setM_nodup delM_nodup alloc_nodup values_of_nodup
  json_get_nodup json_has_nodup json_keys_nodup toJSON_nodup models_get_nodup
  json_set_nodup json_del_nodup linkAssociations_nodup init_json_nodup
  final_json_nodup pres_ret pres_throw : nodup.

Ltac pres_auto :=
  repeat (cbv beta zeta;
    match goal with
    | |- pres _ (bind _ _) => apply pres_bind; [|intro]
    | |- pres _ (foldM _ _ _) => apply pres_foldM; intros
    | |- pres _ (mapM _ _) => apply pres_mapM; intros
    | |- pres _ (iterM _ _) => apply pres_iterM; intros
    | |- pres _ (if ?b then _ else _) => destruct b
    | |- pres _ (match ?x with _ => _ end) => destruct x
    | |- pres json_nodup _ => solve [eauto with nodup]
    end).

Section Keys.

Variable pl : Pluralize.
Variable sails : Sails.


Lemma buildResponse_nodup mdl records assocs sideload ar :
  pres json_nodup (buildResponse pl sails mdl records assocs sideload ar).
Proof.
  unfold buildResponse, build_records, init_document, finish_sideload,
    prepare_sideload, prepareOneRecord, prepare_assoc, via_key,
    sideload_collection, index_collection, index_row, link_collection,
    sideload_model, prune_buckets, uniq_by_id, link_buckets.
  pres_auto.
Qed.

Lemma build_records_nodup mdl records assocs sideload ar :
  pres json_nodup (build_records pl sails mdl records assocs sideload ar).
Proof.
  unfold build_records, init_document, prepare_sideload, prepareOneRecord,
    prepare_assoc, via_key, sideload_collection, index_collection, index_row,
    link_collection, sideload_model.
  pres_auto.
Qed.

End Keys.

(** ** The primary bucket *)

Lemma assoc_get_set_nil {A} k d (j : list (string * list A)) :
  assoc_get d j = Some [] -> assoc_get d (assoc_set k [] j) = Some [].
Proof.
  intros H. destruct (string_dec k d) as [->|Hne];
    [apply assoc_get_set_eq | rewrite assoc_get_set_neq; auto].
Qed.

Section Build.

Variable pl : Pluralize.
Variable sails : Sails.
Variable n0 : loc.
Variable docId : string.

Lemma prepare_sideload_some assocs s u s' :
  prepare_sideload pl sails assocs s = Some (u, s') ->
  st_heap s' = st_heap s /\ st_next s' = st_next s /\
  (closed_json n0 docId (st_json s) -> closed_json n0 docId (st_json s')) /\
  (assoc_get docId (st_json s) = Some [] -> assoc_get docId (st_json s') = Some []).
Proof.
  unfold prepare_sideload. revert s.
  induction assocs as [|a assocs IH]; intros s H; simpl in H.
  - apply ret_some in H. destruct H as [_ ->]. auto.
  - stepn H u1 s1 E1. apply IH in H. destruct H as (H1 & H2 & H3 & H4).
    assert (A : st_heap s1 = st_heap s /\ st_next s1 = st_next s /\
      (closed_json n0 docId (st_json s) -> closed_json n0 docId (st_json s1)) /\
      (assoc_get docId (st_json s) = Some [] -> assoc_get docId (st_json s1) = Some [])).
    { destruct (opt_is (include a) "record").
      - stepn E1 m s2 E2. apply models_get_some in E2. destruct E2 as [-> _].
        stepn E1 present s3 E3. apply json_has_some in E3. destruct E3 as [-> _].
        destruct present.
        + apply ret_some in E1. destruct E1 as [_ ->]. auto.
        + apply json_set_some in E1. subst s1. simpl.
          split; [reflexivity|]. split; [reflexivity|]. split.
          * intros Hj. apply closed_json_set; auto.
          * apply assoc_get_set_nil.
      - apply ret_some in E1. destruct E1 as [_ ->]. auto. }
    destruct A as (A1 & A2 & A3 & A4).
    split; [congruence|]. split; [congruence|]. auto.
Qed.

Lemma init_document_some assocs sideload s u s' :
  init_document pl sails docId assocs sideload s = Some (u, s') ->
  st_heap s' = st_heap s /\ st_next s' = st_next s /\
  closed_json n0 docId (st_json s') /\ assoc_get docId (st_json s') = Some [].
Proof.
  unfold init_document. intros H. stepn H u1 s1 E1. inversion E1; subst s1.
  assert (Hj : closed_json n0 docId [(docId, [])])
    by (constructor; [intros; reflexivity | constructor]).
  assert (Hg : assoc_get docId [(docId, @nil value)] = Some [])
    by (simpl; rewrite String.eqb_refl; reflexivity).
  destruct sideload.
  - apply prepare_sideload_some in H. destruct H as (P1 & P2 & P3 & P4).
    simpl in *. rewrite P1, P2. auto.
  - apply ret_some in H. destruct H as [_ ->]. simpl. auto.
Qed.

(** The loop of lines 167-169 over an array of records. *)
Lemma build_loop_spec emi assocs sideload ar rs s u s' acc :
  iterM (fun record =>
           old <- json_get docId ;;
           r <- prepareOneRecord pl sails emi docId assocs sideload ar record ;;
           json_set docId (js_concat old r)) rs s = Some (u, s') ->
  closed n0 docId s -> (n0 <= st_next s)%N -> forallb (below n0) rs = true ->
  below n0 ar = true -> assoc_get docId (st_json s) = Some acc ->
  closed n0 docId s' /\ (st_next s <= st_next s')%N /\
  (forall l, (l < n0)%N -> opt_links_step (st_heap s l) (st_heap s' l)) /\
  (forall l, (n0 <= l)%N -> (l < st_next s)%N -> st_heap s' l = st_heap s l) /\
  exists more, assoc_get docId (st_json s') = Some (acc ++ more) /\
    Forall2 (fun r v => exists s1 s2 c,
       prepareOneRecord pl sails emi docId assocs sideload ar r s1 = Some (VObj c, s2) /\
       v = VObj c /\ st_heap s' c = st_heap s2 c /\ closed n0 docId s1 /\
       (n0 <= st_next s1)%N /\ below n0 r = true /\
       (forall l, (l < n0)%N -> opt_links_step (st_heap s l) (st_heap s1 l))) rs more.
Proof.
  revert s acc. induction rs as [|r rs IH]; intros s acc H Hcl Hn Hrs Har Hacc;
    simpl in H.
  - apply ret_some in H. destruct H as [_ ->].
    split; [exact Hcl|]. split; [lia|].
    split; [intros; apply opt_links_step_refl|]. split; [auto|].
    exists []. rewrite app_nil_r. split; auto.
  - simpl in Hrs. apply andb_prop in Hrs. destruct Hrs as [Hr Hrs].
    stepn H u1 s1 E1. stepn E1 old s2 E2. apply json_get_some in E2.
    destruct E2 as [-> Hold]. rewrite Hacc in Hold. inversion Hold; subst old.
    stepn E1 v s3 E3. apply json_set_some in E1. subst s1.
    pose proof E3 as E3'. apply (prepareOneRecord_spec pl sails n0 docId) in E3'; auto.
    destruct E3' as (l & o & L & sB & oB & Hrl & Hl & Hv & _ & _ & _ & _ & _ &
                     N3 & F3 & G3 & Hcl3).
    subst v.
    set (c := st_next s) in *.
    set (s1 := with_json s3 (assoc_set docId (js_concat acc (VObj c)) (st_json s3))) in *.
    assert (Hcl1 : closed n0 docId s1).
    { split; [apply Hcl3|]. simpl. apply closed_json_set; [apply Hcl3|].
      intros Hne. congruence. }
    assert (Hacc1 : assoc_get docId (st_json s1) = Some (acc ++ [VObj c]))
      by (simpl; apply assoc_get_set_eq).
    assert (Hn1 : (n0 <= st_next s1)%N) by (simpl; unfold c in *; lia).
    destruct (IH s1 (acc ++ [VObj c]) H Hcl1 Hn1 Hrs Har Hacc1)
      as (Hcl' & Hn' & F' & G' & more & Hm & HF).
    split; [exact Hcl'|]. split; [simpl in Hn'; unfold c in *; lia|].
    split; [intros l' Hl'; eapply opt_links_step_trans;
            [apply F3; exact Hl' | apply F'; exact Hl']|].
    split; [intros l' Hl1 Hl2; rewrite G'; [apply G3; auto | auto | simpl; unfold c in *; lia]|].
    exists (VObj c :: more). split; [rewrite Hm, <- app_assoc; reflexivity|].
    constructor.
    + exists s, s3, c. split; [exact E3|]. split; [reflexivity|].
      split; [apply G'; simpl; unfold c in *; lia|].
      split; [exact Hcl|]. split; [exact Hn|]. split; [exact Hr|].
      intros; apply opt_links_step_refl.
    + eapply Forall2_impl; [|exact HF].
      intros r' v' (s4 & s5 & c' & P1 & P2 & P3 & P4 & P5 & P6 & P7).
      exists s4, s5, c'. do 6 (split; [assumption|]).
      intros l' Hl'. eapply opt_links_step_trans; [apply F3; exact Hl' | apply P7; exact Hl'].
Qed.

(** Lines 78-172: the primary bucket holds one fresh clone per record, in
    order, each built by [prepareOneRecord] from a closed state. *)
Lemma build_records_spec mdl records assocs sideload ar s u s' :
  build_records pl sails mdl records assocs sideload ar s = Some (u, s') ->
  docId = convertModelName pl sails (globalId mdl) true ->
  n0 = st_next s -> closed_heap n0 (st_heap s) -> below n0 records = true ->
  below n0 ar = true ->
  closed n0 docId s' /\ (n0 <= st_next s')%N /\
  (forall l, (l < n0)%N -> opt_links_step (st_heap s l) (st_heap s' l)) /\
  exists root, assoc_get docId (st_json s') = Some root /\
    Forall2 (fun r v => exists s1 s2 c,
       prepareOneRecord pl sails (globalId mdl) docId assocs sideload ar r s1
         = Some (VObj c, s2) /\
       v = VObj c /\ st_heap s' c = st_heap s2 c /\ closed n0 docId s1 /\
       (n0 <= st_next s1)%N /\ below n0 r = true /\
       (forall l, (l < n0)%N -> opt_links_step (st_heap s l) (st_heap s1 l)))
      (records_list records) root.
Proof.
  intros H Hd Hn Hh Hr Har. unfold build_records in H. cbv zeta in H.
  rewrite <- Hd in H.
  stepn H u1 s1 E1. apply init_document_some in E1. destruct E1 as (H1 & H2 & H3 & H4).
  assert (Hcl1 : closed n0 docId s1) by (split; [rewrite H1; exact Hh | exact H3]).
  assert (Hn1 : (n0 <= st_next s1)%N) by (rewrite H2; lia).
  assert (Single : forall v,
    (r <- prepareOneRecord pl sails (globalId mdl) docId assocs sideload ar v ;;
     json_set docId [r]) s1 = Some (u, s') -> below n0 v = true ->
    closed n0 docId s' /\ (n0 <= st_next s')%N /\
    (forall l, (l < n0)%N -> opt_links_step (st_heap s l) (st_heap s' l)) /\
    exists root, assoc_get docId (st_json s') = Some root /\
      Forall2 (fun r v => exists s1 s2 c,
         prepareOneRecord pl sails (globalId mdl) docId assocs sideload ar r s1
           = Some (VObj c, s2) /\
         v = VObj c /\ st_heap s' c = st_heap s2 c /\ closed n0 docId s1 /\
         (n0 <= st_next s1)%N /\ below n0 r = true /\
         (forall l, (l < n0)%N -> opt_links_step (st_heap s l) (st_heap s1 l)))
        [v] root).
  { intros v Hs Hv. stepn Hs r s2 E2. apply json_set_some in Hs. subst s'.
    pose proof E2 as E2'. apply (prepareOneRecord_spec pl sails n0 docId) in E2'; auto.
    destruct E2' as (l & o & L & sB & oB & Hrl & Hl & Hrv & _ & _ & _ & _ & _ &
                     N3 & F3 & G3 & Hcl3).
    subst r. simpl.
    split; [split; [apply Hcl3|]; apply closed_json_set; [apply Hcl3|]; intros Hne; congruence|].
    split; [rewrite N3; lia|].
    split; [intros l' Hl'; rewrite <- H1; apply F3; exact Hl'|].
    exists [VObj (st_next s1)]. split; [apply assoc_get_set_eq|].
    constructor; [|constructor].
    exists s1, s2, (st_next s1). split; [exact E2|]. split; [reflexivity|].
    split; [reflexivity|]. split; [exact Hcl1|]. split; [exact Hn1|].
    split; [exact Hv|]. intros l' _. rewrite H1. apply opt_links_step_refl. }
  destruct records as [| | | | |vs| |];
    try (exact (Single _ H Hr)).
  simpl in Hr.
  destruct (build_loop_spec _ _ _ _ _ _ _ _ _ H Hcl1 Hn1 Hr Har H4)
    as (Hcl' & Hn' & F' & G' & more & Hm & HF).
  split; [exact Hcl'|]. split; [lia|].
  split; [intros l' Hl'; rewrite <- H1; apply F'; exact Hl'|].
  exists more. split; [exact Hm|].
  eapply Forall2_impl; [|exact HF].
  intros r' v' (s4 & s5 & c' & P1 & P2 & P3 & P4 & P5 & P6 & P7).
  exists s4, s5, c'. do 6 (split; [assumption|]).
  intros l' Hl'. rewrite <- H1. apply P7. exact Hl'.
Qed.

End Build.

(** ** Pruning, deduplication and the links of the sideloaded records *)

Lemma strict_eq_sym v w : strict_eq v w = strict_eq w v.
Proof.
  destruct v, w; simpl; try reflexivity.
  - destruct b, b0; reflexivity.
  - apply Z.eqb_sym.
  - apply String.eqb_sym.
  - apply N.eqb_sym.
Qed.

Lemma strict_eq_eq v w : strict_eq v w = true -> v = w.
Proof.
  destruct v, w; simpl; try discriminate; auto; intros H.
  - apply Bool.eqb_prop in H. congruence.
  - apply Z.eqb_eq in H. congruence.
  - apply String.eqb_eq in H. congruence.
  - apply N.eqb_eq in H. congruence.
Qed.

Lemma uniq_fold_some idf array prev seen out s acc' s' :
  foldM (fun acc record =>
           let '(seen, out) := acc in
           k <- getM record "id" ;;
           if existsb (strict_eq k) seen then ret acc
           else ret (seen ++ [k], out ++ [record]))
        array (seen, out) s = Some (acc', s') ->
  idf = id_in (st_heap s) ->
  (forall k, existsb (strict_eq k) seen = existsb (fun y => strict_eq (idf y) k) prev) ->
  s' = s /\ snd acc' = out ++ keep_first_from idf prev array.
Proof.
  revert prev seen out s. induction array as [|x array IH];
    intros prev seen out s H Hidf Hinv; simpl in H.
  - apply ret_some in H. destruct H as [-> ->]. simpl. rewrite app_nil_r. auto.
  - stepn H acc1 s1 E1. stepn E1 k s2 E2. apply getM_some in E2. destruct E2 as [-> Hk].
    assert (Hkx : idf x = k) by (rewrite Hidf; unfold id_in; rewrite Hk; reflexivity).
    simpl. rewrite <- (Hinv (idf x)), Hkx.
    destruct (existsb (strict_eq k) seen) eqn:Ed.
    + apply ret_some in E1. destruct E1 as [-> ->].
      rewrite app_nil_l. apply (IH (prev ++ [x]) seen out s H Hidf).
      intros k'. rewrite existsb_app, Hinv. simpl. rewrite orb_false_r.
      destruct (strict_eq (idf x) k') eqn:Ex; [|rewrite orb_false_r; reflexivity].
      rewrite orb_true_r. apply strict_eq_eq in Ex. rewrite <- Ex.
      rewrite <- Hinv, Hkx. exact Ed.
    + apply ret_some in E1. destruct E1 as [-> ->].
      destruct (IH (prev ++ [x]) (seen ++ [k]) (out ++ [x]) s H Hidf) as [-> Hout].
      * intros k'. rewrite !existsb_app, Hinv. simpl. rewrite !orb_false_r.
        rewrite Hkx, strict_eq_sym. reflexivity.
      * split; auto. rewrite Hout, <- app_assoc. reflexivity.
Qed.

Lemma uniq_by_id_some array s u s' :
  uniq_by_id array s = Some (u, s') ->
  s' = s /\ u = keep_first (id_in (st_heap s)) array.
Proof.
  unfold uniq_by_id. intros H. stepn H kept s1 E1.
  apply ret_some in H. destruct H as [-> ->].
  apply (uniq_fold_some (id_in (st_heap s)) array [] [] []) in E1; auto.
Qed.

Lemma keep_first_from_In idf prev l x : In x (keep_first_from idf prev l) -> In x l.
Proof.
  revert prev. induction l as [|y l IH]; intros prev; simpl; auto.
  intros H. apply in_app_or in H. destruct H as [H|H].
  - destruct (existsb _ prev); simpl in H; [destruct H | destruct H as [->|[]]; auto].
  - right. eapply IH. exact H.
Qed.

(** The kept elements have pairwise distinct ids, also distinct from
    those of [prev]. *)
Lemma keep_first_from_distinct idf prev l :
  ForallOrdPairs (fun x y => strict_eq (idf x) (idf y) = false)
                 (keep_first_from idf prev l) /\
  (forall x y, In y prev -> In x (keep_first_from idf prev l) ->
     strict_eq (idf y) (idf x) = false).
Proof.
  revert prev. induction l as [|z l IH]; intros prev; simpl.
  - split; [constructor | intros x y _ []].
  - destruct (IH (prev ++ [z])) as [IH1 IH2].
    destruct (existsb (fun y => strict_eq (idf y) (idf z)) prev) eqn:Ez; simpl.
    + split; [exact IH1|]. intros x y Hy Hx. apply IH2; auto.
      apply in_or_app. auto.
    + split.
      * constructor; [|exact IH1]. apply Forall_forall. intros x Hx.
        apply IH2; [apply in_or_app; right; left; reflexivity | exact Hx].
      * intros x y Hy [<-|Hx].
        -- destruct (strict_eq (idf y) (idf z)) eqn:E; auto.
           assert (existsb (fun y => strict_eq (idf y) (idf z)) prev = true)
             by (apply existsb_exists; eauto). congruence.
        -- apply IH2; auto. apply in_or_app. auto.
Qed.

Lemma keep_first_nonempty idf x l : keep_first idf (x :: l) <> [].
Proof. unfold keep_first. simpl. discriminate. Qed.

Lemma not_in_keys_get {A} k (d : list (string * A)) :
  ~ In k (map fst d) -> assoc_get k d = None.
Proof.
  induction d as [|[k' v] d IH]; simpl; auto. intros Hn.
  destruct (String.eqb k k') eqn:E; [|apply IH; tauto].
  apply String.eqb_eq in E. subst. tauto.
Qed.

Lemma in_keys_get {A} k (d : list (string * A)) :
  In k (map fst d) -> exists v, assoc_get k d = Some v.
Proof.
  induction d as [|[k' v] d IH]; simpl; [intros []|]. intros Hk.
  destruct (String.eqb k k') eqn:E; eauto. apply IH. destruct Hk as [->|]; auto.
  rewrite String.eqb_refl in E. discriminate.
Qed.

(** The pruning loop of lines 177-186. *)
Lemma prune_iter_some docId ks s u s' :
  iterM (fun key =>
           if String.eqb key docId then ret tt
           else
             array <- json_get key ;;
             match array with
             | [] => json_del key
             | _ => u <- uniq_by_id array ;; json_set key u
             end) ks s = Some (u, s') ->
  NoDup ks ->
  st_heap s' = st_heap s /\ st_next s' = st_next s /\
  (forall k, (k = docId \/ ~ In k ks) ->
     assoc_get k (st_json s') = assoc_get k (st_json s)) /\
  (forall k, In k ks -> k <> docId ->
     exists b, assoc_get k (st_json s) = Some b /\
       assoc_get k (st_json s') =
         match b with [] => None | _ => Some (keep_first (id_in (st_heap s)) b) end).
Proof.
  revert s. induction ks as [|k ks IH]; intros s H Hnd; simpl in H.
  - apply ret_some in H. destruct H as [_ ->]. split; auto. split; auto.
    split; auto. intros k [].
  - inversion Hnd as [|? ? Hk Hnd']; subst.
    stepn H u1 s1 E1. destruct (IH s1 H Hnd') as (I1 & I2 & I3 & I4).
    destruct (String.eqb k docId) eqn:Ekd.
    + apply String.eqb_eq in Ekd. subst k.
      apply ret_some in E1. destruct E1 as [_ ->].
      split; auto. split; auto. split.
      * intros k' Hk'. apply I3. destruct Hk' as [->|Hk']; auto.
        right. intros Hin. apply Hk'. right. exact Hin.
      * intros k' [->|Hin] Hne; [congruence|]. auto.
    + assert (Hkd : k <> docId) by (intros ->; rewrite String.eqb_refl in Ekd; discriminate).
      stepn E1 b s2 E2. apply json_get_some in E2. destruct E2 as [-> Hb].
      assert (S1 : st_heap s1 = st_heap s /\ st_next s1 = st_next s /\
        (forall k', k' <> k -> assoc_get k' (st_json s1) = assoc_get k' (st_json s)) /\
        assoc_get k (st_json s1) =
          match b with [] => None | _ => Some (keep_first (id_in (st_heap s)) b) end).
      { destruct b as [|x b'].
        - apply json_del_some in E1. subst s1. simpl.
          split; auto. split; auto. split; [|apply assoc_get_del_eq].
          intros k' Hk'. apply assoc_get_del_neq. auto.
        - stepn E1 u2 s3 E3. apply uniq_by_id_some in E3. destruct E3 as [-> ->].
          apply json_set_some in E1. subst s1. simpl.
          split; auto. split; auto. split; [|apply assoc_get_set_eq].
          intros k' Hk'. apply assoc_get_set_neq. auto. }
      destruct S1 as (S1 & S2 & S3 & S4).
      split; [congruence|]. split; [congruence|]. split.
      * intros k' Hk'. rewrite I3.
        -- apply S3. intros ->. destruct Hk' as [->|Hk']; auto. apply Hk'. left. reflexivity.
        -- destruct Hk' as [->|Hk']; auto. right. intros Hin. apply Hk'. right. exact Hin.
      * intros k' [<-|Hin] Hne.
        -- exists b. split; auto. rewrite I3 by auto. exact S4.
        -- destruct (I4 k' Hin Hne) as (b' & Hb' & Hf). exists b'.
           rewrite <- S1. split; auto. rewrite <- S3; auto. intros ->. auto.
Qed.

Lemma linkAssociations_links pl sails mdl v s out s' :
  linkAssociations pl sails mdl v s = Some (out, s') ->
  forall l, opt_links_step (st_heap s l) (st_heap s' l).
Proof.
  intros H l. apply linkAssociations_heap in H. destruct H as (_ & _ & _ & Hh).
  rewrite Hh. destruct (_ && _)%bool; [|apply opt_links_step_refl].
  destruct (st_heap s l); simpl; auto. right. eexists. split; [|reflexivity].
  apply links_of_strings.
Qed.

(** The links loop of lines 189-197 only sets [links] maps, on the records
    of the sideloaded buckets. *)
Lemma link_buckets_some pl sails docId s u s' :
  link_buckets pl sails docId s = Some (u, s') ->
  st_json s' = st_json s /\ st_next s' = st_next s /\
  (forall l, opt_links_step (st_heap s l) (st_heap s' l)) /\
  (forall l, (forall k b, k <> docId -> assoc_get k (st_json s) = Some b ->
                existsb (is_obj_at l) b = false) ->
     st_heap s' l = st_heap s l).
Proof.
  unfold link_buckets. intros H. stepn H ks s1 E1. apply json_keys_some in E1.
  destruct E1 as [-> _]. revert s H.
  induction ks as [|k ks IH]; intros s H.
  - apply ret_some in H. destruct H as [_ ->].
    split; auto. split; auto. split; auto. intros l. apply opt_links_step_refl.
  - simpl in H. stepn H u1 s1 E1. destruct (IH s1 H) as (I1 & I2 & I3 & I4).
    assert (S : st_json s1 = st_json s /\ st_next s1 = st_next s /\
      (forall l, opt_links_step (st_heap s l) (st_heap s1 l)) /\
      (forall l, (forall k b, k <> docId -> assoc_get k (st_json s) = Some b ->
                existsb (is_obj_at l) b = false) -> st_heap s1 l = st_heap s l)).
    { destruct (String.eqb k docId) eqn:Ekd;
        [apply ret_some in E1; destruct E1 as [_ ->];
         split; auto; split; auto; split; auto; intros; apply opt_links_step_refl|].
      assert (Hkd : k <> docId) by (intros ->; rewrite String.eqb_refl in Ekd; discriminate).
      stepn E1 b s2 E2. apply json_get_some in E2. destruct E2 as [-> Hb].
      destruct b as [|x b'];
        [apply ret_some in E1; destruct E1 as [_ ->];
         split; auto; split; auto; split; auto; intros; apply opt_links_step_refl|].
      destruct (is_number_or_string x);
        [apply ret_some in E1; destruct E1 as [_ ->];
         split; auto; split; auto; split; auto; intros; apply opt_links_step_refl|].
      stepn E1 m s3 E3. apply models_get_some in E3. destruct E3 as [-> _].
      stepn E1 out s4 E4. apply ret_some in E1. destruct E1 as [_ ->].
      pose proof E4 as E4'. apply linkAssociations_heap in E4'.
      destruct E4' as (Hout & Hj & Hn & Hh).
      split; auto. split; auto. split; [eapply linkAssociations_links; exact E4|].
      intros l Hl. rewrite Hh, Hout, (Hl k (x :: b') Hkd Hb), andb_false_r. reflexivity. }
    destruct S as (S1 & S2 & S3 & S4).
    split; [congruence|]. split; [congruence|]. split.
    + intros l. eapply opt_links_step_trans; [apply S3 | apply I3].
    + intros l Hl. rewrite I4, S4; auto. rewrite S1. exact Hl.
Qed.

(** Lines 174-198: the primary bucket stays, an empty sideload bucket is
    dropped, the others are deduplicated by id keeping the first
    occurrence; objects only get [links] maps, none above [n0] when the
    buckets are below it. *)
Lemma finish_sideload_spec pl sails docId n0 s u s' :
  finish_sideload pl sails docId s = Some (u, s') ->
  NoDup (map fst (st_json s)) ->
  st_next s' = st_next s /\
  (forall l, opt_links_step (st_heap s l) (st_heap s' l)) /\
  assoc_get docId (st_json s') = assoc_get docId (st_json s) /\
  (forall k, k <> docId ->
     assoc_get k (st_json s') =
       match assoc_get k (st_json s) with
       | None | Some [] => None
       | Some b => Some (keep_first (id_in (st_heap s)) b)
       end) /\
  (closed_json n0 docId (st_json s) ->
   forall l, (n0 <= l)%N -> st_heap s' l = st_heap s l).
Proof.
  intros H Hnd. unfold finish_sideload, prune_buckets in H.
  stepn H u1 s1 E1. stepn E1 ks s2 E2. apply json_keys_some in E2.
  destruct E2 as [-> ->].
  apply prune_iter_some in E1; [|exact Hnd]. destruct E1 as (P1 & P2 & P3 & P4).
  apply link_buckets_some in H. destruct H as (L1 & L2 & L3 & L4).
  assert (Hk : forall k, k <> docId ->
     assoc_get k (st_json s1) =
       match assoc_get k (st_json s) with
       | None | Some [] => None
       | Some b => Some (keep_first (id_in (st_heap s)) b)
       end).
  { intros k Hkd. destruct (in_dec string_dec k (map fst (st_json s))) as [Hin|Hin].
    - destruct (P4 k Hin Hkd) as (b & Hb & Hf). rewrite Hb, Hf.
      destruct b; reflexivity.
    - rewrite P3 by auto. rewrite not_in_keys_get by auto. reflexivity. }
  split; [congruence|]. split.
  - intros l. rewrite <- P1. apply L3.
  - split; [rewrite L1; apply P3; auto|]. split; [intros k Hkd; rewrite L1; auto|].
    intros Hcj l Hl. rewrite L4, P1; auto.
    intros k b Hkd Hb. rewrite Hk in Hb by exact Hkd.
    destruct (assoc_get k (st_json s)) as [b0|] eqn:Hb0; [|discriminate].
    destruct b0 as [|y b0]; [discriminate|]. inversion Hb; subst b.
    apply (not_in_below_existsb n0); [|exact Hl].
    apply forallb_forall. intros x Hx. apply keep_first_from_In in Hx.
    pose proof (closed_json_get _ _ _ _ _ Hcj Hkd Hb0) as Hfb.
    rewrite forallb_forall in Hfb. apply Hfb. exact Hx.
Qed.

(** ** Whole runs *)

Lemma bind_ext_l {A B} (m1 m2 : M A) (k : A -> M B) s :
  m1 s = m2 s -> bind m1 k s = bind m2 k s.
Proof. unfold bind. intros ->. reflexivity. Qed.

Lemma bind_ext_r {A B} (m : M A) (k1 k2 : A -> M B) s :
  (forall a s1, m s = Some (a, s1) -> k1 a s1 = k2 a s1) ->
  bind m k1 s = bind m k2 s.
Proof. unfold bind. destruct (m s) as [[a s1]|]; auto. Qed.

Lemma prepareOneRecord_obj pl sails emi docId assocs sideload ar v s r s' :
  prepareOneRecord pl sails emi docId assocs sideload ar v s = Some (r, s') ->
  r = VObj (st_next s).
Proof.
  unfold prepareOneRecord. intros H. stepn H props s1 E1.
  apply toJSON_some in E1. destruct E1 as [-> _]. stepn H rec s2 E2.
  apply alloc_some in E2. destruct E2 as [-> ->].
  stepn H L s3 E3. stepn H u4 s4 E4. apply ret_some in H. destruct H as [-> _].
  reflexivity.
Qed.

Lemma pres_after {A B} (P : St -> Prop) (m : M A) (k : A -> M B) s b s' :
  (forall a s1, m s = Some (a, s1) -> P s1) -> (forall a, pres P (k a)) ->
  bind m k s = Some (b, s') -> P s'.
Proof. intros Hm Hk H. stepn H a s1 E1. eapply Hk; [eapply Hm; exact E1 | exact H]. Qed.

(** The document [build_records] leaves has distinct keys, whatever the
    state it starts from. *)
Lemma build_records_nodup_any pl sails mdl records assocs sideload ar s u s' :
  build_records pl sails mdl records assocs sideload ar s = Some (u, s') ->
  json_nodup s'.
Proof.
  intros H. unfold build_records in H. cbv zeta in H.
  eapply pres_after; [| |exact H].
  - intros a s1 E. unfold init_document in E. eapply pres_after; [| |exact E].
    + intros a' s2 E'. inversion E'; subst. unfold json_nodup. simpl.
      constructor; [intros []|constructor].
    + intros a0. unfold prepare_sideload. pres_auto.
  - intros a0. unfold prepareOneRecord, prepare_assoc, via_key,
      sideload_collection, index_collection, index_row, link_collection,
      sideload_model.
    pres_auto.
Qed.

Lemma buildResponse_run pl sails mdl records assocs sideload ar s d s' :
  buildResponse pl sails mdl records assocs sideload ar s = Some (d, s') ->
  exists sm, build_records pl sails mdl records assocs sideload ar s = Some (tt, sm) /\
    d = st_json s' /\
    (if sideload
     then finish_sideload pl sails (convertModelName pl sails (globalId mdl) true) sm
            = Some (tt, s')
     else s' = sm).
Proof.
  unfold buildResponse. intros H. stepn H u1 s1 E1. destruct u1.
  stepn H u2 s2 E2. destruct u2. inversion H; subst.
  exists s1. split; auto. split; auto.
  destruct sideload; [exact E2|]. apply ret_some in E2. destruct E2 as [_ ->].
  reflexivity.
Qed.

(** The root bucket of the returned document: one clone per record, in
    order, as [prepareOneRecord] built it; the objects that existed before
    the call at most get a [links] map. *)
Lemma buildResponse_root pl sails mdl records assocs sideload ar s d s' :
  buildResponse pl sails mdl records assocs sideload ar s = Some (d, s') ->
  closed_heap (st_next s) (st_heap s) -> below (st_next s) records = true ->
  below (st_next s) ar = true ->
  (forall l, (l < st_next s)%N -> opt_links_step (st_heap s l) (st_heap s' l)) /\
  exists root,
    assoc_get (convertModelName pl sails (globalId mdl) true) d = Some root /\
    Forall2 (fun r v => exists s1 s2 c,
       prepareOneRecord pl sails (globalId mdl)
         (convertModelName pl sails (globalId mdl) true) assocs sideload ar r s1
         = Some (VObj c, s2) /\
       v = VObj c /\ st_heap s' c = st_heap s2 c /\
       closed (st_next s) (convertModelName pl sails (globalId mdl) true) s1 /\
       (st_next s <= st_next s1)%N /\ below (st_next s) r = true /\
       (forall l, (l < st_next s)%N -> opt_links_step (st_heap s l) (st_heap s1 l)))
      (records_list records) root.
Proof.
  intros H Hh Hr Har. apply buildResponse_run in H. destruct H as (sm & Hb & -> & Hf).
  set (docId := convertModelName pl sails (globalId mdl) true) in *.
  pose proof (build_records_nodup_any _ _ _ _ _ _ _ _ _ _ Hb) as Hnd.
  destruct (build_records_spec pl sails (st_next s) docId mdl records assocs sideload
              ar s tt sm Hb eq_refl eq_refl Hh Hr Har)
    as (Hcl & Hn & F & root & Hroot & HF).
  assert (Fin : (forall l, opt_links_step (st_heap sm l) (st_heap s' l)) /\
                assoc_get docId (st_json s') = assoc_get docId (st_json sm) /\
                (forall l, (st_next s <= l)%N -> st_heap s' l = st_heap sm l)).
  { destruct sideload.
    - destruct (finish_sideload_spec pl sails docId (st_next s) sm tt s' Hf Hnd)
        as (_ & G1 & G2 & _ & G4).
      split; auto. split; auto. apply G4. apply Hcl.
    - subst s'. split; [intros; apply opt_links_step_refl|]. auto. }
  destruct Fin as (G1 & G2 & G4).
  split.
  - intros l Hl. eapply opt_links_step_trans; [apply F; exact Hl | apply G1].
  - exists root. split; [rewrite G2; exact Hroot|].
    eapply Forall2_impl; [|exact HF].
    intros r v (s1 & s2 & c & P1 & P2 & P3 & P4 & P5 & P6 & P7).
    exists s1, s2, c. split; [exact P1|]. split; [exact P2|].
    split; [|auto].
    pose proof (prepareOneRecord_obj _ _ _ _ _ _ _ _ _ _ _ P1) as Hc.
    injection Hc as Hc'. rewrite G4; [exact P3|]. rewrite Hc'. exact P5.
Qed.

Lemma field_in_obj_id h c o : h c = Some o -> field_in h (VObj c) "id" = id_of o.
Proof. intros Hc. unfold field_in, get_prop. rewrite Hc. reflexivity. Qed.

Lemma sideload_collection_skip pl sails sideload K am record a s u s' :
  opt_is (include a) "record" = false ->
  sideload_collection pl sails sideload K am record a s = Some (u, s') -> s' = s.
Proof.
  intros Hi H. unfold sideload_collection in H. rewrite Hi, andb_false_r in H.
  stepn H go s1 E1. apply ret_some in E1. destruct E1 as [-> ->].
  apply ret_some in H. destruct H as [_ ->]. reflexivity.
Qed.

Lemma index_collection_skip ar record via a s u s' :
  opt_is (include a) "index" = false ->
  index_collection ar record via a s = Some (u, s') -> s' = s.
Proof.
  intros Hi H. unfold index_collection in H. rewrite Hi in H.
  apply ret_some in H. destruct H as [_ ->]. reflexivity.
Qed.

Lemma links_step_id o o' : links_step o o' -> id_of o' = id_of o.
Proof. intros H. unfold id_of. rewrite (links_step_get o o' "id" H); [reflexivity | discriminate]. Qed.

(** A read of a property other than [links] through a value below [n0]
    does not see the [links] maps added below [n0]. *)
Lemma field_in_links_step n0 h h' v k :
  (forall l, (l < n0)%N -> opt_links_step (h l) (h' l)) ->
  below n0 v = true -> k <> "links" -> field_in h' v k = field_in h v k.
Proof.
  intros Hs Hv Hk. unfold field_in, get_prop. destruct v; auto.
  simpl in Hv. apply N.ltb_lt in Hv. specialize (Hs l Hv).
  destruct (h l) as [o|], (h' l) as [o'|]; simpl in Hs; try tauto.
  rewrite (links_step_get o o' k Hs Hk). reflexivity.
Qed.

Lemma get_prop_links_step n0 h h' v k :
  (forall l, (l < n0)%N -> opt_links_step (h l) (h' l)) ->
  below n0 v = true -> k <> "links" -> get_prop h' v k = get_prop h v k.
Proof.
  intros Hs Hv Hk. unfold get_prop. destruct v; auto.
  simpl in Hv. apply N.ltb_lt in Hv. specialize (Hs l Hv).
  destruct (h l) as [o|], (h' l) as [o'|]; simpl in Hs; try tauto.
  rewrite (links_step_get o o' k Hs Hk). reflexivity.
Qed.

Lemma index_pick_links_step n0 h h' rows via pick rid :
  (forall l, (l < n0)%N -> opt_links_step (h l) (h' l)) ->
  forallb (below n0) rows = true -> via <> "links" -> pick <> "links" ->
  index_pick h' rows via pick rid = index_pick h rows via pick rid.
Proof.
  intros Hs Hr Hv Hp. unfold index_pick.
  induction rows as [|x rows IH]; simpl; auto.
  simpl in Hr. apply andb_prop in Hr. destruct Hr as [Hx Hr].
  rewrite (field_in_links_step n0 h h' x via Hs Hx Hv).
  destruct (strict_eq _ _); simpl; rewrite IH by exact Hr; auto.
  rewrite (field_in_links_step n0 h h' x pick Hs Hx Hp). reflexivity.
Qed.

Section Assoc.

Variable pl : Pluralize.
Variable sails : Sails.
Variable n0 : loc.
Variable docId : string.

(** A hyperlinked collection (lines 139-142): the field goes, the link
    comes, built from the clone's id. *)
Lemma prepare_assoc_link emi sideload ar c L a s L' s' :
  prepare_assoc pl sails emi docId sideload ar (VObj c) L a s = Some (L', s') ->
  (n0 <= c)%N -> type a = "collection" -> include a = Some "link" ->
  forall o, st_heap s c = Some o ->
  (exists o', st_heap s' c = Some o' /\ assoc_get (alias a) o' = None) /\
  assoc_get (alias a) L' =
    Some (VStr (url [blueprints_prefix sails; "/"; docId; "/";
                     to_js_string (id_of o); "/"; alias a])).
Proof.
  intros H Hc Ht Hi o Ho. unfold prepare_assoc in H.
  stepn H m s1 E1. apply models_get_some in E1. destruct E1 as [-> _].
  assert (Em : String.eqb "collection" "model" = false) by reflexivity.
  rewrite Ht, String.eqb_refl, Em in H.
  stepn H L1 s2 E2. stepn E2 v s3 E3. apply via_key_some in E3. destruct E3 as [-> _].
  stepn E2 u4 s4 E4. apply sideload_collection_skip in E4; [|rewrite Hi; reflexivity].
  subst s4.
  stepn E2 u5 s5 E5. apply index_collection_skip in E5; [|rewrite Hi; reflexivity].
  subst s5.
  apply (link_collection_spec sails n0 docId) in E2; [|exact Hc].
  destruct E2 as (_ & HL & Hdel).
  assert (Hil : opt_is (include a) "link" = true) by (rewrite Hi; reflexivity).
  rewrite Hil in HL. cbv beta iota in HL.
  stepn H u6 s6 E6. apply ret_some in E6. destruct E6 as [_ ->].
  apply ret_some in H. destruct H as [-> ->].
  split; [apply Hdel; exact Hil|].
  subst L1. rewrite assoc_get_set_eq, (field_in_obj_id _ _ _ Ho). reflexivity.
Qed.

(** An index collection (lines 125-137): the field becomes the picked
    ids of the rows. *)
Lemma prepare_assoc_index emi sideload ar c L a s L' s' rows w :
  prepare_assoc pl sails emi docId sideload ar (VObj c) L a s = Some (L', s') ->
  (n0 <= c)%N -> closed n0 docId s -> below n0 ar = true ->
  type a = "collection" -> include a = Some "index" ->
  get_prop (st_heap s) ar (alias a) = Some (VArr rows) -> via a = Some w ->
  forall o, st_heap s c = Some o ->
  exists o', st_heap s' c = Some o' /\
    assoc_get (alias a) o' =
      Some (VArr (index_pick (st_heap s) rows (singular pl w) (pick_key a) (id_of o))).
Proof.
  intros H Hc Hcl Har Ht Hi Hrows Hw o Ho. unfold prepare_assoc in H.
  stepn H m s1 E1. apply models_get_some in E1. destruct E1 as [-> _].
  assert (Em : String.eqb "collection" "model" = false) by reflexivity.
  rewrite Ht, String.eqb_refl, Em in H.
  stepn H L1 s2 E2. stepn E2 v s3 E3. apply via_key_some in E3.
  destruct E3 as [-> (w' & Hw' & ->)]. rewrite Hw in Hw'. injection Hw' as <-.
  stepn E2 u4 s4 E4. apply sideload_collection_skip in E4; [|rewrite Hi; reflexivity].
  subst s4.
  stepn E2 u5 s5 E5. apply (index_collection_spec n0 docId) in E5; auto.
  destruct E5 as [_ Hidx].
  destruct (Hidx ltac:(rewrite Hi; reflexivity) (VArr rows) Hrows eq_refl)
    as (o' & Ho' & Ha).
  unfold link_collection in E2. rewrite Hi in E2. cbv beta iota in E2.
  apply ret_some in E2. destruct E2 as [-> ->].
  stepn H u6 s6 E6. apply ret_some in E6. destruct E6 as [_ ->].
  apply ret_some in H. destruct H as [-> ->].
  exists o'. split; [exact Ho'|]. rewrite Ha, (field_in_obj_id _ _ _ Ho). reflexivity.
Qed.

(** One association inside [prepareOneRecord]: its step starts from a
    clone that still has the record's field, and what it leaves at its
    alias (in the clone and in the links) is what the output shows. *)
Lemma prepareOneRecord_at emi assocs sideload ar v s r s' a :
  prepareOneRecord pl sails emi docId assocs sideload ar v s = Some (r, s') ->
  closed n0 docId s -> (n0 <= st_next s)%N -> below n0 v = true ->
  below n0 ar = true -> NoDup (map alias assocs) -> In a assocs ->
  alias a <> "links" ->
  exists l o1 L1 sa1 L2 sa2 oa,
    v = VObj l /\ st_heap s l = Some o1 /\ r = VObj (st_next s) /\
    closed n0 docId sa1 /\
    (forall l', (l' < n0)%N -> opt_links_step (st_heap s l') (st_heap sa1 l')) /\
    st_heap sa1 (st_next s) = Some oa /\
    (forall k, (k = alias a \/ ~ In k (map alias assocs)) ->
       assoc_get k oa = assoc_get k o1) /\
    prepare_assoc pl sails emi docId sideload ar (VObj (st_next s)) L1 a sa1
      = Some (L2, sa2) /\
    (forall oa2, st_heap sa2 (st_next s) = Some oa2 ->
       exists o', st_heap s' (st_next s) = Some o' /\
         assoc_get (alias a) o' = assoc_get (alias a) oa2 /\
         (forall x, assoc_get (alias a) L2 = Some x ->
            exists L, assoc_get "links" o' = Some (VDict L) /\
                      assoc_get (alias a) L = Some x)).
Proof.
  intros H Hcl Hn Hv Har Hnd Hin Hal.
  pose proof H as H'. apply (prepareOneRecord_spec pl sails n0 docId) in H'; auto.
  destruct H' as (l & o1 & L & sB & oB & -> & Hl & -> & Hfold & HoB & Hs' & HLs &
                  KB & N3 & F3 & G3 & Hcl3).
  set (c := st_next s) in *.
  assert (HclA : closed n0 docId {| st_heap := heap_upd (st_heap s) c o1;
                                    st_next := N.succ c; st_json := st_json s |}).
  { split; [|apply Hcl]. apply closed_heap_upd; [apply Hcl | apply (proj1 Hcl l o1 Hl)]. }
  assert (Hc : (n0 <= c)%N) by (unfold c; lia).
  pose proof (prep_fold_at pl sails n0 docId _ _ _ _ _ _ _ _ _ a Hfold Hc HclA Har Hnd Hin)
    as (ks1 & ks2 & L1 & sa1 & L2 & sa2 & N1 & N2 & I1 & Ea & Eb & Ec & Ed).
  destruct (Ea HclA) as (_ & Fa & _ & Ca & Hcla).
  destruct (Ca o1) as (oa & Hoa & Koa); [simpl; apply heap_upd_eq|].
  pose proof Eb as Eb'. apply (prepare_assoc_eff pl sails n0 docId) in Eb'; auto.
  destruct Eb' as (Effb & _ & _). destruct (Effb Hcla) as (_ & _ & _ & _ & Hclb).
  destruct (Ec Hclb) as (_ & _ & _ & Cc & _).
  exists l, o1, L1, sa1, L2, sa2, oa.
  split; [reflexivity|]. split; [exact Hl|]. split; [reflexivity|].
  split; [exact Hcla|].
  split.
  { intros l' Hl'. rewrite <- (heap_upd_neq (st_heap s) c l' o1) by (unfold c in *; lia).
    apply Fa. exact Hl'. }
  split; [exact Hoa|].
  split.
  { intros k Hk. apply Koa. intros Hks.
    destruct Hk as [->|Hk]; [exact (N1 Hks) | exact (Hk (I1 _ Hks))]. }
  split; [exact Eb|].
  intros oa2 Hoa2. destruct (Cc oa2 Hoa2) as (o'' & Ho'' & Ko'').
  rewrite HoB in Ho''. injection Ho'' as <-.
  assert (HaB : assoc_get (alias a) oB = assoc_get (alias a) oa2) by (apply Ko''; exact N2).
  exists (if Nat.ltb 0 (List.length L) then assoc_set "links" (VDict L) oB else oB).
  split; [exact Hs'|]. split.
  - destruct (Nat.ltb _ _); [rewrite assoc_get_set_neq by congruence|]; exact HaB.
  - intros x Hx. rewrite <- Ed in Hx.
    destruct L as [|kv L0]; [discriminate|]. simpl.
    exists (kv :: L0). split; [apply assoc_get_set_eq | exact Hx].
Qed.

End Assoc.

Lemma not_in_aliases k assocs :
  Forall (fun b => alias b <> k) assocs -> ~ In k (map alias assocs).
Proof.
  intros Hal Hx. apply in_map_iff in Hx. destruct Hx as (b & Hb & Hbin).
  rewrite Forall_forall in Hal. exact (Hal b Hbin Hb).
Qed.

Lemma links_step_of_opt x o' :
  opt_links_step x (Some o') -> exists o, x = Some o /\ links_step o o'.
Proof. destruct x as [o|]; simpl; [eauto | tauto]. Qed.

Lemma ForallOrdPairs_impl' {A} (P Q : A -> A -> Prop) l :
  (forall x y, P x y -> Q x y) -> ForallOrdPairs P l -> ForallOrdPairs Q l.
Proof.
  intros HPQ H. induction H as [|x l Hx H IH]; constructor; auto.
  eapply Forall_impl; [|exact Hx]. auto.
Qed.

Lemma id_in_links_step h h' v :
  (forall l, opt_links_step (h l) (h' l)) -> id_in h' v = id_in h v.
Proof.
  intros Hs. unfold id_in, get_prop. destruct v; auto. specialize (Hs l).
  destruct (h l) as [o|], (h' l) as [o'|]; simpl in Hs; try tauto.
  rewrite (links_step_get o o' "id" Hs); [reflexivity | discriminate].
Qed.

(** ** Untouched buckets *)

Lemma pres_bucket_same {A} (m : M A) k x :
  (forall s a s', m s = Some (a, s') -> st_json s' = st_json s) ->
  pres (fun s => assoc_get k (st_json s) = x) m.
Proof. intros H s a s' Hs E. rewrite (H _ _ _ E). exact Hs. Qed.

Lemma getM_json v k s a s' : getM v k s = Some (a, s') -> st_json s' = st_json s.
Proof. intros E. apply getM_some in E. destruct E as [-> _]. reflexivity. Qed.

Lemma setM_json v k x s a s' : setM v k x s = Some (a, s') -> st_json s' = st_json s.
Proof. intros E. apply setM_some in E. destruct E as [(l & o & _ & _ & ->) | (-> & _)]; reflexivity. Qed.

Lemma delM_json v k s a s' : delM v k s = Some (a, s') -> st_json s' = st_json s.
Proof. intros E. apply delM_some in E. destruct E as [(l & o & _ & _ & ->) | (-> & _)]; reflexivity. Qed.

Lemma values_of_json v s a s' : values_of v s = Some (a, s') -> st_json s' = st_json s.
Proof. intros E. apply values_of_some in E. destruct E as [-> _]. reflexivity. Qed.

Lemma json_get_json k s a s' : json_get k s = Some (a, s') -> st_json s' = st_json s.
Proof. intros E. apply json_get_some in E. destruct E as [-> _]. reflexivity. Qed.

Lemma models_get_json sails k s a s' : models_get sails k s = Some (a, s') -> st_json s' = st_json s.
Proof. intros E. apply models_get_some in E. destruct E as [-> _]. reflexivity. Qed.

Lemma linkAssociations_json pl sails mdl v s a s' :
  linkAssociations pl sails mdl v s = Some (a, s') -> st_json s' = st_json s.
Proof. intros E. apply linkAssociations_heap in E. apply E. Qed.

Lemma json_set_bucket k k' b x :
  k' <> k -> pres (fun s => assoc_get k (st_json s) = x) (json_set k' b).
Proof.
  intros Hk s a s' Hs E. apply json_set_some in E. subst s'. simpl.
  rewrite assoc_get_set_neq by exact Hk. exact Hs.
Qed.

Create HintDb jsame.

#[local] Hint Resolve getM_json setM_json delM_json values_of_json json_get_json
  models_get_json linkAssociations_json : jsame.

Ltac bucket_auto :=
  repeat (cbv beta zeta;
    match goal with
    | |- pres _ (bind _ _) => apply pres_bind; [|intro]
    | |- pres _ (foldM _ _ _) => apply pres_foldM; intros
    | |- pres _ (mapM _ _) => apply pres_mapM; intros
    | |- pres _ (if ?b then _ else _) => destruct b
    | |- pres _ (match ?x with _ => _ end) => destruct x
    | |- pres _ (json_set _ _) => apply json_set_bucket; assumption
    | |- pres _ (ret _) => apply pres_ret
    | |- pres _ throw => apply pres_throw
    | |- pres _ _ =>
        apply pres_bucket_same; intros ? ? ? ?E; solve [eauto with jsame]
    end).

Lemma sideload_collection_bucket pl sails sideload K' am record a k x :
  K' <> k ->
  pres (fun s => assoc_get k (st_json s) = x)
       (sideload_collection pl sails sideload K' am record a).
Proof. intros Hk. unfold sideload_collection. bucket_auto. Qed.

Lemma sideload_model_bucket pl sails sideload K' record a k x :
  K' <> k ->
  pres (fun s => assoc_get k (st_json s) = x)
       (sideload_model pl sails sideload K' record a).
Proof. intros Hk. unfold sideload_model, models_get. bucket_auto. Qed.

Lemma index_collection_bucket ar record via a k x :
  pres (fun s => assoc_get k (st_json s) = x) (index_collection ar record via a).
Proof. unfold index_collection, index_row. bucket_auto. Qed.

Lemma link_collection_bucket sails docId record L a k x :
  pres (fun s => assoc_get k (st_json s) = x) (link_collection sails docId record L a).
Proof. unfold link_collection. bucket_auto. Qed.

(** ** Empty embedded fields *)

Lemma opt_is_some o x : opt_is o x = true -> o = Some x.
Proof.
  destruct o as [y|]; simpl; [|discriminate]. intros E.
  apply String.eqb_eq in E. subst. reflexivity.
Qed.

Lemma empty_field_get h c oa k f :
  h c = Some oa -> empty_field (assoc_get k oa) = true ->
  get_prop h (VObj c) k = Some f -> f = VUndef \/ f = VNull \/ f = VArr [].
Proof.
  intros Hc He Hf. simpl in Hf. rewrite Hc in Hf. injection Hf as <-.
  destruct (assoc_get k oa) as [[| | | | |[|]| |]|]; simpl in He;
    try discriminate; auto.
Qed.

Lemma sideload_collection_empty pl sails sideload K am c a s u s' oa :
  st_heap s c = Some oa -> empty_field (assoc_get (alias a) oa) = true ->
  sideload_collection pl sails sideload K am (VObj c) a s = Some (u, s') -> s' = s.
Proof.
  intros Hc He H. unfold sideload_collection in H.
  stepn H go s1 E1.
  assert (go = false /\ s1 = s) as [-> ->].
  { destruct (_ && _)%bool; [|apply ret_some in E1; exact E1].
    stepn E1 f s2 E2. apply getM_some in E2. destruct E2 as [-> Hf].
    destruct (empty_field_get _ _ _ _ _ Hc He Hf) as [->|[->| ->]];
      cbn [truthy] in E1; [apply ret_some in E1; exact E1 | apply ret_some in E1; exact E1|].
    stepn E1 len s3 E3. apply getM_some in E3. destruct E3 as [-> Hlen].
    injection Hlen as <-. apply ret_some in E1. exact E1. }
  apply ret_some in H. destruct H as [_ ->]. reflexivity.
Qed.

Lemma sideload_model_empty pl sails sideload K c a s u s' oa :
  st_heap s c = Some oa -> empty_field (assoc_get (alias a) oa) = true ->
  sideload_model pl sails sideload K (VObj c) a s = Some (u, s') -> s' = s.
Proof.
  intros Hc He H. unfold sideload_model in H.
  stepn H f s1 E1. apply getM_some in E1. destruct E1 as [-> Hf].
  destruct (empty_field_get _ _ _ _ _ Hc He Hf) as [->|[->| ->]];
    cbn [truthy] in H; try (apply ret_some in H; destruct H as [_ ->]; reflexivity).
  destruct (_ && _)%bool; [|apply ret_some in H; destruct H as [_ ->]; reflexivity].
  stepn H am s2 E2. stepn H linked s3 E3.
  apply linkAssociations_heap in E3. destruct E3 as (-> & _).
  stepn H bucket s4 E4. stepn H f' s5 E5. stepn H u6 s6 E6.
  stepn H x0 s7 E7. exfalso. exact (throw_some _ _ _ E7).
Qed.

Lemma sideload_model_skip pl sails sideload K record a s u s' :
  opt_is (include a) "record" = false ->
  sideload_model pl sails sideload K record a s = Some (u, s') -> s' = s.
Proof.
  intros Hi H. unfold sideload_model in H. rewrite Hi, andb_false_r in H.
  stepn H f s1 E1. apply getM_some in E1. destruct E1 as [-> _].
  destruct (truthy f); apply ret_some in H; destruct H as [_ ->]; reflexivity.
Qed.

(** An embedded collection whose field is empty: nothing happens. *)
Lemma prepare_assoc_empty pl sails emi docId sideload ar c L a s L' s' oa :
  prepare_assoc pl sails emi docId sideload ar (VObj c) L a s = Some (L', s') ->
  type a = "collection" -> include a = Some "record" ->
  st_heap s c = Some oa -> empty_field (assoc_get (alias a) oa) = true -> s' = s.
Proof.
  intros H Ht Hi Hc He. unfold prepare_assoc in H.
  stepn H m s1 E1. apply models_get_some in E1. destruct E1 as [-> _].
  assert (Em : String.eqb "collection" "model" = false) by reflexivity.
  rewrite Ht, String.eqb_refl, Em in H.
  stepn H L1 s2 E2. stepn E2 v s3 E3. apply via_key_some in E3. destruct E3 as [-> _].
  stepn E2 u4 s4 E4. apply (sideload_collection_empty _ _ _ _ _ _ _ _ _ _ oa Hc He) in E4.
  subst s4.
  stepn E2 u5 s5 E5. apply index_collection_skip in E5; [|rewrite Hi; reflexivity].
  subst s5.
  unfold link_collection in E2. rewrite Hi in E2. cbv beta iota in E2.
  apply ret_some in E2. destruct E2 as [-> ->].
  stepn H u6 s6 E6. apply ret_some in E6. destruct E6 as [_ ->].
  apply ret_some in H. destruct H as [_ ->]. reflexivity.
Qed.

(** One association leaves a bucket alone unless it sideloads into it
    from a non-empty field. *)
Lemma prepare_assoc_bucket pl sails emi docId sideload ar c L b s L' s' K oc :
  prepare_assoc pl sails emi docId sideload ar (VObj c) L b s = Some (L', s') ->
  st_heap s c = Some oc ->
  (opt_is (include b) "record" = true -> assoc_key pl sails b = Some K ->
   empty_field (assoc_get (alias b) oc) = true) ->
  assoc_get K (st_json s') = assoc_get K (st_json s).
Proof.
  intros H Hc Hemp. unfold prepare_assoc in H.
  stepn H m s1 E1. apply models_get_some in E1. destruct E1 as [-> Hm].
  set (K' := convertModelName pl sails (globalId m) true) in *.
  stepn H L1 s2 E2. stepn H u3 s3 E3. apply ret_some in H. destruct H as [-> ->].
  destruct (string_dec K' K) as [HK|HK].
  - assert (Hkey : assoc_key pl sails b = Some K)
      by (unfold assoc_key; rewrite Hm; rewrite <- HK; reflexivity).
    destruct (opt_is (include b) "record") eqn:Hir.
    + specialize (Hemp eq_refl Hkey). apply opt_is_some in Hir.
      assert (s2 = s) as ->.
      { destruct (String.eqb (type b) "collection").
        - stepn E2 v s4 E4. apply via_key_some in E4. destruct E4 as [-> _].
          stepn E2 u5 s5 E5.
          apply (sideload_collection_empty _ _ _ _ _ _ _ _ _ _ oc Hc Hemp) in E5.
          subst s5.
          stepn E2 u6 s6 E6. apply index_collection_skip in E6; [|rewrite Hir; reflexivity].
          subst s6.
          unfold link_collection in E2. rewrite Hir in E2. cbv beta iota in E2.
          apply ret_some in E2. apply E2.
        - apply ret_some in E2. apply E2. }
      assert (s3 = s) as ->; [|reflexivity].
      destruct (String.eqb (type b) "model").
      * exact (sideload_model_empty _ _ _ _ _ _ _ _ _ oc Hc Hemp E3).
      * apply ret_some in E3. apply E3.
    + assert (E2' : assoc_get K (st_json s2) = assoc_get K (st_json s)).
      { destruct (String.eqb (type b) "collection").
        - stepn E2 v s4 E4. apply via_key_some in E4. destruct E4 as [-> _].
          stepn E2 u5 s5 E5. apply sideload_collection_skip in E5; [|exact Hir].
          subst s5.
          stepn E2 u6 s6 E6.
          pose proof (index_collection_bucket _ _ _ _ K _ _ _ _ eq_refl E6) as P6.
          pose proof (link_collection_bucket _ _ _ _ _ K _ _ _ _ eq_refl E2) as P2.
          congruence.
        - apply ret_some in E2. destruct E2 as [_ ->]. reflexivity. }
      rewrite <- E2'. destruct (String.eqb (type b) "model").
      * apply sideload_model_skip in E3; [congruence | exact Hir].
      * apply ret_some in E3. destruct E3 as [_ ->]. reflexivity.
  - assert (E2' : assoc_get K (st_json s2) = assoc_get K (st_json s)).
    { destruct (String.eqb (type b) "collection").
      - stepn E2 v s4 E4. apply via_key_some in E4. destruct E4 as [-> _].
        stepn E2 u5 s5 E5.
        pose proof (sideload_collection_bucket _ _ _ _ _ _ _ K _ HK _ _ _ eq_refl E5) as P5.
        stepn E2 u6 s6 E6.
        pose proof (index_collection_bucket _ _ _ _ K _ _ _ _ eq_refl E6) as P6.
        pose proof (link_collection_bucket _ _ _ _ _ K _ _ _ _ eq_refl E2) as P2.
        congruence.
      - apply ret_some in E2. destruct E2 as [_ ->]. reflexivity. }
    rewrite <- E2'. destruct (String.eqb (type b) "model").
    * exact (sideload_model_bucket _ _ _ _ _ _ K _ HK _ _ _ eq_refl E3).
    * apply ret_some in E3. destruct E3 as [_ ->]. reflexivity.
Qed.

Lemma prep_fold_bucket pl sails n0 docId emi sideload ar c assocs L s L' s' K oc :
  foldM (prepare_assoc pl sails emi docId sideload ar (VObj c)) assocs L s
    = Some (L', s') ->
  (n0 <= c)%N -> closed n0 docId s -> below n0 ar = true ->
  NoDup (map alias assocs) -> st_heap s c = Some oc ->
  (forall b, In b assocs -> opt_is (include b) "record" = true ->
     assoc_key pl sails b = Some K -> empty_field (assoc_get (alias b) oc) = true) ->
  assoc_get K (st_json s') = assoc_get K (st_json s).
Proof.
  revert L s oc. induction assocs as [|b assocs IH];
    intros L s oc H Hc Hcl Har Hnd Hoc Hemp; simpl in H.
  - apply ret_some in H. destruct H as [_ ->]. reflexivity.
  - stepn H L1 s1 E1. inversion Hnd as [|? ? Hnb Hnd']; subst.
    pose proof E1 as E1'. apply (prepare_assoc_eff pl sails n0 docId) in E1'; auto.
    destruct E1' as (Eff1 & _ & _). destruct (Eff1 Hcl) as (_ & _ & _ & C1 & Hcl1).
    destruct (C1 oc Hoc) as (oc1 & Hoc1 & K1).
    rewrite (IH L1 s1 oc1 H Hc Hcl1 Har Hnd' Hoc1).
    + eapply prepare_assoc_bucket; [exact E1 | exact Hoc|].
      intros; apply Hemp; auto. left. reflexivity.
    + intros b' Hb' Hr Hk. rewrite K1.
      * apply Hemp; auto. right. exact Hb'.
      * intros [Heq|[]]. apply Hnb. rewrite Heq. apply in_map. exact Hb'.
Qed.

Lemma prepareOneRecord_bucket pl sails n0 docId emi assocs sideload ar v s r s' K :
  prepareOneRecord pl sails emi docId assocs sideload ar v s = Some (r, s') ->
  closed n0 docId s -> (n0 <= st_next s)%N -> below n0 ar = true ->
  NoDup (map alias assocs) ->
  (forall l o, v = VObj l -> st_heap s l = Some o ->
     forall b, In b assocs -> opt_is (include b) "record" = true ->
       assoc_key pl sails b = Some K -> empty_field (assoc_get (alias b) o) = true) ->
  assoc_get K (st_json s') = assoc_get K (st_json s).
Proof.
  intros H Hcl Hn Har Hnd Hemp. unfold prepareOneRecord in H.
  stepn H props s1 E1. apply toJSON_some in E1. destruct E1 as [-> (l & -> & Hl)].
  stepn H rec s2 E2. apply alloc_some in E2. destruct E2 as [-> ->].
  stepn H L s3 E3.
  assert (HclA : closed n0 docId {| st_heap := heap_upd (st_heap s) (st_next s) props;
                                    st_next := N.succ (st_next s); st_json := st_json s |}).
  { split; [|apply Hcl]. apply closed_heap_upd; [apply Hcl|].
    apply (proj1 Hcl l props Hl). }
  apply (prep_fold_bucket pl sails n0 docId _ _ _ _ _ _ _ _ _ K props) in E3;
    [|exact Hn | exact HclA | exact Har | exact Hnd | simpl; apply heap_upd_eq |
      intros b Hb Hr Hk; eapply Hemp; eauto].
  simpl in E3.
  stepn H u4 s4 E4. apply ret_some in H. destruct H as [_ ->].
  destruct (Nat.ltb _ _).
  - apply setM_json in E4. rewrite E4. exact E3.
  - apply ret_some in E4. destruct E4 as [_ ->]. exact E3.
Qed.

Lemma build_loop_bucket pl sails n0 docId emi assocs sideload ar rs s u s' K h0 :
  iterM (fun record =>
           old <- json_get docId ;;
           r <- prepareOneRecord pl sails emi docId assocs sideload ar record ;;
           json_set docId (js_concat old r)) rs s = Some (u, s') ->
  closed n0 docId s -> (n0 <= st_next s)%N -> forallb (below n0) rs = true ->
  below n0 ar = true -> NoDup (map alias assocs) -> ~ In "links" (map alias assocs) ->
  K <> docId ->
  (forall l, (l < n0)%N -> opt_links_step (h0 l) (st_heap s l)) ->
  (forall r l o, In r rs -> r = VObj l -> h0 l = Some o ->
     forall b, In b assocs -> opt_is (include b) "record" = true ->
       assoc_key pl sails b = Some K -> empty_field (assoc_get (alias b) o) = true) ->
  assoc_get K (st_json s') = assoc_get K (st_json s).
Proof.
  revert s. induction rs as [|r rs IH];
    intros s H Hcl Hn Hrs Har Hnd Hnl HK Hh0 Hemp; simpl in H.
  - apply ret_some in H. destruct H as [_ ->]. reflexivity.
  - simpl in Hrs. apply andb_prop in Hrs. destruct Hrs as [Hr Hrs].
    stepn H u1 s1 E1. stepn E1 old s2 E2. apply json_get_some in E2.
    destruct E2 as [-> _].
    stepn E1 v s3 E3. apply json_set_some in E1. subst s1.
    pose proof E3 as E3'. apply (prepareOneRecord_spec pl sails n0 docId) in E3'; auto.
    destruct E3' as (l & o & L & sB & oB & Hrl & Hl & Hv & _ & _ & _ & _ & _ &
                     N3 & F3 & G3 & Hcl3).
    assert (K3 : assoc_get K (st_json s3) = assoc_get K (st_json s)).
    { eapply (prepareOneRecord_bucket pl sails n0 docId); eauto.
      intros l' o' Hv' Hl' b Hb Hir Hk. subst r. injection Hv' as <-.
      assert (Hlt : (l < n0)%N) by (simpl in Hr; apply N.ltb_lt; exact Hr).
      pose proof (Hh0 l Hlt) as Hst. rewrite Hl' in Hst.
      apply links_step_of_opt in Hst. destruct Hst as (o0 & H0 & Hoo).
      rewrite (links_step_get o0 o' (alias b) Hoo).
      - exact (Hemp (VObj l) l o0 (or_introl eq_refl) eq_refl H0 b Hb Hir Hk).
      - intros Heq. apply Hnl. rewrite <- Heq. apply in_map. exact Hb. }
    set (s1 := with_json s3 (assoc_set docId (js_concat old v) (st_json s3))) in *.
    assert (Hcl1 : closed n0 docId s1).
    { split; [apply Hcl3|]. simpl. apply closed_json_set; [apply Hcl3|].
      intros Hne. congruence. }
    assert (Hn1 : (n0 <= st_next s1)%N) by (simpl; lia).
    rewrite (IH s1 H Hcl1 Hn1 Hrs Har Hnd Hnl HK).
    + simpl. rewrite assoc_get_set_neq by (intros E; apply HK; symmetry; exact E). exact K3.
    + intros l' Hl'. eapply opt_links_step_trans; [apply Hh0; exact Hl' | apply F3; exact Hl'].
    + intros r' l' o' Hr' Hv' Ho' b Hb Hir Hk. exact (Hemp r' l' o' (or_intror Hr') Hv' Ho' b Hb Hir Hk).
Qed.

Lemma prepare_sideload_bucket pl sails assocs s u s' K :
  prepare_sideload pl sails assocs s = Some (u, s') ->
  (assoc_get K (st_json s) = None \/ assoc_get K (st_json s) = Some []) ->
  assoc_get K (st_json s') = None \/ assoc_get K (st_json s') = Some [].
Proof.
  unfold prepare_sideload. revert s.
  induction assocs as [|a assocs IH]; intros s H HK; simpl in H.
  - apply ret_some in H. destruct H as [_ ->]. exact HK.
  - stepn H u1 s1 E1. apply (IH s1 H).
    destruct (opt_is (include a) "record").
    + stepn E1 m s2 E2. apply models_get_some in E2. destruct E2 as [-> _].
      stepn E1 present s3 E3. apply json_has_some in E3. destruct E3 as [-> _].
      destruct present.
      * apply ret_some in E1. destruct E1 as [_ ->]. exact HK.
      * apply json_set_some in E1. subst s1. simpl.
        destruct (string_dec (convertModelName pl sails (globalId m) true) K) as [<-|Hne].
        -- right. apply assoc_get_set_eq.
        -- rewrite assoc_get_set_neq by exact Hne. exact HK.
    + apply ret_some in E1. destruct E1 as [_ ->]. exact HK.
Qed.

Lemma init_document_bucket pl sails docId assocs sideload s u s' K :
  init_document pl sails docId assocs sideload s = Some (u, s') -> K <> docId ->
  assoc_get K (st_json s') = None \/ assoc_get K (st_json s') = Some [].
Proof.
  unfold init_document. intros H HK. stepn H u1 s1 E1. inversion E1; subst s1.
  assert (H0 : assoc_get K (st_json (with_json s [(docId, [])])) = None \/
               assoc_get K (st_json (with_json s [(docId, [])])) = Some []).
  { left. simpl. destruct (String.eqb K docId) eqn:E; [|reflexivity].
    apply String.eqb_eq in E. contradiction. }
  destruct sideload.
  - exact (prepare_sideload_bucket _ _ _ _ _ _ K H H0).
  - apply ret_some in H. destruct H as [_ ->]. exact H0.
Qed.

(** The records phase leaves a bucket empty (or absent) when every
    association that would sideload into it meets an empty field. *)
Lemma build_records_bucket pl sails mdl records assocs sideload ar s u s' K :
  build_records pl sails mdl records assocs sideload ar s = Some (u, s') ->
  K <> convertModelName pl sails (globalId mdl) true ->
  closed_heap (st_next s) (st_heap s) -> below (st_next s) records = true ->
  below (st_next s) ar = true -> NoDup (map alias assocs) ->
  ~ In "links" (map alias assocs) ->
  (forall r l o, In r (records_list records) -> r = VObj l -> st_heap s l = Some o ->
     forall b, In b assocs -> opt_is (include b) "record" = true ->
       assoc_key pl sails b = Some K -> empty_field (assoc_get (alias b) o) = true) ->
  assoc_get K (st_json s') = None \/ assoc_get K (st_json s') = Some [].
Proof.
  intros H HK Hh Hr Har Hnd Hnl Hemp. unfold build_records in H. cbv zeta in H.
  set (docId := convertModelName pl sails (globalId mdl) true) in *.
  stepn H u1 s1 E1. pose proof (init_document_bucket _ _ _ _ _ _ _ _ K E1 HK) as HK1.
  apply (init_document_some pl sails (st_next s) docId) in E1.
  destruct E1 as (H1 & H2 & H3 & H4).
  assert (Hcl1 : closed (st_next s) docId s1) by (split; [rewrite H1; exact Hh | exact H3]).
  assert (Hn1 : (st_next s <= st_next s1)%N) by (rewrite H2; lia).
  assert (Single : forall v,
    (r <- prepareOneRecord pl sails (globalId mdl) docId assocs sideload ar v ;;
     json_set docId [r]) s1 = Some (u, s') ->
    (forall l o, v = VObj l -> st_heap s l = Some o ->
       forall b, In b assocs -> opt_is (include b) "record" = true ->
         assoc_key pl sails b = Some K -> empty_field (assoc_get (alias b) o) = true) ->
    assoc_get K (st_json s') = None \/ assoc_get K (st_json s') = Some []).
  { intros v Hs Hv. stepn Hs r s2 E2. apply json_set_some in Hs. subst s'. simpl.
    rewrite assoc_get_set_neq by (intros E; apply HK; symmetry; exact E).
    rewrite (prepareOneRecord_bucket pl sails (st_next s) docId _ _ _ _ _ _ _ _ K E2
               Hcl1 Hn1 Har Hnd).
    - exact HK1.
    - rewrite H1. exact Hv. }
  destruct records as [| | | | |vs| |];
    try (apply (Single _ H); intros l1 o1 Hv Ho; exact (Hemp _ l1 o1 (or_introl eq_refl) Hv Ho)).
  simpl in Hr.
  rewrite (build_loop_bucket pl sails (st_next s) docId _ _ _ _ _ _ _ _ K (st_heap s)
             H Hcl1 Hn1 Hr Har Hnd Hnl HK).
  - exact HK1.
  - intros l _. rewrite H1. apply opt_links_step_refl.
  - exact Hemp.
Qed.

(** ** Two sideloaded records *)

Lemma id_of_link_obj pl sails am o : id_of (link_obj pl sails am o) = id_of o.
Proof. unfold link_obj. destruct (has_collection am); [apply id_of_set_links | reflexivity]. Qed.

Lemma link_heap_in pl sails am (h h' : heap) out l o :
  (forall l, h' l = if (has_collection am && existsb (is_obj_at l) out)%bool
                    then option_map (linkify (blueprints_prefix sails)
                           (convertModelName pl sails (identity am) true)
                           (associations am)) (h l)
                    else h l) ->
  In (VObj l) out -> h l = Some o -> h' l = Some (link_obj pl sails am o).
Proof.
  intros Hh Hin Ho. rewrite Hh, (existsb_is_obj_at_In _ _ Hin), andb_true_r, Ho.
  unfold link_obj. destruct (has_collection am); reflexivity.
Qed.

Lemma link_heap_out pl sails am (h h' : heap) out l :
  (forall l, h' l = if (has_collection am && existsb (is_obj_at l) out)%bool
                    then option_map (linkify (blueprints_prefix sails)
                           (convertModelName pl sails (identity am) true)
                           (associations am)) (h l)
                    else h l) ->
  ~ In (VObj l) out -> h' l = h l.
Proof.
  intros Hh Hin. rewrite Hh. destruct (existsb (is_obj_at l) out) eqn:E.
  - apply existsb_exists in E. destruct E as (v & Hv & Hv').
    destruct v; try discriminate. apply N.eqb_eq in Hv'. subst. contradiction.
  - rewrite andb_false_r. reflexivity.
Qed.

Lemma link_heap_again pl sails am (h h' : heap) out l o :
  (forall l, h' l = if (has_collection am && existsb (is_obj_at l) out)%bool
                    then option_map (linkify (blueprints_prefix sails)
                           (convertModelName pl sails (identity am) true)
                           (associations am)) (h l)
                    else h l) ->
  h l = Some (link_obj pl sails am o) -> h' l = Some (link_obj pl sails am o).
Proof.
  intros Hh Ho. rewrite Hh, Ho. destruct (has_collection am) eqn:E; [|reflexivity].
  destruct (existsb _ _); [|reflexivity]. simpl. unfold link_obj. rewrite E.
  rewrite linkify_idem. reflexivity.
Qed.

(** ** The claims *)


(** C9: a one-element array and the bare record give the same run; for
    two records the root bucket is the two results of [prepareOneRecord],
    the first computed in the same state as for the record alone, the
    second after it, in input order. *)
Theorem buildResponse_batch pl sails mdl assocs sideload ar r r1 r2 s :
  (forall vs, r <> VArr vs) ->
  buildResponse pl sails mdl (VArr [r]) assocs sideload ar s =
    buildResponse pl sails mdl r assocs sideload ar s /\
  forall d s',
    buildResponse pl sails mdl (VArr [r1; r2]) assocs sideload ar s = Some (d, s') ->
    exists s1 v1 s2 v2 s3,
      init_document pl sails (convertModelName pl sails (globalId mdl) true)
        assocs sideload s = Some (tt, s1) /\
      prepareOneRecord pl sails (globalId mdl) (convertModelName pl sails (globalId mdl) true)
        assocs sideload ar r1 s1 = Some (v1, s2) /\
      prepareOneRecord pl sails (globalId mdl) (convertModelName pl sails (globalId mdl) true)
        assocs sideload ar r2
        (with_json s2 (assoc_set (convertModelName pl sails (globalId mdl) true) [v1]
                                 (st_json s2))) = Some (v2, s3) /\
      assoc_get (convertModelName pl sails (globalId mdl) true) d = Some [v1; v2].
Proof.
  intros Hr. set (docId := convertModelName pl sails (globalId mdl) true).
  split.
  - unfold buildResponse. apply bind_ext_l.
    unfold build_records. cbv zeta. fold docId. apply bind_ext_r.
    intros u s1 E1. destruct u.
    apply (init_document_some pl sails 0%N) in E1. destruct E1 as (_ & _ & _ & Hget).
    cbn [iterM]. unfold bind at 1 2. unfold json_get at 1. rewrite Hget.
    destruct r; try (exfalso; eapply Hr; reflexivity);
      (unfold bind;
       destruct (prepareOneRecord _ _ _ _ _ _ _ _ s1) as [[v s2]|] eqn:Ep; [|reflexivity];
       rewrite (prepareOneRecord_obj _ _ _ _ _ _ _ _ _ _ _ Ep); reflexivity).
  - intros d s' H. apply buildResponse_run in H. destruct H as (sm & Hb & -> & Hf).
    fold docId in Hf.
    pose proof (build_records_nodup_any _ _ _ _ _ _ _ _ _ _ Hb) as Hnd.
    assert (Hdoc : assoc_get docId (st_json s') = assoc_get docId (st_json sm)).
    { destruct sideload; [|subst; reflexivity].
      destruct (finish_sideload_spec pl sails docId 0%N sm tt s' Hf Hnd) as (_ & _ & G & _).
      exact G. }
    rewrite Hdoc.
    unfold build_records in Hb. cbv zeta in Hb. fold docId in Hb.
    stepn Hb u1 s1 E1. destruct u1.
    pose proof E1 as E1'. apply (init_document_some pl sails 0%N) in E1'.
    destruct E1' as (_ & _ & _ & Hget).
    simpl in Hb.
    stepn Hb u2 s2 E2. stepn E2 old s3 E3. apply json_get_some in E3.
    destruct E3 as [-> Hold]. rewrite Hget in Hold. injection Hold as <-.
    stepn E2 v1 s4 E4. apply json_set_some in E2. subst s2.
    pose proof (prepareOneRecord_obj _ _ _ _ _ _ _ _ _ _ _ E4) as Hv1. subst v1.
    stepn Hb u5 s5 E5. stepn E5 old s6 E6. apply json_get_some in E6.
    destruct E6 as [-> Hold]. simpl in Hold. rewrite assoc_get_set_eq in Hold.
    injection Hold as <-.
    stepn E5 v2 s7 E7. apply json_set_some in E5. subst s5.
    pose proof (prepareOneRecord_obj _ _ _ _ _ _ _ _ _ _ _ E7) as Hv2. subst v2.
    apply ret_some in Hb. destruct Hb as [_ ->].
    exists s1, (VObj (st_next s1)), s4, (VObj (st_next (with_json s4 (assoc_set docId [VObj (st_next s1)] (st_json s4))))), s7.
    split; [exact E1|]. split; [exact E4|]. split; [exact E7|].
    simpl. apply assoc_get_set_eq.
Qed.

(** C3: for a hyperlinked collection association, every output record
    lacks the association's field and carries
    [links[alias] = prefix/rootKey/id/alias]. *)
Theorem link_association_output pl sails mdl records assocs sideload ar s d s' a :
  buildResponse pl sails mdl records assocs sideload ar s = Some (d, s') ->
  closed_heap (st_next s) (st_heap s) -> below (st_next s) records = true ->
  below (st_next s) ar = true -> NoDup (map alias assocs) ->
  Forall (fun b => alias b <> "links" /\ alias b <> "id") assocs ->
  In a assocs -> type a = "collection" -> include a = Some "link" ->
  exists root,
    assoc_get (convertModelName pl sails (globalId mdl) true) d = Some root /\
    Forall2 (fun r out => exists l o c o',
       r = VObj l /\ st_heap s l = Some o /\ out = VObj c /\
       st_heap s' c = Some o' /\ assoc_get (alias a) o' = None /\
       exists L, assoc_get "links" o' = Some (VDict L) /\
         assoc_get (alias a) L =
           Some (VStr (url [blueprints_prefix sails; "/";
                            convertModelName pl sails (globalId mdl) true; "/";
                            to_js_string (id_of o); "/"; alias a])))
      (records_list records) root.
Proof.
  intros H Hh Hr Har Hnd Hal Hin Ht Hi.
  destruct (buildResponse_root _ _ _ _ _ _ _ _ _ _ H Hh Hr Har) as (_ & root & Hroot & HF).
  exists root. split; [exact Hroot|].
  pose proof (proj1 (Forall_forall _ _) Hal a Hin) as [Hla Hida].
  assert (Hnid : ~ In "id" (map alias assocs)).
  { apply not_in_aliases. eapply Forall_impl; [|exact Hal]. intros b [_ Hb]. exact Hb. }
  eapply Forall2_impl; [|exact HF].
  intros r out (s1 & s2 & c & P1 & P2 & P3 & P4 & P5 & P6 & P7).
  pose proof (prepareOneRecord_obj _ _ _ _ _ _ _ _ _ _ _ P1) as Hc.
  injection Hc as Hc. subst c out.
  destruct (prepareOneRecord_at pl sails (st_next s) _ _ _ _ _ _ _ _ _ a P1 P4 P5 P6 Har
              Hnd Hin Hla)
    as (l & o1 & L1 & sa1 & L2 & sa2 & oa & -> & Hl1 & _ & Hcla & Fa & Hoa & Koa & Eb & Fin).
  assert (Hlt : (l < st_next s)%N) by (simpl in P6; apply N.ltb_lt; exact P6).
  pose proof (P7 l Hlt) as Hst. rewrite Hl1 in Hst.
  apply links_step_of_opt in Hst. destruct Hst as (o & Hl & Hoo1).
  destruct (prepare_assoc_link pl sails (st_next s) _ _ _ _ _ _ _ _ _ _ Eb P5 Ht Hi oa Hoa)
    as ((oa2 & Hoa2 & Hnone) & HL2).
  destruct (Fin oa2 Hoa2) as (o' & Ho' & Hao' & Hlinks).
  exists l, o, (st_next s1), o'.
  split; [reflexivity|]. split; [exact Hl|]. split; [reflexivity|].
  split; [rewrite P3; exact Ho'|]. split; [rewrite Hao'; exact Hnone|].
  destruct (Hlinks _ HL2) as (L & HL & HLa). exists L. split; [exact HL|].
  rewrite HLa. replace (id_of oa) with (id_of o); [reflexivity|].
  rewrite <- (links_step_id o o1 Hoo1). unfold id_of. rewrite (Koa "id"); [reflexivity|].
  right. exact Hnid.
Qed.

(** C4: for an index collection association whose entry in
    [associatedRecords] is the array [rows], every output record's field
    is the [pick_key] field (the [collection] name with a join model, [id]
    without) of the rows whose inverse-key field equals the record's id,
    in row order. *)
Theorem index_association_output pl sails mdl records assocs sideload ar s d s' a rows w :
  buildResponse pl sails mdl records assocs sideload ar s = Some (d, s') ->
  closed_heap (st_next s) (st_heap s) -> below (st_next s) records = true ->
  below (st_next s) ar = true -> NoDup (map alias assocs) ->
  Forall (fun b => alias b <> "links" /\ alias b <> "id") assocs ->
  In a assocs -> type a = "collection" -> include a = Some "index" ->
  get_prop (st_heap s) ar (alias a) = Some (VArr rows) -> via a = Some w ->
  singular pl w <> "links" -> pick_key a <> "links" ->
  exists root,
    assoc_get (convertModelName pl sails (globalId mdl) true) d = Some root /\
    Forall2 (fun r out => exists l o c o',
       r = VObj l /\ st_heap s l = Some o /\ out = VObj c /\
       st_heap s' c = Some o' /\
       assoc_get (alias a) o' =
         Some (VArr (index_pick (st_heap s) rows (singular pl w) (pick_key a) (id_of o))))
      (records_list records) root.
Proof.
  intros H Hh Hr Har Hnd Hal Hin Ht Hi Hrows Hw Hvl Hpl.
  destruct (buildResponse_root _ _ _ _ _ _ _ _ _ _ H Hh Hr Har) as (_ & root & Hroot & HF).
  exists root. split; [exact Hroot|].
  pose proof (proj1 (Forall_forall _ _) Hal a Hin) as [Hla Hida].
  assert (Hnid : ~ In "id" (map alias assocs)).
  { apply not_in_aliases. eapply Forall_impl; [|exact Hal]. intros b [_ Hb]. exact Hb. }
  assert (Hrb : forallb (below (st_next s)) rows = true)
    by exact (get_prop_below _ _ _ _ _ Hh Har Hrows).
  eapply Forall2_impl; [|exact HF].
  intros r out (s1 & s2 & c & P1 & P2 & P3 & P4 & P5 & P6 & P7).
  pose proof (prepareOneRecord_obj _ _ _ _ _ _ _ _ _ _ _ P1) as Hc.
  injection Hc as Hc. subst c out.
  destruct (prepareOneRecord_at pl sails (st_next s) _ _ _ _ _ _ _ _ _ a P1 P4 P5 P6 Har
              Hnd Hin Hla)
    as (l & o1 & L1 & sa1 & L2 & sa2 & oa & -> & Hl1 & _ & Hcla & Fa & Hoa & Koa & Eb & Fin).
  assert (Hlt : (l < st_next s)%N) by (simpl in P6; apply N.ltb_lt; exact P6).
  pose proof (P7 l Hlt) as Hst. rewrite Hl1 in Hst.
  apply links_step_of_opt in Hst. destruct Hst as (o & Hl & Hoo1).
  assert (Fs : forall l', (l' < st_next s)%N ->
                 opt_links_step (st_heap s l') (st_heap sa1 l'))
    by (intros l' Hl'; eapply opt_links_step_trans; [apply P7 | apply Fa]; exact Hl').
  assert (Hrows1 : get_prop (st_heap sa1) ar (alias a) = Some (VArr rows))
    by (rewrite (get_prop_links_step _ _ _ _ _ Fs Har Hla); exact Hrows).
  destruct (prepare_assoc_index pl sails (st_next s) _ _ _ _ _ _ _ _ _ _ _ _ Eb P5 Hcla Har
              Ht Hi Hrows1 Hw oa Hoa) as (oa2 & Hoa2 & Hidx).
  destruct (Fin oa2 Hoa2) as (o' & Ho' & Hao' & _).
  exists l, o, (st_next s1), o'.
  split; [reflexivity|]. split; [exact Hl|]. split; [reflexivity|].
  split; [rewrite P3; exact Ho'|].
  rewrite Hao', Hidx, (index_pick_links_step _ _ _ _ _ _ _ Fs Hrb Hvl Hpl).
  replace (id_of oa) with (id_of o); [reflexivity|].
  rewrite <- (links_step_id o o1 Hoo1). unfold id_of. rewrite (Koa "id"); [reflexivity|].
  right. exact Hnid.
Qed.

(** C2: after a sideloading call every bucket other than the root one is
    non-empty and holds at most one record per id; the bucket the records
    phase left is dropped when empty (or absent) and otherwise replaced by
    its first occurrence of each id, in order. *)
Theorem buildResponse_sideload_buckets pl sails mdl records assocs ar s d s' :
  buildResponse pl sails mdl records assocs true ar s = Some (d, s') ->
  exists sm,
    build_records pl sails mdl records assocs true ar s = Some (tt, sm) /\
    forall k, k <> convertModelName pl sails (globalId mdl) true ->
      (forall b, assoc_get k d = Some b ->
         b <> [] /\
         ForallOrdPairs
           (fun x y => strict_eq (id_in (st_heap s') x) (id_in (st_heap s') y) = false) b) /\
      ((assoc_get k (st_json sm) = None \/ assoc_get k (st_json sm) = Some []) ->
       assoc_get k d = None) /\
      (forall b, assoc_get k (st_json sm) = Some b -> b <> [] ->
         assoc_get k d = Some (keep_first (id_in (st_heap sm)) b)).
Proof.
  intros H. apply buildResponse_run in H. destruct H as (sm & Hb & -> & Hf).
  exists sm. split; [exact Hb|].
  pose proof (build_records_nodup_any _ _ _ _ _ _ _ _ _ _ Hb) as Hnd.
  destruct (finish_sideload_spec pl sails _ 0%N sm tt s' Hf Hnd)
    as (_ & G1 & _ & G3 & _).
  intros k Hk. rewrite (G3 k Hk). split; [|split].
  - intros b Hb'.
    destruct (assoc_get k (st_json sm)) as [[|x b0]|]; try discriminate.
    injection Hb' as <-. split; [apply keep_first_nonempty|].
    eapply ForallOrdPairs_impl'; [|exact (proj1 (keep_first_from_distinct _ [] _))].
    intros y z Hyz. rewrite !(id_in_links_step _ _ _ G1). exact Hyz.
  - intros [-> | ->]; reflexivity.
  - intros b -> Hne. destruct b; [congruence | reflexivity].
Qed.

(** C10: with sideloading, an embedded collection association whose field
    on the record is absent, [undefined], [null] or an empty array keeps
    that field unchanged in every output record; and a sideload bucket
    into which every embedded association meets such an empty field on
    every record is absent from the returned document. *)
Theorem empty_embedded_field pl sails mdl records assocs ar s d s' :
  buildResponse pl sails mdl records assocs true ar s = Some (d, s') ->
  closed_heap (st_next s) (st_heap s) -> below (st_next s) records = true ->
  below (st_next s) ar = true -> NoDup (map alias assocs) ->
  Forall (fun b => alias b <> "links") assocs ->
  (exists root,
     assoc_get (convertModelName pl sails (globalId mdl) true) d = Some root /\
     Forall2 (fun r out => exists l o c o',
        r = VObj l /\ st_heap s l = Some o /\ out = VObj c /\ st_heap s' c = Some o' /\
        forall a, In a assocs -> type a = "collection" -> include a = Some "record" ->
          empty_field (assoc_get (alias a) o) = true ->
          assoc_get (alias a) o' = assoc_get (alias a) o)
       (records_list records) root) /\
  (forall K, K <> convertModelName pl sails (globalId mdl) true ->
     (forall r l o b, In r (records_list records) -> r = VObj l ->
        st_heap s l = Some o -> In b assocs -> include b = Some "record" ->
        assoc_key pl sails b = Some K -> empty_field (assoc_get (alias b) o) = true) ->
     assoc_get K d = None).
Proof.
  intros H Hh Hr Har Hnd Hal.
  assert (Hnl : ~ In "links" (map alias assocs)) by (apply not_in_aliases; exact Hal).
  split.
  - destruct (buildResponse_root _ _ _ _ _ _ _ _ _ _ H Hh Hr Har) as (_ & root & Hroot & HF).
    exists root. split; [exact Hroot|].
    eapply Forall2_impl; [|exact HF].
    intros r out (s1 & s2 & c & P1 & P2 & P3 & P4 & P5 & P6 & P7).
    pose proof (prepareOneRecord_obj _ _ _ _ _ _ _ _ _ _ _ P1) as Hc.
    injection Hc as Hc. subst c out.
    pose proof P1 as P1'.
    apply (prepareOneRecord_spec pl sails (st_next s) (convertModelName pl sails (globalId mdl) true))
      in P1'; auto.
    destruct P1' as (l & o1 & L & sB & oB & -> & Hl1 & _ & _ & _ & Hs2 & _).
    assert (Hlt : (l < st_next s)%N) by (simpl in P6; apply N.ltb_lt; exact P6).
    pose proof (P7 l Hlt) as Hst. rewrite Hl1 in Hst.
    apply links_step_of_opt in Hst. destruct Hst as (o & Hl & Hoo1).
    exists l, o, (st_next s1),
      (if Nat.ltb 0 (List.length L) then assoc_set "links" (VDict L) oB else oB).
    split; [reflexivity|]. split; [exact Hl|]. split; [reflexivity|].
    split; [rewrite P3; exact Hs2|].
    intros a Hin Ht Hi He.
    pose proof (proj1 (Forall_forall _ _) Hal a Hin) as Hla.
    destruct (prepareOneRecord_at pl sails (st_next s) _ _ _ _ _ _ _ _ _ a P1 P4 P5 P6 Har
                Hnd Hin Hla)
      as (l2 & o2 & L1 & sa1 & L2 & sa2 & oa & Hv2 & Hl2 & _ & _ & _ & Hoa & Koa & Eb & Fin).
    injection Hv2 as <-. rewrite Hl1 in Hl2. injection Hl2 as <-.
    assert (Hao : assoc_get (alias a) oa = assoc_get (alias a) o).
    { rewrite (Koa (alias a) (or_introl eq_refl)). apply (links_step_get o o1 _ Hoo1 Hla). }
    rewrite <- Hao in He.
    pose proof (prepare_assoc_empty _ _ _ _ _ _ _ _ _ _ _ _ _ Eb Ht Hi Hoa He) as ->.
    destruct (Fin oa Hoa) as (o'' & Ho'' & Hao'' & _).
    rewrite Hs2 in Ho''. injection Ho'' as <-. rewrite Hao''. exact Hao.
  - intros K HK Hemp.
    apply buildResponse_run in H. destruct H as (sm & Hb & -> & Hf).
    pose proof (build_records_nodup_any _ _ _ _ _ _ _ _ _ _ Hb) as Hnd'.
    destruct (finish_sideload_spec pl sails _ 0%N sm tt s' Hf Hnd') as (_ & _ & _ & G3 & _).
    rewrite (G3 K HK).
    destruct (build_records_bucket _ _ _ _ _ _ _ _ _ _ K Hb HK Hh Hr Har Hnd Hnl
                (fun r l o Hr' Hv Ho b Hb' Hir Hk =>
                   Hemp r l o b Hr' Hv Ho Hb' (opt_is_some _ _ Hir) Hk)) as [-> | ->];
      reflexivity.
Qed.

(** C1 (as far as it holds): with sideloading, one root record and one
    embedded collection association whose field holds two records, the
    document has two keys, the root key and the target model's key (not
    three); the clone's field becomes the two ids; the bucket holds the two
    records, the second dropped when its id equals the first's; both
    records get the links of their model, which are non-empty exactly when
    that model has a collection association. *)
Theorem sideload_two_records pl sails mdl a am ar s d s' docId K l0 l1 l2 o0 o1 o2 :
  buildResponse pl sails mdl (VObj l0) [a] true ar s = Some (d, s') ->
  docId = convertModelName pl sails (globalId mdl) true ->
  K = convertModelName pl sails (globalId am) true ->
  type a = "collection" -> include a = Some "record" ->
  models sails (target_key a) = Some am ->
  models sails (opt_key (collection a)) = Some am ->
  models sails (reverseModelName pl sails K true) = Some am ->
  K <> docId -> alias a <> docId ->
  st_heap s l0 = Some o0 -> assoc_get (alias a) o0 = Some (VArr [VObj l1; VObj l2]) ->
  st_heap s l1 = Some o1 -> st_heap s l2 = Some o2 ->
  (l1 < st_next s)%N -> (l2 < st_next s)%N ->
  map fst d = [docId; K] /\
  assoc_get docId d = Some [VObj (st_next s)] /\
  assoc_get K d =
    Some (if strict_eq (id_of o1) (id_of o2) then [VObj l1] else [VObj l1; VObj l2]) /\
  st_heap s' (st_next s) = Some (assoc_set (alias a) (VArr [id_of o1; id_of o2]) o0) /\
  st_heap s' l1 = Some (link_obj pl sails am o1) /\
  st_heap s' l2 = Some (link_obj pl sails am o2).
Proof.
  intros H Hd HK Ht Hi Htk Hcoll Hrev HKd Had Ho0 Hf Ho1 Ho2 Hl1 Hl2.
  assert (EKd : String.eqb K docId = false) by (apply String.eqb_neq; exact HKd).
  assert (EdK : String.eqb docId K = false)
    by (apply String.eqb_neq; intros E; apply HKd; symmetry; exact E).
  assert (Ead : String.eqb (alias a) docId = false) by (apply String.eqb_neq; exact Had).
  assert (Hir : opt_is (include a) "record" = true) by (rewrite Hi; reflexivity).
  assert (Hiidx : opt_is (include a) "index" = false) by (rewrite Hi; reflexivity).
  assert (Hilnk : opt_is (include a) "link" = false) by (rewrite Hi; reflexivity).
  apply buildResponse_run in H. destruct H as (sm & Hb & -> & Hf').
  rewrite <- Hd in Hf'.
  (* the records phase *)
  unfold build_records in Hb. cbv zeta in Hb. rewrite <- Hd in Hb.
  stepn Hb u1 s1 E1. unfold init_document in E1.
  stepn E1 u0 s0 E0. inversion E0; subst u0 s0. clear E0.
  unfold prepare_sideload in E1. simpl iterM in E1.
  stepn E1 u2 s2 E2. apply ret_some in E1. destruct E1 as [_ ->].
  rewrite Hir in E2.
  stepn E2 m s3 E3. apply models_get_some in E3. destruct E3 as [-> Hm].
  rewrite Htk in Hm. injection Hm as <-. rewrite <- HK in E2.
  stepn E2 present s4 E4. apply json_has_some in E4. destruct E4 as [-> Hp].
  unfold has_key in Hp. simpl in Hp. rewrite Ead in Hp. subst present.
  apply json_set_some in E2. subst s2. simpl in Hb.
  rewrite EKd in Hb.
  set (sI := with_json (with_json s [(docId, [])]) [(docId, []); (K, [])]) in Hb.
  stepn Hb r s5 E5. apply json_set_some in Hb. subst sm.
  unfold prepareOneRecord in E5.
  stepn E5 props s6 E6. apply toJSON_some in E6. destruct E6 as [-> (l & Hl & Hlo)].
  injection Hl as <-. simpl in Hlo. rewrite Ho0 in Hlo. injection Hlo as <-.
  stepn E5 rec s7 E7. apply alloc_some in E7. destruct E7 as [-> ->].
  assert (Hc : st_next sI = st_next s) by reflexivity.
  set (c := st_next sI) in *.
  set (sA := {| st_heap := heap_upd (st_heap sI) c o0; st_next := N.succ c;
                st_json := st_json sI |}) in *.
  stepn E5 L s8 E8. simpl foldM in E8. stepn E8 L9 s9 E9. apply ret_some in E8.
  destruct E8 as [-> ->].
  unfold prepare_assoc in E9.
  stepn E9 m s10 E10. apply models_get_some in E10. destruct E10 as [-> Hm].
  rewrite Htk in Hm. injection Hm as <-. rewrite <- HK in E9.
  rewrite Ht, String.eqb_refl in E9.
  stepn E9 L10 s10 E10. stepn E10 v s11 E11. apply via_key_some in E11.
  destruct E11 as [-> _].
  stepn E10 u12 s12 E12. unfold sideload_collection in E12. rewrite Hir in E12.
  stepn E12 go s13 E13. simpl andb in E13.
  stepn E13 f s14 E14. apply getM_some in E14. destruct E14 as [-> Hf14].
  simpl in Hf14. rewrite heap_upd_eq, Hf in Hf14. injection Hf14 as <-.
  cbn [truthy] in E13.
  stepn E13 len s15 E15. apply getM_some in E15. destruct E15 as [-> Hlen].
  simpl in Hlen. injection Hlen as <-. apply ret_some in E13. destruct E13 as [-> ->].
  cbn [gt0 Z.ltb Z.compare] in E12.
  rewrite Hcoll in E12.
  stepn E12 am' s16 E16. apply ret_some in E16. destruct E16 as [-> ->].
  stepn E12 bucket s17 E17. apply json_get_some in E17. destruct E17 as [-> Hbk].
  simpl in Hbk. rewrite EKd, String.eqb_refl in Hbk. injection Hbk as <-.
  stepn E12 f s18 E18. apply getM_some in E18. destruct E18 as [-> Hf18].
  simpl in Hf18. rewrite heap_upd_eq, Hf in Hf18. injection Hf18 as <-.
  stepn E12 linked s19 E19. apply linkAssociations_heap in E19.
  destruct E19 as (-> & Hj19 & Hn19 & Hh19).
  assert (Hcl1 : c <> l1) by (intros E; rewrite E in Hc; lia).
  assert (Hcl2 : c <> l2) by (intros E; rewrite E in Hc; lia).
  assert (Hnc : ~ In (VObj c) [VObj l1; VObj l2])
    by (intros [E|[E|[]]]; injection E; intros; [apply Hcl1 | apply Hcl2]; congruence).
  assert (H19c : st_heap s19 c = Some o0).
  { rewrite (link_heap_out _ _ _ _ _ _ _ Hh19 Hnc). simpl. apply heap_upd_eq. }
  assert (H19l1 : st_heap s19 l1 = Some (link_obj pl sails am o1)).
  { apply (link_heap_in _ _ _ _ _ _ _ _ Hh19); [left; reflexivity|].
    simpl. rewrite heap_upd_neq by exact Hcl1. exact Ho1. }
  assert (H19l2 : st_heap s19 l2 = Some (link_obj pl sails am o2)).
  { apply (link_heap_in _ _ _ _ _ _ _ _ Hh19); [right; left; reflexivity|].
    simpl. rewrite heap_upd_neq by exact Hcl2. exact Ho2. }
  stepn E12 u20 s20 E20. apply json_set_some in E20. subst s20.
  stepn E12 f' s21 E21. apply getM_some in E21. destruct E21 as [-> Hf21].
  simpl in Hf21. rewrite H19c, Hf in Hf21. injection Hf21 as <-.
  stepn E12 recs s22 E22. apply values_of_some in E22. destruct E22 as [-> ->].
  stepn E12 ids s23 E23. apply mapM_getM_some in E23. destruct E23 as [-> Hids].
  assert (Hids' : ids = [id_of o1; id_of o2]).
  { simpl lodash_values in Hids.
    inversion Hids as [|? x1 ? ids1 Hx1 Hids1]; subst.
    inversion Hids1 as [|? x2 ? ids2 Hx2 Hids2]; subst.
    inversion Hids2; subst.
    simpl in Hx1, Hx2. rewrite H19l1 in Hx1. rewrite H19l2 in Hx2.
    injection Hx1 as <-. injection Hx2 as <-.
    rewrite <- (id_of_link_obj pl sails am o1), <- (id_of_link_obj pl sails am o2).
    reflexivity. }
  subst ids.
  apply setM_some in E12.
  destruct E12 as [(l' & o' & El & Hl' & ->) | (_ & _ & _ & Hno)];
    [|exfalso; eapply Hno; reflexivity].
  injection El as <-. simpl in Hl'. rewrite H19c in Hl'. injection Hl' as <-.
  stepn E10 u24 s24 E24. apply index_collection_skip in E24; [|exact Hiidx]. subst s24.
  unfold link_collection in E10. rewrite Hilnk in E10.
  apply ret_some in E10. destruct E10 as [-> ->].
  stepn E9 u25 s25 E25. apply ret_some in E25. destruct E25 as [_ ->].
  apply ret_some in E9. destruct E9 as [-> ->].
  stepn E5 u26 s26 E26. apply ret_some in E26. destruct E26 as [_ ->].
  apply ret_some in E5. destruct E5 as [-> ->].
  set (sm := with_json (with_heap _ _) _) in Hf'.
  assert (Jsm : st_json sm = [(docId, [VObj c]); (K, [VObj l1; VObj l2])]).
  { unfold sm. simpl. rewrite Hj19. unfold sA, sI. simpl.
    rewrite EKd, String.eqb_refl. simpl. rewrite String.eqb_refl. reflexivity. }
  assert (Hsm_c : st_heap sm c = Some (assoc_set (alias a) (VArr [id_of o1; id_of o2]) o0))
    by (unfold sm; simpl; apply heap_upd_eq).
  assert (Hsm_l1 : st_heap sm l1 = Some (link_obj pl sails am o1))
    by (unfold sm; simpl; rewrite heap_upd_neq by exact Hcl1; exact H19l1).
  assert (Hsm_l2 : st_heap sm l2 = Some (link_obj pl sails am o2))
    by (unfold sm; simpl; rewrite heap_upd_neq by exact Hcl2; exact H19l2).
  clearbody sm.
  unfold finish_sideload in Hf'.
  stepn Hf' u27 s27 E27. unfold prune_buckets in E27.
  stepn E27 keys s28 E28. apply json_keys_some in E28. destruct E28 as [-> ->].
  rewrite Jsm in E27. simpl iterM in E27.
  stepn E27 u29 s29 E29. rewrite String.eqb_refl in E29.
  apply ret_some in E29. destruct E29 as [_ ->].
  stepn E27 u30 s30 E30. apply ret_some in E27. destruct E27 as [_ ->].
  rewrite EKd in E30.
  stepn E30 array s31 E31. apply json_get_some in E31. destruct E31 as [-> Harr].
  rewrite Jsm in Harr. simpl in Harr. rewrite EKd, String.eqb_refl in Harr.
  injection Harr as <-.
  stepn E30 uu s32 E32. apply uniq_by_id_some in E32. destruct E32 as [-> Huu].
  apply json_set_some in E30. subst s30.
  assert (Hu : uu = if strict_eq (id_of o1) (id_of o2) then [VObj l1] else [VObj l1; VObj l2]).
  { subst uu. unfold keep_first. simpl.
    rewrite (id_in_obj _ _ _ Hsm_l1), (id_in_obj _ _ _ Hsm_l2), !id_of_link_obj.
    destruct (strict_eq _ _); reflexivity. }
  clear Huu.
  assert (Hnc' : ~ In (VObj c) uu)
    by (rewrite Hu; destruct (strict_eq _ _); simpl; intros Hx; apply Hnc; simpl; tauto).
  assert (Hu1 : exists rest, uu = VObj l1 :: rest)
    by (rewrite Hu; destruct (strict_eq _ _); eexists; reflexivity).
  destruct Hu1 as (rest & Hrest).
  unfold link_buckets in Hf'.
  stepn Hf' keys s33 E33. apply json_keys_some in E33. destruct E33 as [-> ->].
  simpl st_json in Hf'. rewrite Jsm in Hf'. simpl in Hf'. rewrite EKd, String.eqb_refl in Hf'.
  simpl map in Hf'. simpl iterM in Hf'.
  stepn Hf' u34 s34 E34. rewrite String.eqb_refl in E34.
  apply ret_some in E34. destruct E34 as [_ ->].
  stepn Hf' u35 s35 E35. apply ret_some in Hf'. destruct Hf' as [_ ->].
  rewrite EKd in E35.
  stepn E35 array s36 E36. apply json_get_some in E36. destruct E36 as [-> Harr].
  simpl in Harr. rewrite EKd, String.eqb_refl in Harr. injection Harr as <-.
  rewrite Hrest in E35. cbn [is_number_or_string] in E35.
  stepn E35 m2 s37 E37. apply models_get_some in E37. destruct E37 as [-> Hm2].
  rewrite Hrev in Hm2. injection Hm2 as <-.
  stepn E35 out s38 E38. apply ret_some in E35. destruct E35 as [_ ->].
  apply linkAssociations_heap in E38. destruct E38 as (Hout & Hj38 & _ & Hh38).
  rewrite <- Hrest in Hout. subst out.
  rewrite <- Hc, Hj38. simpl st_json. rewrite <- Hrest.
  split; [reflexivity|].
  split; [simpl; rewrite String.eqb_refl; reflexivity|].
  split; [simpl; rewrite EKd, String.eqb_refl, Hu; reflexivity|].
  split; [rewrite (link_heap_out _ _ _ _ _ _ _ Hh38 Hnc'); exact Hsm_c|].
  split; [exact (link_heap_again _ _ _ _ _ _ _ _ Hh38 Hsm_l1)|].
  exact (link_heap_again _ _ _ _ _ _ _ _ Hh38 Hsm_l2).
Qed.

(** ** Further properties: model names *)

Lemma kebabCase_chars s :
  list_ascii_of_string (kebabCase s) = join_dash (map (map lower_char) (words s)).
Proof.
  unfold kebabCase. rewrite <- (map_map (map lower_char) string_of_list_ascii).
  apply list_ascii_of_concat_dash.
Qed.

Lemma kebabCase_idem s : kebabCase (kebabCase s) = kebabCase s.
Proof.
  unfold kebabCase at 1. rewrite words_kebabCase, map_map.
  unfold kebabCase. f_equal. apply map_ext. intros w. rewrite map_lower_idem. reflexivity.
Qed.

(** X1: without a [convertModelName] hook, the singular document key of
    any identity is a dash-joined list of words made of lower-case letters
    or of digits (the lodash [_.kebabCase] shape). *)
Theorem convertModelName_key_shape pl sails m :
  ember_convertModelName sails = None ->
  exists ws, Forall lword_ok ws /\
    list_ascii_of_string (convertModelName pl sails m false) = join_dash ws.
Proof.
  intros Hn. unfold convertModelName. rewrite Hn.
  exists (map (map lower_char) (words m)). split; [|apply kebabCase_chars].
  apply Forall_map. eapply Forall_impl; [|apply words_ok]. apply lword_of_word.
Qed.

(** X2: without a [convertModelName] hook, converting a singular document
    key again gives the same key, singular or plural: [_.kebabCase] is
    idempotent. *)
Theorem convertModelName_kebab_idem pl sails m :
  ember_convertModelName sails = None ->
  convertModelName pl sails (convertModelName pl sails m false) false =
    convertModelName pl sails m false /\
  convertModelName pl sails (convertModelName pl sails m false) true =
    convertModelName pl sails m true.
Proof.
  intros Hn. unfold convertModelName. rewrite Hn. rewrite kebabCase_idem. auto.
Qed.

Lemma lword_chars w : lword_ok w -> Forall (fun c => (is_lower c || is_digit c)%bool = true) w.
Proof.
  intros [_ [H|H]]; eapply Forall_impl; try exact H; intros c Hc; rewrite Hc;
    [reflexivity | apply orb_true_r].
Qed.

(** X3: without a [reverseModelName] hook, the unsingularised identity
    that [reverseModelName] gives contains only lower-case ASCII letters
    and digits. *)
Theorem reverseModelName_plain_shape pl sails x :
  ember_reverseModelName sails = None ->
  Forall (fun c => (is_lower c || is_digit c)%bool = true)
    (list_ascii_of_string (reverseModelName pl sails x false)).
Proof.
  intros Hn. unfold reverseModelName. rewrite Hn. rewrite toLowerCase_camelCase.
  rewrite list_ascii_of_string_of_list_ascii. apply Forall_concat.
  apply Forall_map. eapply Forall_impl; [|apply words_ok].
  intros w Hw. apply lword_chars, lword_of_word, Hw.
Qed.

(** ** Further properties: runs without sideloading *)

Lemma cstep_same c ks s s' : s' = s -> cstep c ks s s'.
Proof. intros ->. repeat split; auto. intros o Ho. exists o. auto. Qed.

Lemma cstep_trans c ks1 ks2 s1 s2 s3 :
  cstep c ks1 s1 s2 -> cstep c ks2 s2 s3 -> cstep c (ks1 ++ ks2) s1 s3.
Proof.
  intros (J1 & N1 & G1 & C1) (J2 & N2 & G2 & C2). repeat split.
  - congruence.
  - congruence.
  - intros l Hl. rewrite G2, G1; auto.
  - intros o Ho. destruct (C1 o Ho) as (o2 & Ho2 & K1).
    destruct (C2 o2 Ho2) as (o3 & Ho3 & K2). exists o3. split; auto.
    intros k Hk. rewrite K2, K1; auto; intros Hin; apply Hk, in_or_app; auto.
Qed.

Lemma cstep_weaken c ks ks' s s' : incl ks ks' -> cstep c ks s s' -> cstep c ks' s s'.
Proof.
  intros Hi (J & N & G & C). repeat split; auto.
  intros o Ho. destruct (C o Ho) as (o' & Ho' & K). exists o'. split; auto.
Qed.

Lemma setM_cstep c k x s u s' : setM (VObj c) k x s = Some (u, s') -> cstep c [k] s s'.
Proof.
  intros E. apply setM_some in E.
  destruct E as [(l & o & El & Hl & ->) | (_ & _ & _ & Hno)];
    [|exfalso; eapply Hno; reflexivity].
  injection El as <-. repeat split; simpl; auto.
  - intros l Hl'. apply heap_upd_neq. auto.
  - intros o0 Ho0. rewrite Hl in Ho0. injection Ho0 as <-.
    exists (assoc_set k x o). rewrite heap_upd_eq. split; auto.
    intros k' Hk'. apply assoc_get_set_neq. intros ->. apply Hk'. left. reflexivity.
Qed.

Lemma delM_cstep c k s u s' : delM (VObj c) k s = Some (u, s') -> cstep c [k] s s'.
Proof.
  intros E. apply delM_some in E.
  destruct E as [(l & o & El & Hl & ->) | (_ & _ & _ & Hno)];
    [|exfalso; eapply Hno; reflexivity].
  injection El as <-. repeat split; simpl; auto.
  - intros l Hl'. apply heap_upd_neq. auto.
  - intros o0 Ho0. rewrite Hl in Ho0. injection Ho0 as <-.
    exists (assoc_del k o). rewrite heap_upd_eq. split; auto.
    intros k' Hk'. apply assoc_get_del_neq. intros ->. apply Hk'. left. reflexivity.
Qed.

Section NoSideload.

Variable pl : Pluralize.
Variable sails : Sails.

Lemma sideload_collection_nosl K am record a s u s' :
  sideload_collection pl sails false K am record a s = Some (u, s') -> s' = s.
Proof.
  unfold sideload_collection. simpl. intros H. stepn H go s1 E1.
  apply ret_some in E1. destruct E1 as [-> ->]. apply ret_some in H. apply H.
Qed.

Lemma sideload_model_nosl K record a s u s' :
  sideload_model pl sails false K record a s = Some (u, s') -> s' = s.
Proof.
  unfold sideload_model. simpl. intros H. stepn H f s1 E1.
  apply getM_some in E1. destruct E1 as [-> _].
  destruct (truthy f); apply ret_some in H; apply H.
Qed.

Lemma index_collection_cstep ar c via a s u s' :
  index_collection ar (VObj c) via a s = Some (u, s') ->
  cstep c (if opt_is (include a) "index" then [alias a] else []) s s'.
Proof.
  unfold index_collection. intros H.
  destruct (opt_is (include a) "index");
    [|apply ret_some in H; destruct H as [_ ->]; apply cstep_same; reflexivity].
  stepn H arv s1 E1. apply getM_some in E1. destruct E1 as [-> _].
  destruct (truthy arv); [|apply ret_some in H; destruct H as [_ ->]; apply cstep_same; reflexivity].
  stepn H rows s2 E2. apply values_of_some in E2. destruct E2 as [-> _].
  stepn H picked s3 E3. apply index_rows_some in E3. destruct E3 as [-> _].
  eapply setM_cstep. exact H.
Qed.

Lemma link_collection_cstep docId c L a s L' s' :
  link_collection sails docId (VObj c) L a s = Some (L', s') ->
  cstep c (if opt_is (include a) "link" then [alias a] else []) s s'.
Proof.
  unfold link_collection. intros H.
  destruct (opt_is (include a) "link");
    [|apply ret_some in H; destruct H as [_ ->]; apply cstep_same; reflexivity].
  stepn H rid s1 E1. apply getM_some in E1. destruct E1 as [-> _].
  stepn H u2 s2 E2. apply ret_some in H. destruct H as [_ ->].
  eapply delM_cstep. exact E2.
Qed.

Lemma prepare_assoc_nosl emi docId ar c L a s L' s' :
  prepare_assoc pl sails emi docId false ar (VObj c) L a s = Some (L', s') ->
  cstep c (if rewrites_field a then [alias a] else []) s s'.
Proof.
  unfold prepare_assoc, rewrites_field. intros H.
  stepn H m s1 E1. apply models_get_some in E1. destruct E1 as [-> _].
  stepn H L1 s2 E2. stepn H u3 s3 E3. apply ret_some in H. destruct H as [_ ->].
  assert (Hs3 : s3 = s2).
  { destruct (String.eqb (type a) "model");
      [exact (sideload_model_nosl _ _ _ _ _ _ E3)
      | apply ret_some in E3; apply E3]. }
  subst s3.
  destruct (String.eqb (type a) "collection"); simpl;
    [|apply ret_some in E2; destruct E2 as [_ ->]; apply cstep_same; reflexivity].
  stepn E2 v s4 E4. apply via_key_some in E4. destruct E4 as [-> _].
  stepn E2 u5 s5 E5. apply sideload_collection_nosl in E5. subst s5.
  stepn E2 u6 s6 E6. apply index_collection_cstep in E6.
  apply link_collection_cstep in E2.
  pose proof (cstep_trans _ _ _ _ _ _ E6 E2) as Hc.
  eapply cstep_weaken; [|exact Hc].
  destruct (opt_is (include a) "index"), (opt_is (include a) "link"); simpl;
    intros x Hx; simpl in *; tauto.
Qed.

Lemma prep_fold_nosl emi docId ar c assocs L s L' s' :
  foldM (prepare_assoc pl sails emi docId false ar (VObj c)) assocs L s = Some (L', s') ->
  cstep c (map alias (filter rewrites_field assocs)) s s'.
Proof.
  revert L s. induction assocs as [|a assocs IH]; intros L s H; simpl in H.
  - apply ret_some in H. destruct H as [-> ->]. apply cstep_same. reflexivity.
  - stepn H L1 s1 E1. apply prepare_assoc_nosl in E1. apply IH in H.
    pose proof (cstep_trans _ _ _ _ _ _ E1 H) as Hc. simpl.
    destruct (rewrites_field a); exact Hc.
Qed.

Lemma prepareOneRecord_nosl emi docId assocs ar v s r s' :
  prepareOneRecord pl sails emi docId assocs false ar v s = Some (r, s') ->
  exists l o o', v = VObj l /\ st_heap s l = Some o /\ r = VObj (st_next s) /\
    st_heap s' (st_next s) = Some o' /\
    (forall k, k <> "links" -> ~ In k (map alias (filter rewrites_field assocs)) ->
       assoc_get k o' = assoc_get k o) /\
    st_json s' = st_json s /\ st_next s' = N.succ (st_next s) /\
    (forall l', l' <> st_next s -> st_heap s' l' = st_heap s l').
Proof.
  unfold prepareOneRecord. intros H.
  stepn H props s1 E1. apply toJSON_some in E1. destruct E1 as [-> (l & -> & Hl)].
  stepn H rec s2 E2. apply alloc_some in E2. destruct E2 as [-> ->].
  stepn H L s3 E3. apply prep_fold_nosl in E3.
  destruct E3 as (J3 & N3 & G3 & C3). simpl in J3, N3, G3, C3.
  destruct (C3 props) as (oB & HoB & KB); [apply heap_upd_eq|].
  stepn H u4 s4 E4. apply ret_some in H. destruct H as [-> ->].
  assert (E : exists o', st_heap s4 (st_next s) = Some o' /\
     (forall k, k <> "links" -> assoc_get k o' = assoc_get k oB) /\
     st_json s4 = st_json s3 /\ st_next s4 = st_next s3 /\
     (forall l', l' <> st_next s -> st_heap s4 l' = st_heap s3 l')).
  { destruct (Nat.ltb 0 (List.length L)).
    - apply setM_cstep in E4. destruct E4 as (J4 & N4 & G4 & C4).
      destruct (C4 oB HoB) as (o' & Ho' & K4). exists o'. repeat split; auto.
      intros k Hk. apply K4. intros [<-|[]]. apply Hk. reflexivity.
    - apply ret_some in E4. destruct E4 as [_ ->]. exists oB. auto. }
  destruct E as (o' & Ho' & K4 & J4 & N4 & G4).
  exists l, props, o'. repeat split; auto.
  - intros k Hk Hn. rewrite K4 by exact Hk. apply KB. exact Hn.
  - congruence.
  - congruence.
  - intros l' Hl'. rewrite G4, G3 by auto. apply heap_upd_neq. auto.
Qed.

Lemma build_loop_nosl emi docId assocs ar rs s u s' acc :
  iterM (fun record =>
           old <- json_get docId ;;
           r <- prepareOneRecord pl sails emi docId assocs false ar record ;;
           json_set docId (js_concat old r)) rs s = Some (u, s') ->
  st_json s = [(docId, acc)] ->
  (st_next s <= st_next s')%N /\
  (forall l, (l < st_next s)%N -> st_heap s' l = st_heap s l) /\
  exists more, st_json s' = [(docId, acc ++ more)] /\
    Forall2 (fun r v => exists l c o', r = VObj l /\ v = VObj c /\
       st_heap s' c = Some o' /\
       ((l < st_next s)%N -> exists o, st_heap s l = Some o /\
          forall k, k <> "links" -> ~ In k (map alias (filter rewrites_field assocs)) ->
            assoc_get k o' = assoc_get k o)) rs more.
Proof.
  revert s acc. induction rs as [|r rs IH]; intros s acc H Hj; simpl in H.
  - apply ret_some in H. destruct H as [_ ->]. split; [lia|]. split; auto.
    exists []. rewrite app_nil_r. auto.
  - stepn H u1 s1 E1. stepn E1 old s2 E2. apply json_get_some in E2.
    destruct E2 as [-> Hold]. rewrite Hj in Hold. simpl in Hold.
    rewrite String.eqb_refl in Hold. injection Hold as <-.
    stepn E1 v s3 E3. apply json_set_some in E1. subst s1.
    apply prepareOneRecord_nosl in E3.
    destruct E3 as (l & o & o' & -> & Hl & -> & Ho' & Ko & J3 & N3 & G3).
    set (c := st_next s) in *.
    assert (Hj1 : st_json (with_json s3 (assoc_set docId (js_concat acc (VObj c)) (st_json s3)))
                  = [(docId, acc ++ [VObj c])]).
    { simpl. rewrite J3, Hj. simpl. rewrite String.eqb_refl. reflexivity. }
    destruct (IH _ _ H Hj1) as (Hn & F & more & Hm & HF). simpl in Hn, F.
    split; [unfold c in *; lia|]. split.
    + intros l' Hl'. rewrite F by (unfold c in *; simpl in *; rewrite ?N3; lia). apply G3. unfold c in *. lia.
    + exists (VObj c :: more). split; [rewrite Hm, <- app_assoc; reflexivity|].
      constructor.
      * exists l, c, o'. split; [reflexivity|]. split; [reflexivity|].
        split; [rewrite F by (unfold c in *; simpl in *; rewrite ?N3; lia); exact Ho'|].
        intros _. exists o. split; auto.
      * eapply Forall2_impl; [|exact HF].
        intros r' v' (l' & c' & o'' & P1 & P2 & P3 & P4). exists l', c', o''.
        split; [exact P1|]. split; [exact P2|]. split; [exact P3|].
        intros Hl'. rewrite <- G3 by (unfold c in *; simpl in *; rewrite ?N3; lia). apply P4. simpl. rewrite N3. unfold c in *. lia.
Qed.

Lemma build_records_nosl mdl records assocs ar s u s' :
  build_records pl sails mdl records assocs false ar s = Some (u, s') ->
  let docId := convertModelName pl sails (globalId mdl) true in
  (forall l, (l < st_next s)%N -> st_heap s' l = st_heap s l) /\
  exists root, st_json s' = [(docId, root)] /\
    Forall2 (fun r v => exists l c o', r = VObj l /\ v = VObj c /\
       st_heap s' c = Some o' /\
       ((l < st_next s)%N -> exists o, st_heap s l = Some o /\
          forall k, k <> "links" -> ~ In k (map alias (filter rewrites_field assocs)) ->
            assoc_get k o' = assoc_get k o)) (records_list records) root.
Proof.
  unfold build_records. cbv zeta. intros H.
  set (docId := convertModelName pl sails (globalId mdl) true) in *.
  unfold init_document in H. stepn H u1 s1 E1. stepn E1 u2 s2 E2.
  inversion E2; subst s2. apply ret_some in E1. destruct E1 as [_ ->].
  assert (Single : forall v, (r <- prepareOneRecord pl sails (globalId mdl) docId assocs false ar v;;
       json_set docId [r]) (with_json s [(docId, [])]) = Some (u, s') ->
    (forall l, (l < st_next s)%N -> st_heap s' l = st_heap s l) /\
    exists root, st_json s' = [(docId, root)] /\
    Forall2 (fun r v => exists l c o', r = VObj l /\ v = VObj c /\
       st_heap s' c = Some o' /\
       ((l < st_next s)%N -> exists o, st_heap s l = Some o /\
          forall k, k <> "links" -> ~ In k (map alias (filter rewrites_field assocs)) ->
            assoc_get k o' = assoc_get k o)) [v] root).
  { intros v Hv. stepn Hv r s3 E3. apply json_set_some in Hv. subst s'.
    apply prepareOneRecord_nosl in E3.
    destruct E3 as (l & o & o' & Hr & Hl & -> & Ho' & Ko & J3 & N3 & G3).
    simpl in *. split.
    - intros l' Hl'. apply G3. lia.
    - exists [VObj (st_next s)]. split.
      + rewrite J3. simpl. rewrite String.eqb_refl. reflexivity.
      + constructor; [|constructor]. exists l, (st_next s), o'.
        split; [exact Hr|]. split; [reflexivity|]. split; [exact Ho'|].
        intros _. exists o. split; [exact Hl|exact Ko]. }
  destruct records as [| | | | |vs| |]; try (apply Single; exact H).
  apply (build_loop_nosl _ _ _ _ _ _ _ _ []) in H; [|reflexivity].
  destruct H as (Hn & F & more & Hm & HF).
  split; [exact F|]. exists more. split; [exact Hm|]. exact HF.
Qed.

End NoSideload.

(** X4: without sideloading, the returned document has the root key
    only, and every object that existed before the call is left exactly
    as it was. *)
Theorem buildResponse_nosideload_frame pl sails mdl records assocs ar s d s' :
  buildResponse pl sails mdl records assocs false ar s = Some (d, s') ->
  map fst d = [convertModelName pl sails (globalId mdl) true] /\
  forall l, (l < st_next s)%N -> st_heap s' l = st_heap s l.
Proof.
  intros H. apply buildResponse_run in H. destruct H as (sm & Hb & -> & ->).
  apply build_records_nosl in Hb. destruct Hb as (F & root & Hj & _).
  rewrite Hj. split; [reflexivity | exact F].
Qed.

(** X6: without sideloading, every output record agrees with its input
    record on every property except [links] and the aliases of the
    collection associations included as [index] or [link]. *)
Theorem buildResponse_nosideload_fields pl sails mdl records assocs ar s d s' :
  buildResponse pl sails mdl records assocs false ar s = Some (d, s') ->
  below (st_next s) records = true ->
  exists root,
    assoc_get (convertModelName pl sails (globalId mdl) true) d = Some root /\
    Forall2 (fun r out => exists l o c o',
       r = VObj l /\ st_heap s l = Some o /\ out = VObj c /\ st_heap s' c = Some o' /\
       forall k, k <> "links" -> ~ In k (map alias (filter rewrites_field assocs)) ->
         assoc_get k o' = assoc_get k o)
      (records_list records) root.
Proof.
  intros H Hr. apply buildResponse_run in H. destruct H as (sm & Hb & -> & ->).
  apply build_records_nosl in Hb. destruct Hb as (_ & root & Hj & HF).
  exists root. rewrite Hj. simpl. rewrite String.eqb_refl. split; [reflexivity|].
  assert (Hrs : forallb (below (st_next s)) (records_list records) = true)
    by (destruct records; simpl in *; rewrite ?Hr; auto).
  clear Hj Hr. induction HF as [|r v rs vs Hrv HF IH]; constructor.
  - simpl in Hrs. apply andb_prop in Hrs. destruct Hrs as [Hr _].
    destruct Hrv as (l & c & o' & -> & -> & Ho' & Hk).
    simpl in Hr. apply N.ltb_lt in Hr. destruct (Hk Hr) as (o & Ho & K).
    exists l, o, c, o'. auto.
  - apply IH. simpl in Hrs. apply andb_prop in Hrs. apply Hrs.
Qed.

(** ** Further properties: allocation of the clones *)

Lemma pres_next_same {A} (m : M A) n :
  (forall s a s', m s = Some (a, s') -> st_next s' = st_next s) -> pres (next_is n) m.
Proof. intros H s a s' Hs E. unfold next_is in *. rewrite (H _ _ _ E). exact Hs. Qed.

Lemma getM_next v k s a s' : getM v k s = Some (a, s') -> st_next s' = st_next s.
Proof. intros E. apply getM_some in E. destruct E as [-> _]. reflexivity. Qed.
Lemma setM_next v k x s a s' : setM v k x s = Some (a, s') -> st_next s' = st_next s.
Proof. intros E. apply setM_some in E. destruct E as [(l & o & _ & _ & ->) | (-> & _)]; reflexivity. Qed.
Lemma delM_next v k s a s' : delM v k s = Some (a, s') -> st_next s' = st_next s.
Proof. intros E. apply delM_some in E. destruct E as [(l & o & _ & _ & ->) | (-> & _)]; reflexivity. Qed.
Lemma values_of_next v s a s' : values_of v s = Some (a, s') -> st_next s' = st_next s.
Proof. intros E. apply values_of_some in E. destruct E as [-> _]. reflexivity. Qed.
Lemma json_get_next k s a s' : json_get k s = Some (a, s') -> st_next s' = st_next s.
Proof. intros E. apply json_get_some in E. destruct E as [-> _]. reflexivity. Qed.
Lemma json_set_next k b s a s' : json_set k b s = Some (a, s') -> st_next s' = st_next s.
Proof. intros E. apply json_set_some in E. subst. reflexivity. Qed.
Lemma json_del_next k s a s' : json_del k s = Some (a, s') -> st_next s' = st_next s.
Proof. intros E. apply json_del_some in E. subst. reflexivity. Qed.
Lemma json_has_next k s a s' : json_has k s = Some (a, s') -> st_next s' = st_next s.
Proof. intros E. apply json_has_some in E. destruct E as [-> _]. reflexivity. Qed.
Lemma models_get_next sails k s a s' : models_get sails k s = Some (a, s') -> st_next s' = st_next s.
Proof. intros E. apply models_get_some in E. destruct E as [-> _]. reflexivity. Qed.
Lemma toJSON_next v s a s' : toJSON v s = Some (a, s') -> st_next s' = st_next s.
Proof. intros E. apply toJSON_some in E. destruct E as [-> _]. reflexivity. Qed.
Lemma linkAssociations_next pl sails mdl v s a s' :
  linkAssociations pl sails mdl v s = Some (a, s') -> st_next s' = st_next s.
Proof. intros E. apply linkAssociations_heap in E. apply E. Qed.

Create HintDb nsame.

#[local] Hint Resolve getM_next setM_next delM_next values_of_next json_get_next
  json_set_next json_del_next json_has_next models_get_next toJSON_next
  linkAssociations_next : nsame.

Ltac next_auto :=
  repeat (cbv beta zeta;
    match goal with
    | |- pres _ (bind _ _) => apply pres_bind; [|intro]
    | |- pres _ (foldM _ _ _) => apply pres_foldM; intros
    | |- pres _ (mapM _ _) => apply pres_mapM; intros
    | |- pres _ (iterM _ _) => apply pres_iterM; intros
    | |- pres _ (if ?b then _ else _) => destruct b
    | |- pres _ (match ?x with _ => _ end) => destruct x
    | |- pres _ (ret _) => apply pres_ret
    | |- pres _ throw => apply pres_throw
    | |- pres _ _ =>
        apply pres_next_same; intros ? ? ? ?E; solve [eauto with nsame]
    end).

Lemma prepare_assoc_next pl sails emi docId sideload ar record L a n :
  pres (next_is n) (prepare_assoc pl sails emi docId sideload ar record L a).
Proof.
  unfold prepare_assoc, via_key, sideload_collection, index_collection, index_row,
    link_collection, sideload_model.
  next_auto.
Qed.

Lemma prepareOneRecord_next pl sails emi docId assocs sideload ar v s r s' :
  prepareOneRecord pl sails emi docId assocs sideload ar v s = Some (r, s') ->
  r = VObj (st_next s) /\ st_next s' = N.succ (st_next s).
Proof.
  unfold prepareOneRecord. intros H. stepn H props s1 E1.
  apply toJSON_some in E1. destruct E1 as [-> _]. stepn H rec s2 E2.
  apply alloc_some in E2. destruct E2 as [-> ->].
  stepn H L s3 E3.
  assert (N3 : next_is (N.succ (st_next s)) s3).
  { eapply pres_foldM; [intros; apply prepare_assoc_next | | exact E3].
    unfold next_is. reflexivity. }
  unfold next_is in N3.
  stepn H u4 s4 E4. apply ret_some in H. destruct H as [-> ->]. split; [reflexivity|].
  rewrite <- N3.
  destruct (Nat.ltb 0 (List.length L));
    [eapply setM_next; exact E4 | apply ret_some in E4; destruct E4 as [_ ->]; reflexivity].
Qed.


Lemma fresh_from_S n k : fresh_from n (S k) = VObj n :: fresh_from (N.succ n) k.
Proof.
  unfold fresh_from. simpl. rewrite N.add_0_r. f_equal.
  rewrite <- seq_shift, map_map. apply map_ext. intros i. f_equal. lia.
Qed.

Lemma build_loop_fresh pl sails emi docId assocs sideload ar rs s u s' acc :
  iterM (fun record =>
           old <- json_get docId ;;
           r <- prepareOneRecord pl sails emi docId assocs sideload ar record ;;
           json_set docId (js_concat old r)) rs s = Some (u, s') ->
  assoc_get docId (st_json s) = Some acc ->
  assoc_get docId (st_json s') = Some (acc ++ fresh_from (st_next s) (length rs)) /\
  st_next s' = (st_next s + N.of_nat (length rs))%N.
Proof.
  revert s acc. induction rs as [|r rs IH]; intros s acc H Hj; simpl in H.
  - apply ret_some in H. destruct H as [_ ->]. rewrite app_nil_r. split; [exact Hj|].
    simpl. lia.
  - stepn H u1 s1 E1. stepn E1 old s2 E2. apply json_get_some in E2.
    destruct E2 as [-> Hold]. rewrite Hj in Hold. injection Hold as <-.
    stepn E1 v s3 E3. apply json_set_some in E1. subst s1.
    apply prepareOneRecord_next in E3. destruct E3 as [-> N3].
    destruct (IH _ (acc ++ [VObj (st_next s)]) H) as [Hr Hn].
    + simpl. apply assoc_get_set_eq.
    + simpl in Hr, Hn. rewrite N3 in Hr, Hn. split.
      * rewrite Hr, <- app_assoc. simpl length. rewrite fresh_from_S. reflexivity.
      * rewrite Hn. simpl length. lia.
Qed.

Lemma build_records_fresh pl sails mdl records assocs sideload ar s u s' :
  build_records pl sails mdl records assocs sideload ar s = Some (u, s') ->
  assoc_get (convertModelName pl sails (globalId mdl) true) (st_json s') =
    Some (fresh_from (st_next s) (length (records_list records))) /\
  st_next s' = (st_next s + N.of_nat (length (records_list records)))%N.
Proof.
  unfold build_records. cbv zeta. intros H.
  set (docId := convertModelName pl sails (globalId mdl) true) in *.
  stepn H u1 s1 E1.
  apply (init_document_some pl sails (st_next s) docId) in E1.
  destruct E1 as (_ & N1 & _ & R1).
  assert (Single : forall v,
    (r <- prepareOneRecord pl sails (globalId mdl) docId assocs sideload ar v;;
     json_set docId [r]) s1 = Some (u, s') ->
    assoc_get docId (st_json s') = Some (fresh_from (st_next s) 1) /\
    st_next s' = (st_next s + N.of_nat 1)%N).
  { intros v Hv. stepn Hv r s3 E3. apply json_set_some in Hv. subst s'.
    apply prepareOneRecord_next in E3. destruct E3 as [-> N3]. simpl.
    rewrite assoc_get_set_eq, N3, N1. unfold fresh_from. simpl.
    rewrite N.add_0_r. split; [reflexivity | lia]. }
  destruct records as [| | | | |vs| |]; [exact (Single _ H)|..].
  all: try (exact (Single _ H)).
  apply (build_loop_fresh _ _ _ _ _ _ _ _ _ _ _ []) in H; [|exact R1].
  rewrite N1 in H. exact H.
Qed.

(** Whatever the sideloading mode, the root bucket lists the clones of
    the input records, in input order, at the locations allocated from the
    first free one on, one per record. *)
Lemma buildResponse_root_alloc pl sails mdl records assocs sideload ar s d s' :
  buildResponse pl sails mdl records assocs sideload ar s = Some (d, s') ->
  assoc_get (convertModelName pl sails (globalId mdl) true) d =
    Some (fresh_from (st_next s) (length (records_list records))) /\
  st_next s' = (st_next s + N.of_nat (length (records_list records)))%N.
Proof.
  intros H. apply buildResponse_run in H. destruct H as (sm & Hb & -> & Hf).
  pose proof (build_records_nodup_any _ _ _ _ _ _ _ _ _ _ Hb) as Hnd.
  apply build_records_fresh in Hb. destruct Hb as [R N].
  destruct sideload.
  - apply (finish_sideload_spec _ _ _ (st_next s)) in Hf; [|exact Hnd].
    destruct Hf as (Nf & _ & Rf & _). rewrite Rf, Nf. auto.
  - subst s'. auto.
Qed.

Lemma fresh_from_locs n k :
  fresh_from n k = map VObj (map (fun i => (n + N.of_nat i)%N) (seq 0 k)).
Proof. unfold fresh_from. rewrite map_map. reflexivity. Qed.

Lemma fresh_locs_nodup n k : NoDup (map (fun i => (n + N.of_nat i)%N) (seq 0 k)).
Proof.
  generalize 0%nat. induction k as [|k IH]; intros b; simpl; constructor; [|apply IH].
  intros Hin. apply in_map_iff in Hin. destruct Hin as (i & E & Hi).
  apply in_seq in Hi. lia.
Qed.

Lemma fresh_locs_above n k :
  Forall (fun l => (n <= l)%N) (map (fun i => (n + N.of_nat i)%N) (seq 0 k)).
Proof.
  apply Forall_forall. intros l Hl. apply in_map_iff in Hl.
  destruct Hl as (i & <- & _). lia.
Qed.


(** ** Further properties: calls that throw *)

Lemma bind_none {A B} (m : M A) (k : A -> M B) s :
  (forall a s1, m s = Some (a, s1) -> k a s1 = None) -> bind m k s = None.
Proof. unfold bind. destruct (m s) as [[a s1]|]; auto. Qed.

Lemma iterM_none {A} (f : A -> M unit) l x :
  In x l -> (forall s, f x s = None) -> forall s, iterM f l s = None.
Proof.
  intros Hin Hf. induction l as [|y l IH]; [destruct Hin|]. intros s. simpl.
  apply bind_none. intros u s1 E. destruct Hin as [<-|Hin].
  - rewrite Hf in E. discriminate.
  - apply IH. exact Hin.
Qed.

Lemma foldM_none {A B} (f : B -> A -> M B) l x :
  In x l -> (forall acc s, f acc x s = None) -> forall acc s, foldM f l acc s = None.
Proof.
  intros Hin Hf. induction l as [|y l IH]; [destruct Hin|]. intros acc s. simpl.
  apply bind_none. intros acc1 s1 E. destruct Hin as [<-|Hin].
  - rewrite Hf in E. discriminate.
  - apply IH. exact Hin.
Qed.

Section Failures.

Variable pl : Pluralize.
Variable sails : Sails.

Lemma prepareOneRecord_none emi docId assocs sideload ar a :
  In a assocs ->
  (forall c L s, prepare_assoc pl sails emi docId sideload ar (VObj c) L a s = None) ->
  forall v s, prepareOneRecord pl sails emi docId assocs sideload ar v s = None.
Proof.
  intros Hin Ha v s. unfold prepareOneRecord. apply bind_none. intros props s1 _.
  apply bind_none. intros rec s2 E2. apply alloc_some in E2. destruct E2 as [-> _].
  apply bind_none. intros L s3 E3.
  rewrite (foldM_none _ _ a Hin (fun acc s => Ha _ acc s)) in E3. discriminate.
Qed.

Lemma build_records_none mdl records assocs sideload ar r :
  In r (records_list records) ->
  (forall s, prepareOneRecord pl sails (globalId mdl)
               (convertModelName pl sails (globalId mdl) true) assocs sideload ar r s = None) ->
  forall s, build_records pl sails mdl records assocs sideload ar s = None.
Proof.
  intros Hin Hr s. unfold build_records. cbv zeta. apply bind_none. intros u s1 _.
  destruct records as [| | | | |vs| |];
    try (simpl in Hin; destruct Hin as [<-|[]]; apply bind_none; intros r' s2 E;
         rewrite Hr in E; discriminate).
  apply (iterM_none _ _ r Hin). intros s2. apply bind_none. intros old s3 _.
  apply bind_none. intros r' s4 E. rewrite Hr in E. discriminate.
Qed.

Lemma buildResponse_none mdl records assocs sideload ar s :
  build_records pl sails mdl records assocs sideload ar s = None ->
  buildResponse pl sails mdl records assocs sideload ar s = None.
Proof. intros H. unfold buildResponse. apply bind_none. intros u s1 E. congruence. Qed.

Lemma records_list_nonempty records : records_list records <> [] ->
  exists r, In r (records_list records).
Proof. destruct (records_list records) as [|r rs]; [congruence|]. exists r. left. reflexivity. Qed.

Lemma prepare_assoc_none_model emi docId sideload ar record L a s :
  models sails (target_key a) = None ->
  prepare_assoc pl sails emi docId sideload ar record L a s = None.
Proof. intros Hm. unfold prepare_assoc, bind, models_get. rewrite Hm. reflexivity. Qed.

Lemma prepare_assoc_none_via emi docId sideload ar record L a s :
  type a = "collection" -> via a = None ->
  prepare_assoc pl sails emi docId sideload ar record L a s = None.
Proof.
  intros Ht Hv. unfold prepare_assoc. apply bind_none. intros m s1 _.
  apply bind_none. intros L1 s2 E. rewrite Ht in E. cbv beta iota in E.
  rewrite String.eqb_refl in E.
  unfold via_key, bind at 1 in E. unfold bind at 1 in E. rewrite Hv in E.
  discriminate.
Qed.

Lemma prepare_assoc_none_index emi docId sideload ar record L a s :
  type a = "collection" -> include a = Some "index" -> (ar = VUndef \/ ar = VNull) ->
  prepare_assoc pl sails emi docId sideload ar record L a s = None.
Proof.
  intros Ht Hi Har. unfold prepare_assoc. apply bind_none. intros m s1 _.
  apply bind_none. intros L1 s2 E. rewrite Ht, String.eqb_refl in E.
  stepn E w s3 E3. stepn E u4 s4 E4. stepn E u5 s5 E5.
  unfold index_collection in E5. rewrite Hi in E5. simpl in E5.
  stepn E5 x s6 E6. apply getM_some in E6. destruct E6 as [_ E6].
  destruct Har as [-> | ->]; discriminate.
Qed.

Lemma prepare_sideload_none assocs a :
  In a assocs -> include a = Some "record" -> models sails (target_key a) = None ->
  forall s, prepare_sideload pl sails assocs s = None.
Proof.
  intros Hin Hi Hm. unfold prepare_sideload. apply (iterM_none _ _ a Hin).
  intros s. rewrite Hi. simpl. unfold bind, models_get. rewrite Hm. reflexivity.
Qed.

End Failures.

(** X8: [buildResponse] throws when one of the records is not a record
    object ([record.toJSON()], line 103), e.g. when [records] is
    [undefined]. *)
Theorem buildResponse_non_object pl sails mdl records assocs sideload ar s r :
  In r (records_list records) -> (forall l, r <> VObj l) ->
  buildResponse pl sails mdl records assocs sideload ar s = None.
Proof.
  intros Hin Hr. apply buildResponse_none. apply (build_records_none _ _ _ _ _ _ _ r Hin).
  intros s1. unfold prepareOneRecord, bind at 1, toJSON.
  destruct r; try reflexivity. exfalso. eapply Hr. reflexivity.
Qed.

(** X9: an association whose target model is not registered in
    [sails.models] makes [buildResponse] throw, as soon as there is a
    record to prepare or the association is sideloaded. *)
Theorem buildResponse_missing_model pl sails mdl records assocs sideload ar s a :
  In a assocs -> models sails (target_key a) = None ->
  (records_list records <> [] \/ (sideload = true /\ include a = Some "record")) ->
  buildResponse pl sails mdl records assocs sideload ar s = None.
Proof.
  intros Hin Hm [Hne | [-> Hi]].
  - destruct (records_list_nonempty _ Hne) as [r Hr].
    apply buildResponse_none. apply (build_records_none _ _ _ _ _ _ _ r Hr).
    apply (prepareOneRecord_none _ _ _ _ _ _ _ _ Hin).
    intros c L s1. apply prepare_assoc_none_model. exact Hm.
  - apply buildResponse_none. unfold build_records, init_document. cbv zeta.
    apply bind_none. intros u s1 E. exfalso. unfold bind at 1 in E.
    rewrite (prepare_sideload_none _ _ _ _ Hin Hi Hm) in E. discriminate.
Qed.

(** X10: a collection association without [via] makes [buildResponse]
    throw on any non-empty input ([pluralize(undefined, 1)], line 113). *)
Theorem buildResponse_missing_via pl sails mdl records assocs sideload ar s a :
  In a assocs -> type a = "collection" -> via a = None -> records_list records <> [] ->
  buildResponse pl sails mdl records assocs sideload ar s = None.
Proof.
  intros Hin Ht Hv Hne. destruct (records_list_nonempty _ Hne) as [r Hr].
  apply buildResponse_none. apply (build_records_none _ _ _ _ _ _ _ r Hr).
  apply (prepareOneRecord_none _ _ _ _ _ _ _ _ Hin).
  intros c L s1. apply prepare_assoc_none_via; assumption.
Qed.

(** X11: an [index] collection association with [associatedRecords]
    [undefined] or [null] makes [buildResponse] throw on any non-empty
    input (line 125). *)
Theorem buildResponse_index_without_rows pl sails mdl records assocs sideload ar s a :
  In a assocs -> type a = "collection" -> include a = Some "index" ->
  (ar = VUndef \/ ar = VNull) -> records_list records <> [] ->
  buildResponse pl sails mdl records assocs sideload ar s = None.
Proof.
  intros Hin Ht Hi Har Hne. destruct (records_list_nonempty _ Hne) as [r Hr].
  apply buildResponse_none. apply (build_records_none _ _ _ _ _ _ _ r Hr).
  apply (prepareOneRecord_none _ _ _ _ _ _ _ _ Hin).
  intros c L s1. apply prepare_assoc_none_index; assumption.
Qed.

(** ** Further properties: empty input *)

Lemma all_empty_set k j : all_empty j -> all_empty (assoc_set k [] j).
Proof.
  unfold all_empty. induction j as [|[k' b'] j IH]; simpl; intros Hj.
  - constructor; auto.
  - inversion Hj; subst. destruct (String.eqb k k'); constructor; auto.
Qed.

Lemma all_empty_get k j b : all_empty j -> assoc_get k j = Some b -> b = [].
Proof.
  unfold all_empty. induction j as [|[k' b'] j IH]; simpl; intros Hj; [discriminate|].
  inversion Hj; subst. destruct (String.eqb k k'); [intros E; inversion E; subst; auto | auto].
Qed.

Lemma all_empty_closed n d j : all_empty j -> closed_json n d j.
Proof.
  unfold all_empty, closed_json. intros H. eapply Forall_impl; [|exact H].
  intros [k b] Hb _. simpl in *. subst. reflexivity.
Qed.

Lemma single_key_doc {A} (d : list (string * A)) x v :
  NoDup (map fst d) -> assoc_get x d = Some v ->
  (forall k, k <> x -> assoc_get k d = None) -> d = [(x, v)].
Proof.
  intros Hnd Hx Ho.
  assert (Hk : forall k, In k (map fst d) -> k = x).
  { intros k Hk. destruct (String.eqb_spec k x) as [|Hne]; [assumption|].
    destruct (in_keys_get k d Hk) as [w Hw]. rewrite Ho in Hw by exact Hne. discriminate. }
  destruct d as [|[k1 v1] d]; [discriminate|].
  assert (k1 = x) as -> by (apply Hk; left; reflexivity).
  simpl in Hx. rewrite String.eqb_refl in Hx. injection Hx as ->.
  destruct d as [|[k2 v2] d]; [reflexivity|].
  exfalso. simpl in Hnd. inversion Hnd as [|? ? Hn _]; subst.
  apply Hn. left. apply Hk. right. left. reflexivity.
Qed.

Section Empty.

Variable pl : Pluralize.
Variable sails : Sails.

Lemma prepare_sideload_all_empty docId assocs s u s' :
  prepare_sideload pl sails assocs s = Some (u, s') ->
  all_empty (st_json s) -> assoc_get docId (st_json s) = Some [] ->
  all_empty (st_json s') /\ assoc_get docId (st_json s') = Some [] /\
  st_heap s' = st_heap s /\ st_next s' = st_next s.
Proof.
  unfold prepare_sideload. revert s.
  induction assocs as [|a assocs IH]; intros s H Hj Hr; simpl in H.
  - apply ret_some in H. destruct H as [_ ->]. auto.
  - stepn H u1 s1 E1.
    assert (all_empty (st_json s1) /\ assoc_get docId (st_json s1) = Some [] /\
            st_heap s1 = st_heap s /\ st_next s1 = st_next s) as (J1 & R1 & H1 & N1).
    { destruct (opt_is (include a) "record");
        [|apply ret_some in E1; destruct E1 as [_ ->]; auto].
      stepn E1 m s2 E2. apply models_get_some in E2. destruct E2 as [-> _].
      stepn E1 b s3 E3. apply json_has_some in E3. destruct E3 as [-> ->].
      destruct (has_key (alias a) (st_json s));
        [apply ret_some in E1; destruct E1 as [_ ->]; auto|].
      apply json_set_some in E1. subst s1. simpl. split; [apply all_empty_set; exact Hj|].
      split; [|auto].
      destruct (String.eqb_spec docId (convertModelName pl sails (globalId m) true)) as [<-|Hne].
      + apply assoc_get_set_eq.
      + rewrite assoc_get_set_neq by (intros E; apply Hne; symmetry; exact E). exact Hr. }
    destruct (IH _ H J1 R1) as (J & R & Hh & Hn). split; [exact J|]. split; [exact R|].
    split; congruence.
Qed.

Lemma buildResponse_json_irrelevant mdl records assocs sideload ar s j :
  buildResponse pl sails mdl records assocs sideload ar (with_json s j) =
  buildResponse pl sails mdl records assocs sideload ar s.
Proof. reflexivity. Qed.

End Empty.

(** An empty array of records: the document with the empty root bucket
    only, the heap as it was. *)
Lemma buildResponse_empty_run pl sails mdl assocs sideload ar s d s' :
  buildResponse pl sails mdl (VArr []) assocs sideload ar s = Some (d, s') ->
  d = [(convertModelName pl sails (globalId mdl) true, [])] /\
  (forall l, st_heap s' l = st_heap s l) /\ st_next s' = st_next s.
Proof.
  intros H.
  assert (Hnd : NoDup (map fst d)).
  { rewrite <- (buildResponse_json_irrelevant _ _ _ _ _ _ _ _ []) in H.
    assert (H0 : json_nodup (with_json s [])) by constructor.
    pose proof (buildResponse_nodup pl sails mdl (VArr []) assocs sideload ar
                  _ _ _ H0 H) as Hn.
    apply buildResponse_run in H. destruct H as (sm & _ & -> & _). exact Hn. }
  apply buildResponse_run in H. destruct H as (sm & Hb & -> & Hf).
  pose proof (build_records_nodup_any _ _ _ _ _ _ _ _ _ _ Hb) as Hnd1.
  set (docId := convertModelName pl sails (globalId mdl) true) in *.
  unfold build_records in Hb. cbv zeta in Hb. fold docId in Hb.
  stepn Hb u1 s1 E1. simpl in Hb. apply ret_some in Hb. destruct Hb as [_ ->].
  unfold init_document in E1. stepn E1 u0 s0 E0. inversion E0; subst u0 s0. clear E0.
  assert (all_empty (st_json s1) /\ assoc_get docId (st_json s1) = Some [] /\
          st_heap s1 = st_heap s /\ st_next s1 = st_next s) as (J1 & R1 & H1 & N1).
  { destruct sideload.
    - apply (prepare_sideload_all_empty _ _ docId) in E1;
        [exact E1 | repeat constructor | simpl; rewrite String.eqb_refl; reflexivity].
    - pose proof E1 as E1'. apply ret_some in E1'. destruct E1' as [_ ->]. simpl.
      split; [repeat constructor|]. rewrite String.eqb_refl. auto. }
  destruct sideload.
  - pose proof (finish_sideload_spec pl sails docId 0%N s1 tt s' Hf) as Hs.
    destruct (Hs Hnd1) as (Nf & _ & Rf & Of & Ff).
    split; [|split].
    + apply single_key_doc; [exact Hnd | rewrite Rf; exact R1 |].
      intros k Hk. rewrite (Of k Hk).
      destruct (assoc_get k (st_json s1)) as [b|] eqn:Hb; [|reflexivity].
      rewrite (all_empty_get _ _ _ J1 Hb). reflexivity.
    + intros l. rewrite <- H1. apply Ff; [apply all_empty_closed; exact J1 | lia].
    + congruence.
  - subst s'. apply ret_some in E1. destruct E1 as [_ E1]. subst s1. split; [|split; [intros l; rewrite H1; reflexivity | exact N1]].
    apply single_key_doc; [exact Hnd | exact R1 |].
    intros k Hk. simpl.
    destruct (String.eqb_spec k docId); [contradiction | reflexivity].
Qed.

(** X13: an empty array of records gives the document with the empty root
    bucket only, with or without sideloading, and no object that existed
    before the call is changed. *)
Theorem buildResponse_empty_input pl sails mdl assocs sideload ar s d s' :
  buildResponse pl sails mdl (VArr []) assocs sideload ar s = Some (d, s') ->
  d = [(convertModelName pl sails (globalId mdl) true, [])] /\
  forall l, (l < st_next s)%N -> st_heap s' l = st_heap s l.
Proof.
  intros H. apply buildResponse_empty_run in H. destruct H as (Hd & Hh & _).
  split; [exact Hd|]. intros l _. apply Hh.
Qed.

(** ** Further properties: an alias that shadows a bucket *)

Lemma foldM_inv_none {A B} (f : B -> A -> M B) (P : St -> Prop) l x :
  In x l -> (forall acc s, P s -> f acc x s = None) ->
  (forall y acc s r s', In y l -> P s -> f acc y s = Some (r, s') -> P s') ->
  forall acc s, P s -> foldM f l acc s = None.
Proof.
  intros Hin Hx Hy. induction l as [|y l IH]; [destruct Hin|]. intros acc s Hs.
  simpl. destruct Hin as [<-|Hin].
  - unfold bind. rewrite (Hx acc s Hs). reflexivity.
  - apply bind_none. intros r s1 E.
    apply IH; [exact Hin | intros; eapply Hy; [right|..]; eassumption |].
    eapply Hy; [left; reflexivity | exact Hs | exact E].
Qed.

Lemma NoDup_map_same {A B} (f : A -> B) l x y :
  NoDup (map f l) -> In x l -> In y l -> f x = f y -> x = y.
Proof.
  induction l as [|z l IH]; simpl; [intros _ []|]. intros Hnd Hx Hy E.
  inversion Hnd as [|? ? Hn Hnd']; subst.
  destruct Hx as [<-|Hx], Hy as [<-|Hy]; auto.
  - exfalso. apply Hn. rewrite E. apply in_map. exact Hy.
  - exfalso. apply Hn. rewrite <- E. apply in_map. exact Hx.
Qed.

Lemma has_key_set {A} k k' (v : A) j :
  has_key k j = true -> has_key k (assoc_set k' v j) = true.
Proof.
  unfold has_key. destruct (String.eqb_spec k' k) as [<-|Hne].
  - rewrite assoc_get_set_eq. reflexivity.
  - rewrite assoc_get_set_neq by exact Hne. auto.
Qed.

Section Shadow.

Variable pl : Pluralize.
Variable sails : Sails.

Lemma prepare_sideload_absent docId K assocs s u s' :
  (forall b, In b assocs -> include b = Some "record" ->
     alias b = docId \/
     forall mb, models sails (target_key b) = Some mb ->
       convertModelName pl sails (globalId mb) true <> K) ->
  has_key docId (st_json s) = true -> assoc_get K (st_json s) = None ->
  prepare_sideload pl sails assocs s = Some (u, s') ->
  has_key docId (st_json s') = true /\ assoc_get K (st_json s') = None.
Proof.
  unfold prepare_sideload. revert s.
  induction assocs as [|b assocs IH]; intros s Hc Hd HK H; simpl in H.
  - apply ret_some in H. destruct H as [_ ->]. auto.
  - stepn H u1 s1 E1.
    assert (has_key docId (st_json s1) = true /\ assoc_get K (st_json s1) = None)
      as [D1 K1].
    { destruct (opt_is (include b) "record") eqn:Hir;
        [|apply ret_some in E1; destruct E1 as [_ ->]; auto].
      apply opt_is_some in Hir.
      stepn E1 mb s2 E2. apply models_get_some in E2. destruct E2 as [-> Hmb].
      stepn E1 p s3 E3. apply json_has_some in E3. destruct E3 as [-> ->].
      destruct (has_key (alias b) (st_json s)) eqn:Hp;
        [apply ret_some in E1; destruct E1 as [_ ->]; auto|].
      apply json_set_some in E1. subst s1. simpl.
      destruct (Hc b (or_introl eq_refl) Hir) as [Ha|Hne].
      - rewrite Ha, Hd in Hp. discriminate.
      - split; [apply has_key_set; exact Hd|].
        rewrite assoc_get_set_neq by exact (Hne mb Hmb). exact HK. }
    apply (IH s1); auto. intros b' Hb'. apply Hc. right. exact Hb'.
Qed.

Lemma prepare_assoc_shadow_none emi docId ar a m c o x xs L s :
  type a = "collection" -> include a = Some "record" ->
  models sails (target_key a) = Some m ->
  assoc_get (convertModelName pl sails (globalId m) true) (st_json s) = None ->
  st_heap s c = Some o -> assoc_get (alias a) o = Some (VArr (x :: xs)) ->
  prepare_assoc pl sails emi docId true ar (VObj c) L a s = None.
Proof.
  intros Ht Hi Hm HK Hc Hf.
  destruct (prepare_assoc pl sails emi docId true ar (VObj c) L a s) as [[L' s']|] eqn:H;
    [exfalso|reflexivity].
  unfold prepare_assoc in H. stepn H m' s5 E5. apply models_get_some in E5.
  destruct E5 as [-> Hm']. rewrite Hm in Hm'. injection Hm' as <-.
  stepn H L2 s6 E6. clear H. rewrite Ht, String.eqb_refl in E6.
  stepn E6 w s7 E7. apply via_key_some in E7. destruct E7 as [-> _].
  stepn E6 u8 s8 E8. clear E6. unfold sideload_collection in E8.
  rewrite Hi in E8. simpl in E8.
  stepn E8 go s9 E9. stepn E9 f s10 E10. apply getM_some in E10.
  destruct E10 as [-> Hf']. simpl in Hf'. rewrite Hc, Hf in Hf'.
  injection Hf' as <-. simpl in E9.
  stepn E9 len s11 E11. apply getM_some in E11. destruct E11 as [-> Hlen].
  simpl in Hlen. injection Hlen as <-. apply ret_some in E9. destruct E9 as [-> ->].
  simpl in E8.
  stepn E8 am s12 E12.
  assert (s12 = s) as ->.
  { destruct (models sails (opt_key (collection a))); [|discriminate].
    apply ret_some in E12. apply E12. }
  stepn E8 bucket s13 E13. apply json_get_some in E13. destruct E13 as [_ Hb].
  rewrite HK in Hb. discriminate.
Qed.

Lemma prepareOneRecord_shadow_none emi docId assocs ar a m l o x xs s r s' :
  In a assocs -> NoDup (map alias assocs) ->
  type a = "collection" -> include a = Some "record" ->
  models sails (target_key a) = Some m ->
  (forall b mb, In b assocs -> alias b <> alias a -> include b = Some "record" ->
     models sails (target_key b) = Some mb ->
     convertModelName pl sails (globalId mb) true <>
       convertModelName pl sails (globalId m) true) ->
  closed_heap (st_next s) (st_heap s) -> all_empty (st_json s) ->
  below (st_next s) ar = true ->
  assoc_get (convertModelName pl sails (globalId m) true) (st_json s) = None ->
  st_heap s l = Some o -> assoc_get (alias a) o = Some (VArr (x :: xs)) ->
  prepareOneRecord pl sails emi docId assocs true ar (VObj l) s = Some (r, s') -> False.
Proof.
  intros Hin Hnd Ht Hi Hm Hc Hcl Hj Har HK Hl Hf H.
  set (K := convertModelName pl sails (globalId m) true) in *.
  set (n0 := st_next s) in *.
  unfold prepareOneRecord in H.
  stepn H props s1 E1. apply toJSON_some in E1.
  destruct E1 as [-> (l' & El & Hl')]. injection El as <-. rewrite Hl in Hl'.
  injection Hl' as <-.
  stepn H rec s2 E2. apply alloc_some in E2. destruct E2 as [-> ->].
  stepn H L s3 E3.
  set (P := fun s1 : St => closed n0 docId s1 /\ assoc_get K (st_json s1) = None /\
              exists o1, st_heap s1 n0 = Some o1 /\
                         assoc_get (alias a) o1 = Some (VArr (x :: xs))).
  assert (Hfail : forall acc s1, P s1 ->
            prepare_assoc pl sails emi docId true ar (VObj n0) acc a s1 = None).
  { intros acc s1 (_ & HK1 & o1 & Ho1 & Hf1).
    exact (prepare_assoc_shadow_none _ _ _ _ _ _ _ _ _ _ _ Ht Hi Hm HK1 Ho1 Hf1). }
  rewrite (foldM_inv_none _ P _ a Hin Hfail) in E3; [discriminate| |].
  - intros y acc s4 L5 s5 Hy HP E5.
    destruct (string_dec (alias y) (alias a)) as [Ha|Ha].
    + assert (y = a) as -> by exact (NoDup_map_same _ _ _ _ Hnd Hy Hin Ha).
      rewrite (Hfail acc s4 HP) in E5. discriminate.
    + destruct HP as (Hcl4 & HK4 & o4 & Ho4 & Hf4).
      pose proof E5 as Eb.
      apply (prepare_assoc_eff pl sails n0 docId) in E5;
        [|apply N.le_refl | exact Hcl4 | exact Har].
      destruct E5 as (Eff & _ & _).
      destruct (Eff Hcl4) as (_ & _ & _ & Hc5 & Hcl5).
      destruct (Hc5 o4 Ho4) as (o5 & Ho5 & Hk5).
      split; [exact Hcl5|]. split.
      * rewrite (prepare_assoc_bucket _ _ _ _ _ _ _ _ _ _ _ _ K o4 Eb Ho4); [exact HK4|].
        intros Hir Hkey. apply opt_is_some in Hir. unfold assoc_key in Hkey.
        destruct (models sails (target_key y)) as [my|] eqn:Hmy; [|discriminate].
        injection Hkey as Hkey. exfalso. exact (Hc y my Hy Ha Hir Hmy Hkey).
      * exists o5. split; [exact Ho5|]. rewrite Hk5; [exact Hf4|].
        intros [E|[]]. apply Ha. exact E.
  - split; [split|]; simpl.
    + apply closed_heap_upd; [exact Hcl|]. exact (Hcl l o Hl).
    + apply all_empty_closed. exact Hj.
    + split; [exact HK|]. exists o. split; [apply heap_upd_eq | exact Hf].
Qed.

End Shadow.

(** X12: with sideloading, when a collection association included as
    [record] has the root document key as its alias, its target's bucket
    is never created (line 94) unless another association included as
    [record] targets the same key; a first record with a non-empty array
    in that field then makes [buildResponse] throw (line 118). *)
Theorem buildResponse_alias_shadows_bucket pl sails mdl records assocs ar s a m l o x xs rest :
  In a assocs -> NoDup (map alias assocs) ->
  type a = "collection" -> include a = Some "record" ->
  alias a = convertModelName pl sails (globalId mdl) true ->
  models sails (target_key a) = Some m ->
  convertModelName pl sails (globalId m) true <>
    convertModelName pl sails (globalId mdl) true ->
  (forall b mb, In b assocs -> alias b <> alias a -> include b = Some "record" ->
     models sails (target_key b) = Some mb ->
     convertModelName pl sails (globalId mb) true <>
       convertModelName pl sails (globalId m) true) ->
  closed_heap (st_next s) (st_heap s) -> below (st_next s) ar = true ->
  records_list records = VObj l :: rest -> st_heap s l = Some o ->
  assoc_get (alias a) o = Some (VArr (x :: xs)) ->
  buildResponse pl sails mdl records assocs true ar s = None.
Proof.
  intros Hin Hnd Ht Hi Ha Hm HK Hc Hcl Har Hr Hl Hf.
  destruct (buildResponse pl sails mdl records assocs true ar s) as [[d s']|] eqn:H;
    [exfalso|reflexivity].
  apply buildResponse_run in H. destruct H as (sm & Hb & _ & _).
  unfold build_records in Hb. cbv zeta in Hb.
  set (docId := convertModelName pl sails (globalId mdl) true) in *.
  set (K := convertModelName pl sails (globalId m) true) in *.
  stepn Hb u1 s1 E1. unfold init_document in E1. stepn E1 u0 s0 E0.
  inversion E0; subst u0 s0. clear E0.
  pose proof E1 as E1'.
  apply (prepare_sideload_all_empty pl sails docId) in E1'; [|constructor; [reflexivity|constructor] | simpl; rewrite String.eqb_refl; reflexivity].
  destruct E1' as (J1 & _ & H1 & N1).
  apply (prepare_sideload_absent pl sails docId K) in E1.
  2:{ intros b Hb' Hib. destruct (string_dec (alias b) (alias a)) as [E|E];
      [left; rewrite E; exact Ha | right; intros mb Hmb; exact (Hc b mb Hb' E Hib Hmb)]. }
  2:{ simpl. unfold has_key. simpl. rewrite String.eqb_refl. reflexivity. }
  2:{ simpl. destruct (String.eqb_spec K docId); [contradiction|reflexivity]. }
  destruct E1 as [_ K1].
  assert (Hcl1 : closed_heap (st_next s1) (st_heap s1)).
  { rewrite H1, N1. exact Hcl. }
  assert (Har1 : below (st_next s1) ar = true) by (rewrite N1; exact Har).
  assert (Hl1 : st_heap s1 l = Some o) by (rewrite H1; exact Hl).
  destruct records as [| | | | |vs| |]; simpl in Hr; try discriminate;
    try (injection Hr as <- _; stepn Hb r s5 E5;
         exact (prepareOneRecord_shadow_none _ _ _ _ _ _ _ _ _ _ _ _ _ _ _
                  Hin Hnd Ht Hi Hm Hc Hcl1 J1 Har1 K1 Hl1 Hf E5)).
  subst vs. simpl in Hb. stepn Hb u5 s5 E5. stepn E5 old s6 E6.
  apply json_get_some in E6. destruct E6 as [-> _]. stepn E5 r s7 E7.
  exact (prepareOneRecord_shadow_none _ _ _ _ _ _ _ _ _ _ _ _ _ _ _
           Hin Hnd Ht Hi Hm Hc Hcl1 J1 Har1 K1 Hl1 Hf E7).
Qed.

(** ** Further properties: single-valued associations *)

Lemma prepare_assoc_model pl sails emi docId ar c L a s L' s' oa l1 o1 :
  prepare_assoc pl sails emi docId true ar (VObj c) L a s = Some (L', s') ->
  type a = "model" -> include a = Some "record" ->
  st_heap s c = Some oa -> assoc_get (alias a) oa = Some (VObj l1) -> l1 <> c ->
  st_heap s l1 = Some o1 ->
  exists oa2, st_heap s' c = Some oa2 /\ assoc_get (alias a) oa2 = Some (id_of o1).
Proof.
  intros H Ht Hi Hc Hf Hne Hl1. unfold prepare_assoc in H.
  stepn H m s1 E1. apply models_get_some in E1. destruct E1 as [-> _].
  assert (Em : String.eqb "model" "collection" = false) by reflexivity.
  rewrite Ht, Em, String.eqb_refl in H.
  stepn H L1 s2 E2. apply ret_some in E2. destruct E2 as [-> ->].
  stepn H u3 s3 E3. apply ret_some in H. destruct H as [-> ->].
  unfold sideload_model in E3.
  stepn E3 f s4 E4. apply getM_some in E4. destruct E4 as [-> Hf4].
  simpl in Hf4. rewrite Hc, Hf in Hf4. injection Hf4 as <-.
  simpl in E3. rewrite Hi in E3. simpl in E3.
  stepn E3 am s5 E5. apply models_get_some in E5. destruct E5 as [-> _].
  stepn E3 linked s6 E6. apply linkAssociations_heap in E6.
  destruct E6 as (-> & J6 & N6 & F6).
  assert (Hc6 : st_heap s6 c = Some oa).
  { rewrite F6. simpl. replace (N.eqb c l1) with false
      by (symmetry; apply N.eqb_neq; congruence).
    rewrite andb_false_r. exact Hc. }
  assert (Hid6 : exists o6, st_heap s6 l1 = Some o6 /\ id_of o6 = id_of o1).
  { rewrite F6. destruct (_ && _)%bool; rewrite Hl1; simpl; eexists; split;
      [reflexivity | unfold linkify; apply id_of_set_links | reflexivity | reflexivity]. }
  destruct Hid6 as (o6 & Ho6 & Hid).
  stepn E3 bucket s7 E7. apply json_get_some in E7. destruct E7 as [-> _].
  stepn E3 f' s8 E8. apply getM_some in E8. destruct E8 as [-> Hf8].
  simpl in Hf8. rewrite Hc6, Hf in Hf8. injection Hf8 as <-.
  stepn E3 u9 s9 E9. apply json_set_some in E9. subst s9.
  stepn E3 x10 s10 E10. apply ret_some in E10. destruct E10 as [-> ->].
  stepn E3 i s11 E11. apply getM_some in E11. destruct E11 as [-> Hi11].
  simpl in Hi11. rewrite Ho6 in Hi11. injection Hi11 as <-.
  apply setM_some in E3.
  destruct E3 as [(l & o & El & Hl & ->) | (_ & _ & _ & Hno)];
    [|exfalso; eapply Hno; reflexivity].
  injection El as <-. simpl in Hl. rewrite Hc6 in Hl. injection Hl as <-.
  exists (assoc_set (alias a) (id_of o6) oa). simpl. rewrite heap_upd_eq.
  split; [reflexivity|]. rewrite assoc_get_set_eq, Hid. reflexivity.
Qed.

(** X14: with sideloading, a single-valued association included as
    [record] whose field holds a record object ends up as that record's
    id in every output record (lines 145-151). *)
Theorem model_association_output pl sails mdl records assocs ar s d s' a :
  buildResponse pl sails mdl records assocs true ar s = Some (d, s') ->
  closed_heap (st_next s) (st_heap s) -> below (st_next s) records = true ->
  below (st_next s) ar = true -> NoDup (map alias assocs) ->
  In a assocs -> alias a <> "links" -> type a = "model" -> include a = Some "record" ->
  exists root,
    assoc_get (convertModelName pl sails (globalId mdl) true) d = Some root /\
    Forall2 (fun r out => exists l o c o',
       r = VObj l /\ st_heap s l = Some o /\ out = VObj c /\ st_heap s' c = Some o' /\
       forall l1 o1, assoc_get (alias a) o = Some (VObj l1) -> st_heap s l1 = Some o1 ->
         assoc_get (alias a) o' = Some (id_of o1))
      (records_list records) root.
Proof.
  intros H Hh Hr Har Hnd Hin Hla Ht Hi.
  destruct (buildResponse_root _ _ _ _ _ _ _ _ _ _ H Hh Hr Har) as (_ & root & Hroot & HF).
  exists root. split; [exact Hroot|].
  eapply Forall2_impl; [|exact HF].
  intros r out (s1 & s2 & c & P1 & P2 & P3 & P4 & P5 & P6 & P7).
  pose proof (prepareOneRecord_obj _ _ _ _ _ _ _ _ _ _ _ P1) as Hc.
  injection Hc as Hc. subst c out.
  destruct (prepareOneRecord_at pl sails (st_next s) _ _ _ _ _ _ _ _ _ a P1 P4 P5 P6 Har
              Hnd Hin Hla)
    as (l & o1 & L1 & sa1 & L2 & sa2 & oa & -> & Hl1 & _ & Hcla & Fa & Hoa & Koa & Eb & Fin).
  assert (Hlt : (l < st_next s)%N) by (simpl in P6; apply N.ltb_lt; exact P6).
  pose proof (P7 l Hlt) as Hst. rewrite Hl1 in Hst.
  apply links_step_of_opt in Hst. destruct Hst as (o & Hl & Hoo1).
  assert (Fs : forall l', (l' < st_next s)%N ->
                 opt_links_step (st_heap s l') (st_heap sa1 l'))
    by (intros l' Hl'; eapply opt_links_step_trans; [apply P7 | apply Fa]; exact Hl').
  destruct (prepare_assoc_eff pl sails (st_next s) _ _ _ _ _ _ _ _ _ _ Eb P5 Hcla Har)
    as [Eff _].
  destruct (Eff Hcla) as (_ & _ & _ & Ceff & _).
  destruct (Ceff oa Hoa) as (oa2 & Hoa2 & _).
  destruct (Fin oa2 Hoa2) as (o' & Ho' & Hao' & _).
  exists l, o, (st_next s1), o'.
  split; [reflexivity|]. split; [exact Hl|]. split; [reflexivity|].
  split; [rewrite P3; exact Ho'|].
  intros l1 o2 Hf Hl2.
  assert (Hfa : assoc_get (alias a) oa = Some (VObj l1)).
  { rewrite (Koa (alias a) (or_introl eq_refl)), (links_step_get o o1 _ Hoo1 Hla). exact Hf. }
  assert (Hlt1 : (l1 < st_next s)%N).
  { assert (Hg : get_prop (st_heap s) (VObj l) (alias a) = Some (VObj l1))
      by (simpl; rewrite Hl, Hf; reflexivity).
    pose proof (get_prop_obj_below _ _ _ _ _ Hh Hg) as Hb. simpl in Hb.
    apply N.ltb_lt. exact Hb. }
  pose proof (Fs l1 Hlt1) as Hs1. rewrite Hl2 in Hs1.
  destruct (st_heap sa1 l1) as [o3|] eqn:Hl3; [|destruct Hs1].
  assert (Hne : l1 <> st_next s1) by lia.
  destruct (prepare_assoc_model _ _ _ _ _ _ _ _ _ _ _ _ _ _ Eb Ht Hi Hoa Hfa Hne Hl3)
    as (oa3 & Hoa3 & Hid).
  rewrite Hoa2 in Hoa3. injection Hoa3 as <-.
  rewrite Hao', Hid, (links_step_id o2 o3 Hs1). reflexivity.
Qed.


Lemma prepare_assoc_bare pl sails emi docId ar c L a s L' s' oa v :
  prepare_assoc pl sails emi docId true ar (VObj c) L a s = Some (L', s') ->
  type a = "model" -> include a = Some "record" ->
  st_heap s c = Some oa -> assoc_get (alias a) oa = Some v ->
  is_number_or_string v = true -> truthy v = true ->
  exists oa2, st_heap s' c = Some oa2 /\ assoc_get (alias a) oa2 = Some VUndef.
Proof.
  intros H Ht Hi Hc Hf Hv Htr. unfold prepare_assoc in H.
  stepn H m s1 E1. apply models_get_some in E1. destruct E1 as [-> _].
  assert (Em : String.eqb "model" "collection" = false) by reflexivity.
  rewrite Ht, Em, String.eqb_refl in H.
  stepn H L1 s2 E2. apply ret_some in E2. destruct E2 as [-> ->].
  stepn H u3 s3 E3. apply ret_some in H. destruct H as [-> ->].
  unfold sideload_model in E3.
  stepn E3 f s4 E4. apply getM_some in E4. destruct E4 as [-> Hf4].
  simpl in Hf4. rewrite Hc, Hf in Hf4. injection Hf4 as <-.
  rewrite Htr in E3. rewrite Hi in E3. simpl in E3.
  stepn E3 am s5 E5. apply models_get_some in E5. destruct E5 as [-> _].
  stepn E3 linked s6 E6. apply linkAssociations_heap in E6.
  destruct E6 as (Hlk & J6 & N6 & F6).
  assert (Hlk' : linked = [v]) by (rewrite Hlk; destruct v; try discriminate; reflexivity).
  clear Hlk. subst linked.
  assert (Hh6 : forall x, st_heap s6 x = st_heap s x).
  { intros x. rewrite F6. destruct v; try discriminate; simpl; rewrite andb_false_r; reflexivity. }
  stepn E3 bucket s7 E7. apply json_get_some in E7. destruct E7 as [-> _].
  stepn E3 f' s8 E8. apply getM_some in E8. destruct E8 as [-> Hf8].
  simpl in Hf8. rewrite Hh6, Hc, Hf in Hf8. injection Hf8 as <-.
  stepn E3 u9 s9 E9. apply json_set_some in E9. subst s9.
  stepn E3 x10 s10 E10. apply ret_some in E10. destruct E10 as [-> ->].
  stepn E3 i s11 E11. apply getM_some in E11. destruct E11 as [-> Hi11].
  assert (i = VUndef) as -> by (destruct v; try discriminate; injection Hi11 as <-; reflexivity).
  apply setM_some in E3.
  destruct E3 as [(l & o & El & Hl & ->) | (_ & _ & _ & Hno)];
    [|exfalso; eapply Hno; reflexivity].
  injection El as <-. simpl in Hl. rewrite Hh6, Hc in Hl. injection Hl as <-.
  exists (assoc_set (alias a) VUndef oa). simpl. rewrite heap_upd_eq.
  split; [reflexivity|]. apply assoc_get_set_eq.
Qed.

(** X15: with sideloading, a single-valued association included as
    [record] whose field holds a truthy number or string (a bare id)
    ends up [undefined] in every output record ([linkedRecords[0].id] of
    a primitive, line 150). *)
Theorem model_association_bare_id pl sails mdl records assocs ar s d s' a :
  buildResponse pl sails mdl records assocs true ar s = Some (d, s') ->
  closed_heap (st_next s) (st_heap s) -> below (st_next s) records = true ->
  below (st_next s) ar = true -> NoDup (map alias assocs) ->
  In a assocs -> alias a <> "links" -> type a = "model" -> include a = Some "record" ->
  exists root,
    assoc_get (convertModelName pl sails (globalId mdl) true) d = Some root /\
    Forall2 (fun r out => exists l o c o',
       r = VObj l /\ st_heap s l = Some o /\ out = VObj c /\ st_heap s' c = Some o' /\
       forall v, assoc_get (alias a) o = Some v ->
         is_number_or_string v = true -> truthy v = true ->
         assoc_get (alias a) o' = Some VUndef)
      (records_list records) root.
Proof.
  intros H Hh Hr Har Hnd Hin Hla Ht Hi.
  destruct (buildResponse_root _ _ _ _ _ _ _ _ _ _ H Hh Hr Har) as (_ & root & Hroot & HF).
  exists root. split; [exact Hroot|].
  eapply Forall2_impl; [|exact HF].
  intros r out (s1 & s2 & c & P1 & P2 & P3 & P4 & P5 & P6 & P7).
  pose proof (prepareOneRecord_obj _ _ _ _ _ _ _ _ _ _ _ P1) as Hc.
  injection Hc as Hc. subst c out.
  destruct (prepareOneRecord_at pl sails (st_next s) _ _ _ _ _ _ _ _ _ a P1 P4 P5 P6 Har
              Hnd Hin Hla)
    as (l & o1 & L1 & sa1 & L2 & sa2 & oa & -> & Hl1 & _ & Hcla & Fa & Hoa & Koa & Eb & Fin).
  assert (Hlt : (l < st_next s)%N) by (simpl in P6; apply N.ltb_lt; exact P6).
  pose proof (P7 l Hlt) as Hst. rewrite Hl1 in Hst.
  apply links_step_of_opt in Hst. destruct Hst as (o & Hl & Hoo1).
  destruct (prepare_assoc_eff pl sails (st_next s) _ _ _ _ _ _ _ _ _ _ Eb P5 Hcla Har)
    as [Eff _].
  destruct (Eff Hcla) as (_ & _ & _ & Ceff & _).
  destruct (Ceff oa Hoa) as (oa2 & Hoa2 & _).
  destruct (Fin oa2 Hoa2) as (o' & Ho' & Hao' & _).
  exists l, o, (st_next s1), o'.
  split; [reflexivity|]. split; [exact Hl|]. split; [reflexivity|].
  split; [rewrite P3; exact Ho'|].
  intros v Hf Hv Htr.
  assert (Hfa : assoc_get (alias a) oa = Some v).
  { rewrite (Koa (alias a) (or_introl eq_refl)), (links_step_get o o1 _ Hoo1 Hla). exact Hf. }
  destruct (prepare_assoc_bare _ _ _ _ _ _ _ _ _ _ _ _ _ Eb Ht Hi Hoa Hfa Hv Htr)
    as (oa3 & Hoa3 & Hu).
  rewrite Hoa2 in Hoa3. injection Hoa3 as <-. rewrite Hao'. exact Hu.
Qed.

(** ** Witnesses and counterexamples on the example runs *)

Lemma ex_heap_closed : closed_heap 4%N ex_heap.
Proof.
  intros l o H. destruct l as [|[p|p|]]; try destruct p as [p|p|]; try destruct p;
    cbn in H; try discriminate; injection H as <-; reflexivity.
Qed.

Lemma empty_heap_closed : closed_heap 2%N empty_heap.
Proof.
  intros l o H. destruct l as [|[p|p|]]; try destruct p as [p|p|]; try destruct p;
    cbn in H; try discriminate; injection H as <-; reflexivity.
Qed.

Lemma sideload_two_records_witness :
  map fst ex_doc = ["users"; "posts"] /\
  assoc_get "users" ex_doc = Some [VObj (st_next ex_s0)] /\
  assoc_get "posts" ex_doc =
    Some (if strict_eq (id_of [("id", VNum 10); ("title", VStr "a")])
                       (id_of [("id", VNum 11); ("title", VStr "b")])
          then [VObj 2%N] else [VObj 2%N; VObj 3%N]) /\
  st_heap ex_final (st_next ex_s0) =
    Some (assoc_set (alias postsA)
            (VArr [id_of [("id", VNum 10); ("title", VStr "a")];
                   id_of [("id", VNum 11); ("title", VStr "b")]])
            [("id", VNum 1); ("name", VStr "ann"); ("posts", VArr [VObj 2%N; VObj 3%N])]) /\
  st_heap ex_final 2%N =
    Some (link_obj PluralizeLib.lib ex_sails postM [("id", VNum 10); ("title", VStr "a")]) /\
  st_heap ex_final 3%N =
    Some (link_obj PluralizeLib.lib ex_sails postM [("id", VNum 11); ("title", VStr "b")]).
Proof.
  apply (sideload_two_records PluralizeLib.lib ex_sails userM postsA postM VUndef ex_s0
           ex_doc ex_final "users" "posts" 1%N 2%N 3%N);
    first [vm_compute; reflexivity | vm_compute; discriminate | idtac].
  all: try (intros E; vm_compute in E; discriminate E).
Defined.

(** C1 fails: the user record 1 embeds the two posts 2 and 3, and the
    sideloading run gives a document with two keys, [users] and [posts]. *)
Lemma three_keys_counterexample :
  ex_heap 1%N = Some [("id", VNum 1); ("name", VStr "ann");
                      ("posts", VArr [VObj 2%N; VObj 3%N])] /\
  buildResponse PluralizeLib.lib ex_sails userM (VObj 1%N) [postsA] true VUndef ex_s0
    = Some (ex_doc, ex_final) /\
  map fst ex_doc = ["users"; "posts"] /\ List.length ex_doc = 2.
Proof. split; [reflexivity|]. split; [vm_compute; reflexivity|]. vm_compute. split; reflexivity. Qed.

Lemma buildResponse_sideload_buckets_witness :
  exists sm,
    build_records PluralizeLib.lib ex_sails userM (VObj 1%N) [postsA] true VUndef ex_s0
      = Some (tt, sm) /\
    forall k, k <> convertModelName PluralizeLib.lib ex_sails (globalId userM) true ->
      (forall b, assoc_get k ex_doc = Some b ->
         b <> [] /\
         ForallOrdPairs
           (fun x y => strict_eq (id_in (st_heap ex_final) x) (id_in (st_heap ex_final) y)
                       = false) b) /\
      ((assoc_get k (st_json sm) = None \/ assoc_get k (st_json sm) = Some []) ->
       assoc_get k ex_doc = None) /\
      (forall b, assoc_get k (st_json sm) = Some b -> b <> [] ->
         assoc_get k ex_doc = Some (keep_first (id_in (st_heap sm)) b)).
Proof.
  apply (buildResponse_sideload_buckets PluralizeLib.lib ex_sails userM (VObj 1%N) [postsA]
           VUndef ex_s0 ex_doc ex_final).
  vm_compute. reflexivity.
Defined.

Lemma link_association_output_witness :
  exists root,
    assoc_get (convertModelName PluralizeLib.lib ex_sails (globalId postM) true) link_doc
      = Some root /\
    Forall2 (fun r out => exists l o c o',
       r = VObj l /\ st_heap ex_s0 l = Some o /\ out = VObj c /\
       st_heap link_final c = Some o' /\ assoc_get (alias commentsA) o' = None /\
       exists L, assoc_get "links" o' = Some (VDict L) /\
         assoc_get (alias commentsA) L =
           Some (VStr (url [blueprints_prefix ex_sails; "/";
                            convertModelName PluralizeLib.lib ex_sails (globalId postM) true;
                            "/"; to_js_string (id_of o); "/"; alias commentsA])))
      (records_list (VObj 2%N)) root.
Proof.
  apply (link_association_output PluralizeLib.lib ex_sails postM (VObj 2%N) [commentsA] false
           VUndef ex_s0 link_doc link_final commentsA).
  - vm_compute. reflexivity.
  - exact ex_heap_closed.
  - vm_compute. reflexivity.
  - vm_compute. reflexivity.
  - constructor; [intros [] | constructor].
  - constructor; [split; intros E; vm_compute in E; discriminate E | constructor].
  - left. reflexivity.
  - reflexivity.
  - reflexivity.
Defined.

Lemma index_association_output_witness :
  index_pick ex_heap ix_rows (singular PluralizeLib.lib "fromId") "toId" (VNum 1)
    = [VNum 9; VNum 10] /\
  exists root,
    assoc_get (convertModelName PluralizeLib.lib ix_sails (globalId userM) true) ix_doc
      = Some root /\
    Forall2 (fun r out => exists l o c o',
       r = VObj l /\ st_heap ex_s0 l = Some o /\ out = VObj c /\
       st_heap ix_final c = Some o' /\
       assoc_get (alias tagsA) o' =
         Some (VArr (index_pick (st_heap ex_s0) ix_rows (singular PluralizeLib.lib "fromId")
                       (pick_key tagsA) (id_of o))))
      (records_list (VObj 1%N)) root.
Proof.
  split; [vm_compute; reflexivity|].
  apply (index_association_output PluralizeLib.lib ix_sails userM (VObj 1%N) [tagsA] false
           ix_ar ex_s0 ix_doc ix_final tagsA ix_rows "fromId").
  - vm_compute. reflexivity.
  - exact ex_heap_closed.
  - vm_compute. reflexivity.
  - vm_compute. reflexivity.
  - constructor; [intros [] | constructor].
  - constructor; [split; intros E; vm_compute in E; discriminate E | constructor].
  - left. reflexivity.
  - reflexivity.
  - reflexivity.
  - vm_compute. reflexivity.
  - reflexivity.
  - intros E. vm_compute in E. discriminate E.
  - intros E. vm_compute in E. discriminate E.
Defined.



Lemma buildResponse_batch_witness :
  buildResponse PluralizeLib.lib ex_sails postM (VArr [VObj 2%N]) [commentsA] false VUndef ex_s0 =
    buildResponse PluralizeLib.lib ex_sails postM (VObj 2%N) [commentsA] false VUndef ex_s0 /\
  forall d s',
    buildResponse PluralizeLib.lib ex_sails postM (VArr [VObj 2%N; VObj 3%N]) [commentsA]
      false VUndef ex_s0 = Some (d, s') ->
    exists s1 v1 s2 v2 s3,
      init_document PluralizeLib.lib ex_sails
        (convertModelName PluralizeLib.lib ex_sails (globalId postM) true)
        [commentsA] false ex_s0 = Some (tt, s1) /\
      prepareOneRecord PluralizeLib.lib ex_sails (globalId postM)
        (convertModelName PluralizeLib.lib ex_sails (globalId postM) true)
        [commentsA] false VUndef (VObj 2%N) s1 = Some (v1, s2) /\
      prepareOneRecord PluralizeLib.lib ex_sails (globalId postM)
        (convertModelName PluralizeLib.lib ex_sails (globalId postM) true)
        [commentsA] false VUndef (VObj 3%N)
        (with_json s2 (assoc_set (convertModelName PluralizeLib.lib ex_sails (globalId postM) true)
                                 [v1] (st_json s2))) = Some (v2, s3) /\
      assoc_get (convertModelName PluralizeLib.lib ex_sails (globalId postM) true) d
        = Some [v1; v2].
Proof.
  apply (buildResponse_batch PluralizeLib.lib ex_sails postM [commentsA] false VUndef
           (VObj 2%N) (VObj 2%N) (VObj 3%N) ex_s0).
  intros vs E. discriminate E.
Defined.

Lemma empty_embedded_field_witness :
  (exists root,
     assoc_get (convertModelName PluralizeLib.lib ex_sails (globalId userM) true) empty_doc
       = Some root /\
     Forall2 (fun r out => exists l o c o',
        r = VObj l /\ st_heap empty_s0 l = Some o /\ out = VObj c /\
        st_heap empty_final c = Some o' /\
        forall a, In a [postsA] -> type a = "collection" -> include a = Some "record" ->
          empty_field (assoc_get (alias a) o) = true ->
          assoc_get (alias a) o' = assoc_get (alias a) o)
       (records_list (VObj 1%N)) root) /\
  (forall K, K <> convertModelName PluralizeLib.lib ex_sails (globalId userM) true ->
     (forall r l o b, In r (records_list (VObj 1%N)) -> r = VObj l ->
        st_heap empty_s0 l = Some o -> In b [postsA] -> include b = Some "record" ->
        assoc_key PluralizeLib.lib ex_sails b = Some K ->
        empty_field (assoc_get (alias b) o) = true) ->
     assoc_get K empty_doc = None).
Proof.
  apply (empty_embedded_field PluralizeLib.lib ex_sails userM (VObj 1%N) [postsA] VUndef
           empty_s0 empty_doc empty_final).
  - vm_compute. reflexivity.
  - exact empty_heap_closed.
  - vm_compute. reflexivity.
  - vm_compute. reflexivity.
  - constructor; [intros [] | constructor].
  - constructor; [intros E; vm_compute in E; discriminate E | constructor].
Defined.

(** Witnesses of the further properties *)

Lemma au_heap_closed : closed_heap 4%N au_heap.
Proof.
  intros l o H. destruct l as [|[p|p|]]; try destruct p as [p|p|]; try destruct p;
    cbn in H; try discriminate; injection H as <-; reflexivity.
Qed.

Lemma convertModelName_key_shape_witness :
  ember_convertModelName (plain_sails no_models "/api") = None /\
  exists ws, Forall lword_ok ws /\
    list_ascii_of_string
      (convertModelName PluralizeLib.lib (plain_sails no_models "/api") "blogPost" false)
    = join_dash ws.
Proof.
  split; [reflexivity|].
  apply (convertModelName_key_shape PluralizeLib.lib (plain_sails no_models "/api") "blogPost").
  reflexivity.
Defined.

Lemma convertModelName_kebab_idem_witness :
  ember_convertModelName (plain_sails no_models "/api") = None /\
  convertModelName PluralizeLib.lib (plain_sails no_models "/api")
    (convertModelName PluralizeLib.lib (plain_sails no_models "/api") "blogPost" false) false =
    convertModelName PluralizeLib.lib (plain_sails no_models "/api") "blogPost" false /\
  convertModelName PluralizeLib.lib (plain_sails no_models "/api")
    (convertModelName PluralizeLib.lib (plain_sails no_models "/api") "blogPost" false) true =
    convertModelName PluralizeLib.lib (plain_sails no_models "/api") "blogPost" true.
Proof.
  split; [reflexivity|].
  apply (convertModelName_kebab_idem PluralizeLib.lib (plain_sails no_models "/api") "blogPost").
  reflexivity.
Defined.

Lemma reverseModelName_plain_shape_witness :
  ember_reverseModelName (plain_sails no_models "/api") = None /\
  Forall (fun c => (is_lower c || is_digit c)%bool = true)
    (list_ascii_of_string
       (reverseModelName PluralizeLib.lib (plain_sails no_models "/api") "blog-posts" false)).
Proof.
  split; [reflexivity|].
  apply (reverseModelName_plain_shape PluralizeLib.lib (plain_sails no_models "/api")
           "blog-posts").
  reflexivity.
Defined.

Lemma buildResponse_nosideload_frame_witness :
  map fst link_doc = [convertModelName PluralizeLib.lib ex_sails (globalId postM) true] /\
  forall l, (l < st_next ex_s0)%N -> st_heap link_final l = st_heap ex_s0 l.
Proof.
  apply (buildResponse_nosideload_frame PluralizeLib.lib ex_sails postM (VObj 2%N)
           [commentsA] VUndef ex_s0 link_doc link_final).
  vm_compute. reflexivity.
Defined.


Lemma buildResponse_nosideload_fields_witness :
  exists root,
    assoc_get (convertModelName PluralizeLib.lib ix_sails (globalId userM) true) ix_doc
      = Some root /\
    Forall2 (fun r out => exists l o c o',
       r = VObj l /\ st_heap ex_s0 l = Some o /\ out = VObj c /\ st_heap ix_final c = Some o' /\
       forall k, k <> "links" -> ~ In k (map alias (filter rewrites_field [tagsA])) ->
         assoc_get k o' = assoc_get k o)
      (records_list (VObj 1%N)) root.
Proof.
  apply (buildResponse_nosideload_fields PluralizeLib.lib ix_sails userM (VObj 1%N) [tagsA]
           ix_ar ex_s0 ix_doc ix_final).
  - vm_compute. reflexivity.
  - vm_compute. reflexivity.
Defined.

Lemma buildResponse_non_object_witness :
  buildResponse PluralizeLib.lib ex_sails userM VUndef [postsA] true VUndef ex_s0 = None.
Proof.
  apply (buildResponse_non_object PluralizeLib.lib ex_sails userM VUndef [postsA] true VUndef
           ex_s0 VUndef).
  - left. reflexivity.
  - intros l E. discriminate E.
Defined.

Lemma buildResponse_missing_model_witness :
  buildResponse PluralizeLib.lib ex_sails userM (VObj 1%N) [tagsA] false ix_ar ex_s0 = None.
Proof.
  apply (buildResponse_missing_model PluralizeLib.lib ex_sails userM (VObj 1%N) [tagsA] false
           ix_ar ex_s0 tagsA).
  - left. reflexivity.
  - reflexivity.
  - left. intros E. discriminate E.
Defined.

Lemma buildResponse_missing_via_witness :
  buildResponse PluralizeLib.lib ex_sails postM (VObj 2%N)
    [{| alias := "comments"; type := "collection"; collection := Some "comment";
        model := None; via := None; through := None; include := Some "link" |}]
    false VUndef ex_s0 = None.
Proof.
  apply (buildResponse_missing_via PluralizeLib.lib ex_sails postM (VObj 2%N) _ false VUndef
           ex_s0 {| alias := "comments"; type := "collection"; collection := Some "comment";
                    model := None; via := None; through := None; include := Some "link" |}).
  - left. reflexivity.
  - reflexivity.
  - reflexivity.
  - intros E. discriminate E.
Defined.

Lemma buildResponse_index_without_rows_witness :
  buildResponse PluralizeLib.lib ix_sails userM (VObj 1%N) [tagsA] false VUndef ex_s0 = None.
Proof.
  apply (buildResponse_index_without_rows PluralizeLib.lib ix_sails userM (VObj 1%N) [tagsA]
           false VUndef ex_s0 tagsA).
  - left. reflexivity.
  - reflexivity.
  - reflexivity.
  - left. reflexivity.
  - intros E. discriminate E.
Defined.

Lemma buildResponse_alias_shadows_bucket_witness :
  buildResponse PluralizeLib.lib ex_sails postM (VObj 1%N) [shadowA; authorA] true VUndef ex_s0
    = None.
Proof.
  apply (buildResponse_alias_shadows_bucket PluralizeLib.lib ex_sails postM (VObj 1%N)
           [shadowA; authorA] VUndef ex_s0 shadowA commentM 1%N
           [("id", VNum 1); ("name", VStr "ann"); ("posts", VArr [VObj 2%N; VObj 3%N])]
           (VObj 2%N) [VObj 3%N] []).
  - left. reflexivity.
  - vm_compute. constructor; [intros [E|[]]; discriminate E | constructor; [intros [] | constructor]].
  - reflexivity.
  - reflexivity.
  - vm_compute. reflexivity.
  - reflexivity.
  - intros E. vm_compute in E. discriminate E.
  - intros b mb [<-|[<-|[]]] Hne Hib Hmb; [contradiction|].
    vm_compute in Hmb. injection Hmb as <-. vm_compute. intros E. discriminate E.
  - exact ex_heap_closed.
  - reflexivity.
  - reflexivity.
  - reflexivity.
  - reflexivity.
Defined.

Lemma buildResponse_empty_input_witness :
  run_doc (buildResponse PluralizeLib.lib ex_sails userM (VArr []) [postsA] true VUndef ex_s0)
    = [(convertModelName PluralizeLib.lib ex_sails (globalId userM) true, [])] /\
  forall l, (l < st_next ex_s0)%N ->
    st_heap (run_final (buildResponse PluralizeLib.lib ex_sails userM (VArr [])
                          [postsA] true VUndef ex_s0) ex_s0) l = st_heap ex_s0 l.
Proof.
  apply (buildResponse_empty_input PluralizeLib.lib ex_sails userM [postsA] true VUndef ex_s0).
  vm_compute. reflexivity.
Defined.

Lemma model_association_output_witness :
  exists root,
    assoc_get (convertModelName PluralizeLib.lib ex_sails (globalId postM) true)
      (run_doc au_run) = Some root /\
    Forall2 (fun r out => exists l o c o',
       r = VObj l /\ st_heap au_s0 l = Some o /\ out = VObj c /\
       st_heap (run_final au_run au_s0) c = Some o' /\
       forall l1 o1, assoc_get (alias authorA) o = Some (VObj l1) ->
         st_heap au_s0 l1 = Some o1 ->
         assoc_get (alias authorA) o' = Some (id_of o1))
      (records_list (VObj 2%N)) root.
Proof.
  apply (model_association_output PluralizeLib.lib ex_sails postM (VObj 2%N) [authorA] VUndef
           au_s0 (run_doc au_run) (run_final au_run au_s0) authorA).
  - vm_compute. reflexivity.
  - exact au_heap_closed.
  - vm_compute. reflexivity.
  - vm_compute. reflexivity.
  - constructor; [intros [] | constructor].
  - left. reflexivity.
  - intros E. discriminate E.
  - reflexivity.
  - reflexivity.
Defined.

Lemma model_association_bare_id_witness :
  exists root,
    assoc_get (convertModelName PluralizeLib.lib ex_sails (globalId postM) true)
      (run_doc bare_run) = Some root /\
    Forall2 (fun r out => exists l o c o',
       r = VObj l /\ st_heap au_s0 l = Some o /\ out = VObj c /\
       st_heap (run_final bare_run au_s0) c = Some o' /\
       forall v, assoc_get (alias authorA) o = Some v ->
         is_number_or_string v = true -> truthy v = true ->
         assoc_get (alias authorA) o' = Some VUndef)
      (records_list (VObj 3%N)) root.
Proof.
  apply (model_association_bare_id PluralizeLib.lib ex_sails postM (VObj 3%N) [authorA] VUndef
           au_s0 (run_doc bare_run) (run_final bare_run au_s0) authorA).
  - vm_compute. reflexivity.
  - exact au_heap_closed.
  - vm_compute. reflexivity.
  - vm_compute. reflexivity.
  - constructor; [intros [] | constructor].
  - left. reflexivity.
  - intros E. discriminate E.
  - reflexivity.
  - reflexivity.
Defined.
